(** * The MHD time-evolution core of pyro2 ([mhd/simulation.py])

    A shallow embedding of the variable registry ([Variables]), the state
    converter ([cons_to_prim], [prim_to_cons]), the timestep controller
    ([method_compute_timestep]) and the stage driver ([evolve]), followed by
    the properties of the specification that concern them.

    Conventions of the embedding.
    - Numbers.  The source computes with numpy [float64].  All definitions
      are written once, over an interface [Arith] of the operations the
      source uses, and run at two instances: [R_arith] (exact real
      arithmetic, in which the algebraic properties are proved) and
      [F_arith] (IEEE binary64 through the kernel's primitive floats, in
      which concrete inputs are evaluated bit for bit).
    - Arrays.  A numpy array is a shape together with its entries; the
      entries are read through their indices.  Every statement of the
      converter is a whole-array statement [A[:, :, k] = e], and is
      modelled as such.
    - Store.  Arrays are objects: the converter receives a reference and
      writes through it.  The store maps locations to arrays, a function
      of the source is a store-passing computation, and [None] stands for
      a raised exception ([IndexError], [ValueError]).
    - Collaborators whose code is outside [mhd/simulation.py] (equation of
      state, Runge-Kutta integrator, flux update, boundary fill, derived
      variables) are Section variables or class parameters. *)

From Stdlib Require Import ZArith List Reals Lra Lia Floats String Bool.
From stdpp Require Import base option list gmap strings.

Set Warnings "-inexact-float".

(** ** Arithmetic *)

(** The operations of the source on one floating-point number. *)
Class Arith (T : Type) := {
  aadd : T → T → T;        (* x + y *)
  asub : T → T → T;        (* x - y *)
  amul : T → T → T;        (* x * y *)
  adiv : T → T → T;        (* x / y *)
  aabs : T → T;            (* abs(x) *)
  amaximum : T → T → T;    (* np.maximum(x, y) *)
  aminimum : T → T → T;    (* np.minimum(x, y), which ndarray.min() folds *)
  altb : T → T → bool;     (* x < y, as the builtin min compares *)
  azero : T;               (* the 0.0 of a scratch array *)
  ahalf : T;               (* the literal 0.5 *)
  asmall : T               (* the literal 1.e-10 *)
}.

(** Exact arithmetic: the real numbers.  Division by zero is outside
    this reading: [x / 0] is [0] in [R], where binary64 gives an
    infinity or a NaN.  The converters divide by a density floored at
    [1e-10]; the theorems on the timestep take the divisors to be
    nonzero ([speeds_nonzero]). *)
#[export] Instance R_arith : Arith R := {|
  aadd := Rplus;
  asub := Rminus;
  amul := Rmult;
  adiv := Rdiv;
  aabs := Rabs;
  amaximum := Rmax;
  aminimum := Rmin;
  altb x y := if Rlt_dec x y then true else false;
  azero := 0%R;
  ahalf := 0.5%R;
  asmall := 1e-10%R
|}.

(** numpy's loops for [maximum] and [minimum] on floats keep the first
    operand when the comparison holds or when it is a NaN, and the second
    operand otherwise; a NaN on either side therefore comes out. *)
Definition np_maximum (x y : float) : float :=
  if (PrimFloat.leb y x || PrimFloat.is_nan x)%bool then x else y.

Definition np_minimum (x y : float) : float :=
  if (PrimFloat.leb x y || PrimFloat.is_nan x)%bool then x else y.

(** IEEE binary64, as numpy's [float64]. *)
#[export] Instance F_arith : Arith float := {|
  aadd := PrimFloat.add;
  asub := PrimFloat.sub;
  amul := PrimFloat.mul;
  adiv := PrimFloat.div;
  aabs := PrimFloat.abs;
  amaximum := np_maximum;
  aminimum := np_minimum;
  altb := PrimFloat.ltb;
  azero := 0%float;
  ahalf := 0.5%float;
  asmall := 1e-10%float
|}.

(** The equation of state ([mhd/eos.py]) is a collaborator; the converter
    calls its two functions on whole arrays, and they act cell by cell. *)
Class Eos (T : Type) := {
  pres : T → T → T → T;    (* eos.pres(gamma, dens, eint) *)
  rhoe : T → T → T         (* eos.rhoe(gamma, pres) *)
}.

(** Instances of the interface to run the theorems on: the ideal-gas
    (gamma-law) relations [p = rho e (gamma - 1)] and
    [rho e = p / (gamma - 1)]. *)
Definition gamma_law_R : Eos R := {|
  pres gamma dens eint := (dens * eint * (gamma - 1))%R;
  rhoe gamma p := (p / (gamma - 1))%R
|}.

Definition gamma_law_F : Eos float := {|
  pres gamma dens eint := (dens * eint * (gamma - 1))%float;
  rhoe gamma p := (p / (gamma - 1))%float
|}.

(** ** Arrays *)

Section Arrays.
Context {T : Type} `{Arith T}.

(** A two-dimensional array [f[i, j]]: one slot of the state over the
    grid, or a derived variable. *)
Record Field := mkField {
  fnx : nat;
  fny : nat;
  fdata : nat → nat → T
}.

(** A three-dimensional array [A[i, j, k]] of shape [(anx, any, anvar)]. *)
Record Array := mkArray {
  anx : nat;
  any : nat;
  anvar : nat;
  adata : nat → nat → nat → T
}.

(** numpy's reading of an index [k] along an axis of length [n]:
    [0 <= k < n] counts from the start, [-n <= k < 0] from the end, and
    anything else raises [IndexError]. *)
Definition norm_index (n : nat) (k : Z) : option nat :=
  if ((0 <=? k) && (k <? Z.of_nat n))%Z then Some (Z.to_nat k)
  else if ((- Z.of_nat n <=? k) && (k <? 0))%Z then Some (Z.to_nat (k + Z.of_nat n))
  else None.

(** The view [A[:, :, k]] for a slot [k] already normalised. *)
Definition slot (A : Array) (k : nat) : Field :=
  mkField (anx A) (any A) (λ i j, adata A i j k).

(** [A[:, :, k] = F] for a slot [k] already normalised. *)
Definition set_slot (A : Array) (k : nat) (F : Field) : Array :=
  mkArray (anx A) (any A) (anvar A)
          (λ i j k', if Nat.eqb k' k then fdata F i j else adata A i j k').

Definition same_shape (F G : Field) : bool :=
  Nat.eqb (fnx F) (fnx G) && Nat.eqb (fny F) (fny G).

(** A unary operation, or a binary one with a scalar, on every entry. *)
Definition fmap1 (f : T → T) (F : Field) : Field :=
  mkField (fnx F) (fny F) (λ i j, f (fdata F i j)).

(** A binary operation entry by entry.  The two arrays have the same
    shape; numpy's broadcasting of unequal shapes is not modelled, and
    unequal shapes are reported as an error. *)
Definition fmap2 (f : T → T → T) (F G : Field) : option Field :=
  if same_shape F G
  then Some (mkField (fnx F) (fny F) (λ i j, f (fdata F i j) (fdata G i j)))
  else None.

(** Two arrays are equal when they have the same shape and entries. *)
Definition array_eq (A B : Array) : Prop :=
  anx A = anx B ∧ any A = any B ∧ anvar A = anvar B ∧
  ∀ i j k, (i < anx A)%nat → (j < any A)%nat → (k < anvar A)%nat →
           adata A i j k = adata B i j k.

(** The entries of a field, row after row. *)
Definition entries (F : Field) : list T :=
  flat_map (λ i, map (λ j, fdata F i j) (seq 0 (fny F))) (seq 0 (fnx F)).

(** [F.min()]: numpy folds [minimum] over the entries, and raises
    [ValueError] on an array without entries. *)
Definition fmin (F : Field) : option T :=
  match entries F with
  | [] => None
  | x :: l => Some (fold_left aminimum l x)
  end.

(** The builtin [min(a, b, c)]: the first of the smallest arguments. *)
Definition py_min2 (a b : T) : T := if altb b a then b else a.
Definition py_min3 (a b c : T) : T := py_min2 (py_min2 a b) c.

End Arrays.

Arguments Field : clear implicits.
Arguments Array : clear implicits.

(** ** Computations and the store *)

(** A computation over a state [S]: it returns a value with the new
    state, or raises. *)
Section Comp.
Context {S : Type}.

Definition Comp (A : Type) : Type := S → option (A * S).

Definition ret {A} (a : A) : Comp A := λ s, Some (a, s).

Definition bind {A B} (m : Comp A) (f : A → Comp B) : Comp B :=
  λ s, match m s with
       | Some (a, s') => f a s'
       | None => None
       end.

Definition raise {A} : Comp A := λ _, None.

Definition lift {A} (o : option A) : Comp A :=
  match o with Some a => ret a | None => raise end.

(** [for a in l: body(a)] *)
Fixpoint for_each {A} (l : list A) (body : A → Comp unit) : Comp unit :=
  match l with
  | [] => ret tt
  | a :: l' => bind (body a) (λ _, for_each l' body)
  end.

End Comp.

Arguments Comp : clear implicits.

Declare Scope comp_scope.
Delimit Scope comp_scope with comp.
Notation "'do' x <- m ; k" := (bind m (λ x, k))
  (at level 10, x name, m at level 100, k at level 200) : comp_scope.
Notation "m ;; k" := (bind m (λ _, k))
  (at level 100, k at level 200, right associativity) : comp_scope.

(** [range(a, b)] *)
Definition range (a b : Z) : list Z :=
  map (λ i, (a + Z.of_nat i)%Z) (seq 0 (Z.to_nat (b - a))).

(** The store of the converter maps locations to array objects. *)
Definition loc := positive.

Abbreviation M T := (Comp (gmap loc (Array T))).

Section Store.
Context {T : Type}.

(** A new array object, at a location no object of the store has. *)
Definition alloc (A : Array T) : M T loc :=
  λ h, let l := fresh (dom h) in Some (l, <[l := A]> h).

Definition load (l : loc) : M T (Array T) :=
  λ h, match h !! l with Some A => Some (A, h) | None => None end.

Definition store (l : loc) (A : Array T) : M T unit :=
  λ h, Some (tt, <[l := A]> h).

End Store.

(** ** Whole-array expressions and statements *)

Section Statements.
Context {T : Type} `{Arith T}.

(** The view [l[:, :, k]] of the array object at [l]. *)
Definition slice (l : loc) (k : Z) : M T (Field T) :=
  (do A <- load l;
   do i <- lift (norm_index (anvar A) k);
   ret (slot A i))%comp.

(** The statement [l[:, :, k] = e]: the right-hand side is evaluated
    first, then written through the reference [l], in place. *)
Definition assign (l : loc) (k : Z) (e : M T (Field T)) : M T unit :=
  (do F <- e;
   do A <- load l;
   do i <- lift (norm_index (anvar A) k);
   if Nat.eqb (fnx F) (anx A) && Nat.eqb (fny F) (any A)
   then store l (set_slot A i F)
   else raise)%comp.

Definition eop1 (f : T → T) (e : M T (Field T)) : M T (Field T) :=
  (do F <- e; ret (fmap1 f F))%comp.

Definition eop2 (f : T → T → T) (e1 e2 : M T (Field T)) : M T (Field T) :=
  (do F <- e1; do G <- e2; lift (fmap2 f F G))%comp.

(** The grid ([mesh/patch.py]) as far as this file reads it. *)
Record Grid2d := mkGrid2d {
  qx : nat;      (* cells in x, ghost cells included *)
  qy : nat;      (* cells in y, ghost cells included *)
  dx : T;
  dy : T
}.

(** Modelled from the spec: [Grid2d.scratch_array] is in [mesh/patch.py],
    which is not among the sources.  It "provides [scratch_array(nvar)]
    sized [nx, ny, nvar] including ghost cells": a new array object of
    that shape.  Its entries before the first write are taken to be zero;
    no property below reads them. *)
Definition scratch_array (myg : Grid2d) (nvar : Z) : M T loc :=
  if (nvar <? 0)%Z then raise
  else alloc (mkArray (qx myg) (qy myg) (Z.to_nat nvar) (λ _ _ _, azero)).

End Statements.

Arguments Grid2d : clear implicits.

Declare Scope arr_scope.
Delimit Scope arr_scope with arr.
Notation "x + y" := (eop2 aadd x y) : arr_scope.
Notation "x - y" := (eop2 asub x y) : arr_scope.
Notation "x * y" := (eop2 amul x y) : arr_scope.
Notation "x / y" := (eop2 adiv x y) : arr_scope.
Notation "c *: x" := (eop1 (amul c) x) : arr_scope.

(** [x**2], which numpy computes as [x * x]. *)
Definition esq {T} `{Arith T} (e : M T (Field T)) : M T (Field T) :=
  eop1 (λ v, amul v v) e.

(** ** The variable registry *)

(** [names.index(x)]: the first position of [x], [ValueError] if absent. *)
Fixpoint list_index (x : string) (names : list string) : option Z :=
  match names with
  | [] => None
  | y :: names' =>
      if String.eqb y x then Some 0%Z
      else Z.succ <$> list_index x names'
  end.

Record Variables := mkVariables {
  nvar : Z;
  idens : Z; ixmom : Z; iymom : Z; iener : Z; ixmag : Z; iymag : Z;
  naux : Z;
  irhox : Z;
  nq : Z;
  irho : Z; iu : Z; iv : Z; ip : Z; ibx : Z; iby : Z;
  ix : Z
}.

(** [Variables.__init__(self, ccd)], from the attribute [ccd.names]. *)
Definition Variables_init (names : list string) : option Variables :=
  let nvar := Z.of_nat (length names) in
  idens ← list_index "density" names;
  ixmom ← list_index "x-momentum" names;
  iymom ← list_index "y-momentum" names;
  iener ← list_index "energy" names;
  ixmag ← list_index "x-magnetic-field" names;
  iymag ← list_index "y-magnetic-field" names;
  let naux := (nvar - 6)%Z in
  let irhox := if (0 <? naux)%Z then 6%Z else (-1)%Z in
  let nq := (6 + naux)%Z in
  let ix := if (0 <? naux)%Z then 6%Z else (-1)%Z in
  Some {| nvar := nvar;
          idens := idens; ixmom := ixmom; iymom := iymom;
          iener := iener; ixmag := ixmag; iymag := iymag;
          naux := naux; irhox := irhox; nq := nq;
          irho := 0; iu := 1; iv := 2; ip := 3; ibx := 4; iby := 5;
          ix := ix |}.

(** The six names [Simulation.initialize] registers, in its order; the
    passive scalars ([extra_vars]) are registered after them. *)
Definition mandatory : list string :=
  ["density"; "x-momentum"; "y-momentum"; "energy";
   "x-magnetic-field"; "y-magnetic-field"].

(** [names[k]] for a position [k >= 0]. *)
Definition name_at (names : list string) (k : Z) : option string :=
  nth_error names (Z.to_nat k).

(** ** The state converter *)

Section Converter.
Context {T : Type} `{Arith T} `{Eos T}.

(** [np.maximum(e, c)] and [np.maximum(c, e)] for an array [e] and a
    scalar [c]. *)
Definition emaximum_r (e : M T (Field T)) (c : T) : M T (Field T) :=
  eop1 (λ x, amaximum x c) e.

Definition emaximum_l (c : T) (e : M T (Field T)) : M T (Field T) :=
  eop1 (λ x, amaximum c x) e.

(** [eos.pres(gamma, dens, eint)] and [eos.rhoe(gamma, pres)] on arrays. *)
Definition eos_pres (gamma : T) (dens eint : M T (Field T)) : M T (Field T) :=
  eop2 (pres gamma) dens eint.

Definition eos_rhoe (gamma : T) (p : M T (Field T)) : M T (Field T) :=
  eop1 (rhoe gamma) p.

(** [cons_to_prim(U, gamma, ivars, myg)]: [U] is the caller's array
    object; the result is the new array [q]. *)
Definition cons_to_prim (U : loc) (gamma : T) (ivars : Variables) (myg : Grid2d T) : M T loc :=
  (let smallrho := asmall in
   let smallp := asmall in
   do q <- scratch_array myg (nq ivars);
   assign U (idens ivars) (emaximum_r (slice U (idens ivars)) smallrho) ;;
   assign q (irho ivars) (emaximum_r (slice U (idens ivars)) smallrho) ;;
   assign q (iu ivars) (slice U (ixmom ivars) / slice q (irho ivars))%arr ;;
   assign q (iv ivars) (slice U (iymom ivars) / slice q (irho ivars))%arr ;;
   assign q (ibx ivars) (slice U (ixmag ivars)) ;;
   assign q (iby ivars) (slice U (iymag ivars)) ;;
   do e <- ((slice U (iener ivars) -
             ahalf *: slice q (irho ivars) * (esq (slice q (iu ivars)) +
                                              esq (slice q (iv ivars))) -
             ahalf *: (esq (slice q (ibx ivars)) + esq (slice q (iby ivars))))
            / slice q (irho ivars))%arr;
   assign q (ip ivars)
          (emaximum_l smallp (eos_pres gamma (slice q (irho ivars)) (ret e))) ;;
   (if (0 <? naux ivars)%Z
    then for_each (combine (range (ix ivars) (ix ivars + naux ivars))
                           (range (irhox ivars) (irhox ivars + naux ivars)))
                  (λ '(nq, nu),
                    assign q nq (slice U nu / slice q (irho ivars))%arr)
    else ret tt) ;;
   ret q)%comp.

(** [prim_to_cons(q, gamma, ivars, myg)]: [q] is the caller's array
    object; the result is the new array [U]. *)
Definition prim_to_cons (q : loc) (gamma : T) (ivars : Variables) (myg : Grid2d T) : M T loc :=
  (let smallrho := asmall in
   let smallp := asmall in
   do U <- scratch_array myg (nvar ivars);
   assign U (idens ivars) (emaximum_r (slice q (irho ivars)) smallrho) ;;
   assign U (ixmom ivars) (slice q (iu ivars) * slice U (idens ivars))%arr ;;
   assign U (iymom ivars) (slice q (iv ivars) * slice U (idens ivars))%arr ;;
   assign U (ixmag ivars) (slice q (ibx ivars)) ;;
   assign U (iymag ivars) (slice q (iby ivars)) ;;
   do rhoe <- eos_rhoe gamma (emaximum_l smallp (slice q (ip ivars)));
   assign U (iener ivars)
          (ret rhoe +
           ahalf *: slice q (irho ivars) * (esq (slice q (iu ivars)) +
                                            esq (slice q (iv ivars))) +
           ahalf *: (esq (slice q (ibx ivars)) + esq (slice q (iby ivars))))%arr ;;
   (if (0 <? naux ivars)%Z
    then for_each (combine (range (ix ivars) (ix ivars + naux ivars))
                           (range (irhox ivars) (irhox ivars + naux ivars)))
                  (λ '(nq, nu),
                    assign U nu (slice q nq * slice q (irho ivars))%arr)
    else ret tt) ;;
   ret U)%comp.

End Converter.

(** ** The fields of the runtime visualization *)

(** [np.sqrt] on one number. *)
Class Sqrt (T : Type) := asqrt : T → T.

#[export] Instance sqrt_R : Sqrt R := R_sqrt.sqrt.
#[export] Instance sqrt_F : Sqrt float := PrimFloat.sqrt.

Section Dovis.
Context {T : Type} `{Arith T} `{Eos T} `{Sqrt T}.

(** [Simulation.dovis(self)] up to the list [fields] it hands to
    matplotlib: [names] is [self.cc_data.names], [data] the array object
    [self.cc_data.data], [gamma] the auxiliary [gamma] of [self.cc_data]
    and [myg] its grid.  The drawing itself (axes, images, colour bars,
    particles) is left to matplotlib and is not modelled. *)
Definition dovis_fields (names : list string) (data : loc) (gamma : T)
           (myg : Grid2d T) : M T (list (Field T)) :=
  (do ivars <- lift (Variables_init names);
   do q <- cons_to_prim data gamma ivars myg;
   do rho <- slice q (irho ivars);
   do u <- slice q (iu ivars);
   do v <- slice q (iv ivars);
   do p <- slice q (ip ivars);
   do e <- (eos_rhoe gamma (ret p) / ret rho)%arr;
   do bx <- slice q (ibx ivars);
   do by_ <- slice q (iby ivars);
   do magvel <- eop1 asqrt (esq (ret u) + esq (ret v))%arr;
   do magb <- eop1 asqrt (esq (ret bx) + esq (ret by_))%arr;
   ret [rho; magvel; e; magb])%comp.

End Dovis.

(** ** The timestep controller and the stage driver *)

(** The runtime parameters [self.rp] this file reads. *)
Record RuntimeParameters (T : Type) := mkRuntimeParameters {
  driver_cfl : T;                  (* driver.cfl *)
  driver_fix_dt : T;               (* driver.fix_dt *)
  mhd_temporal_method : string     (* mhd.temporal_method *)
}.

Arguments driver_cfl {T} _.
Arguments driver_fix_dt {T} _.
Arguments mhd_temporal_method {T} _.
Arguments mkRuntimeParameters {T} _ _ _.

(** The state objects [evolve] hands to its collaborators: the three of
    the simulation, and the three [rk.get_stage_start(s)] returns. *)
Inductive StateRef :=
| cc_data | fcx_data | fcy_data
| ytmp (s : Z) | fxtmp (s : Z) | fytmp (s : Z).

(** The calls [evolve] makes on its collaborators, as a log records them. *)
Inductive Call (T : Type) :=
| timer_begin
| timer_end
| RKIntegratorMHD (t dt : T) (method : string)
| set_start
| nstages
| get_stage_start (s : Z)
| fill_BC_all (o : StateRef)
| flx_timestep (y fx fy : StateRef) (dt : T)
| store_increment (s : Z)
| compute_final_update
| update_particles (dt : T).

Arguments timer_begin {T}.
Arguments timer_end {T}.
Arguments RKIntegratorMHD {T} _ _ _.
Arguments set_start {T}.
Arguments nstages {T}.
Arguments get_stage_start {T} _.
Arguments fill_BC_all {T} _.
Arguments flx_timestep {T} _ _ _ _.
Arguments store_increment {T} _.
Arguments compute_final_update {T}.
Arguments update_particles {T} _.

Section Driver.
Context {T : Type} `{Arith T}.

(** The collaborators.  [World] is the state they own: the arrays of the
    three state objects, the integrator with its stage states and stored
    increments, the particles.  Each call is a function of that state;
    none of them raises, and none touches the clock, [dt] or the step
    counter, which [evolve] alone updates. *)
Context {World Incr : Type}.

Record Collaborators := mkCollaborators {
  (* integration.RKIntegratorMHD(t, dt, method=method) *)
  rk_new : T → T → string → World → World;
  (* rk.set_start((myd, self.fcx_data, self.fcy_data)) *)
  rk_set_start : World → World;
  (* rk.nstages() *)
  rk_nstages : World → Z;
  (* rk.get_stage_start(s) *)
  rk_get_stage_start : Z → World → World;
  (* o.fill_BC_all() *)
  bc_fill : StateRef → World → World;
  (* flx.timestep(cc_data, fcx_data, fcy_data, rp, ivars, solid, tc, dt) *)
  flx_step : StateRef → StateRef → StateRef → RuntimeParameters T → T → World → Incr * World;
  (* rk.store_increment(s, k, kx, ky) *)
  rk_store_increment : Z → Incr → World → World;
  (* rk.compute_final_update() *)
  rk_compute_final_update : World → World;
  (* self.particles.update_particles(dt) *)
  particles_update : T → World → World;
  (* self.cc_data.get_var("velocity") *)
  get_velocity : World → Field T * Field T;
  (* self.cc_data.get_var(["x-magnetosonic", "y-magnetosonic"]) *)
  get_magnetosonic : World → Field T * Field T;
  (* self.cc_data.grid *)
  get_grid : World → Grid2d T
}.

Context (ext : Collaborators).

(** The simulation object. *)
Record Simulation := mkSimulation {
  rp : RuntimeParameters T;     (* self.rp *)
  t : T;                        (* self.cc_data.t *)
  dt : T;                       (* self.dt *)
  n : Z;                        (* self.n *)
  particles : bool;             (* self.particles is not None *)
  world : World;                (* what the collaborators own *)
  calls : list (Call T)         (* the calls made so far, oldest first *)
}.

Definition set_world (w : World) (sim : Simulation) : Simulation :=
  mkSimulation (rp sim) (t sim) (dt sim) (n sim) (particles sim) w (calls sim).

Definition set_dt (x : T) (sim : Simulation) : Simulation :=
  mkSimulation (rp sim) (t sim) x (n sim) (particles sim) (world sim) (calls sim).

Definition set_t (x : T) (sim : Simulation) : Simulation :=
  mkSimulation (rp sim) x (dt sim) (n sim) (particles sim) (world sim) (calls sim).

Definition set_n (x : Z) (sim : Simulation) : Simulation :=
  mkSimulation (rp sim) (t sim) (dt sim) x (particles sim) (world sim) (calls sim).

Definition log (c : Call T) (sim : Simulation) : Simulation :=
  mkSimulation (rp sim) (t sim) (dt sim) (n sim) (particles sim) (world sim)
               (calls sim ++ [c]).

(** Reading an attribute of [self]. *)
Definition get {A} (f : Simulation → A) : Comp Simulation A :=
  λ sim, Some (f sim, sim).

(** A call that changes the collaborators' state. *)
Definition call (c : Call T) (f : World → World) : Comp Simulation unit :=
  λ sim, Some (tt, set_world (f (world sim)) (log c sim)).

(** A call that returns a value. *)
Definition call_ret {A} (c : Call T) (f : World → A * World) : Comp Simulation A :=
  λ sim, let '(a, w) := f (world sim) in Some (a, set_world w (log c sim)).

(** [Simulation.method_compute_timestep(self)] *)
Definition method_compute_timestep : Comp Simulation unit :=
  (do cfl <- get (λ sim, driver_cfl (rp sim));
   do fix_dt <- get (λ sim, driver_fix_dt (rp sim));
   do uv <- get (λ sim, get_velocity ext (world sim));
   do Cf <- get (λ sim, get_magnetosonic ext (world sim));
   do grid <- get (λ sim, get_grid ext (world sim));
   let '(u, v) := uv in
   let '(Cfx, Cfy) := Cf in
   do ax <- lift (fmap2 aadd (fmap1 aabs u) Cfx);
   let xtmp := fmap1 (adiv (dx grid)) ax in
   do ay <- lift (fmap2 aadd (fmap1 aabs v) Cfy);
   let ytmp := fmap1 (adiv (dy grid)) ay in
   do xmin <- lift (fmin xtmp);
   do ymin <- lift (fmin ytmp);
   λ sim, Some (tt, set_dt (amul cfl (py_min3 xmin ymin fix_dt)) sim))%comp.

(** [Simulation.substep(self, cc_data, fcx_data, fcy_data)] *)
Definition substep (y fx fy : StateRef) : Comp Simulation Incr :=
  (do params <- get rp;
   do dt0 <- get dt;
   call_ret (flx_timestep y fx fy dt0) (flx_step ext y fx fy params dt0))%comp.

(** [Simulation.evolve(self)] *)
Definition evolve : Comp Simulation unit :=
  (call timer_begin (λ w, w) ;;
   do t0 <- get t;
   do dt0 <- get dt;
   do method <- get (λ sim, mhd_temporal_method (rp sim));
   call (RKIntegratorMHD t0 dt0 method) (rk_new ext t0 dt0 method) ;;
   call set_start (rk_set_start ext) ;;
   do ns <- call_ret nstages (λ w, (rk_nstages ext w, w));
   for_each (range 0 ns)
     (λ s,
        call (get_stage_start s) (rk_get_stage_start ext s) ;;
        call (fill_BC_all (ytmp s)) (bc_fill ext (ytmp s)) ;;
        call (fill_BC_all (fxtmp s)) (bc_fill ext (fxtmp s)) ;;
        call (fill_BC_all (fytmp s)) (bc_fill ext (fytmp s)) ;;
        do k <- substep (ytmp s) (fxtmp s) (fytmp s);
        call (store_increment s) (rk_store_increment ext s k)) ;;
   call compute_final_update (rk_compute_final_update ext) ;;
   do has_particles <- get particles;
   (if has_particles
    then do dt1 <- get dt; call (update_particles dt1) (particles_update ext dt1)
    else ret tt) ;;
   call (fill_BC_all cc_data) (bc_fill ext cc_data) ;;
   call (fill_BC_all fcx_data) (bc_fill ext fcx_data) ;;
   call (fill_BC_all fcy_data) (bc_fill ext fcy_data) ;;
   method_compute_timestep ;;
   (λ sim, Some (tt, set_t (aadd (t sim) (dt sim)) sim)) ;;
   (λ sim, Some (tt, set_n (n sim + 1)%Z sim)) ;;
   call timer_end (λ w, w))%comp.

(** The calls of stage [s], in the order [evolve] makes them. *)
Definition stage_calls (dt0 : T) (s : Z) : list (Call T) :=
  [ get_stage_start s;
    fill_BC_all (ytmp s); fill_BC_all (fxtmp s); fill_BC_all (fytmp s);
    flx_timestep (ytmp s) (fxtmp s) (fytmp s) dt0;
    store_increment s ].

(** The calls of [evolve] before its loop, and the number of stages the
    integrator it has set up reports. *)
Definition calls_before_stages (sim : Simulation) : list (Call T) :=
  [ timer_begin;
    RKIntegratorMHD (t sim) (dt sim) (mhd_temporal_method (rp sim));
    set_start;
    nstages ].

Definition stages_of (sim : Simulation) : Z :=
  rk_nstages ext
    (rk_set_start ext
       (rk_new ext (t sim) (dt sim) (mhd_temporal_method (rp sim)) (world sim))).

(** What stage [s] does to the collaborators' state: the stage states
    are set up, their ghost cells filled, the increment computed from
    them, and that increment stored under [s]. *)
Definition stage_world (params : RuntimeParameters T) (dt0 : T) (s : Z) (w : World) : World :=
  let w1 := rk_get_stage_start ext s w in
  let w2 := bc_fill ext (ytmp s) w1 in
  let w3 := bc_fill ext (fxtmp s) w2 in
  let w4 := bc_fill ext (fytmp s) w3 in
  let '(k, w5) := flx_step ext (ytmp s) (fxtmp s) (fytmp s) params dt0 w4 in
  rk_store_increment ext s k w5.

(** The collaborators' state when [evolve] computes the new timestep. *)
Definition world_before_timestep (sim : Simulation) : World :=
  let w0 := rk_set_start ext
              (rk_new ext (t sim) (dt sim) (mhd_temporal_method (rp sim)) (world sim)) in
  let w1 := fold_left (λ w s, stage_world (rp sim) (dt sim) s w)
                      (range 0 (rk_nstages ext w0)) w0 in
  let w2 := rk_compute_final_update ext w1 in
  let w3 := if particles sim then particles_update ext (dt sim) w2 else w2 in
  bc_fill ext fcy_data (bc_fill ext fcx_data (bc_fill ext cc_data w3)).

(** The calls of [evolve] between [compute_final_update] and the new
    timestep. *)
Definition calls_after_update (sim : Simulation) : list (Call T) :=
  (if particles sim then [update_particles (dt sim)] else [])
  ++ [fill_BC_all cc_data; fill_BC_all fcx_data; fill_BC_all fcy_data].

(** [sim'] is [sim] after the calls [cs] on the collaborators: the
    simulation's own attributes are as before. *)
Definition after_calls (sim : Simulation) (cs : list (Call T)) (sim' : Simulation) : Prop :=
  rp sim' = rp sim ∧ t sim' = t sim ∧ dt sim' = dt sim ∧ n sim' = n sim
  ∧ particles sim' = particles sim ∧ calls sim' = calls sim ++ cs.

(** [sim'] is [sim] but for the attribute [dt]. *)
Definition same_except_dt (sim sim' : Simulation) : Prop :=
  rp sim' = rp sim ∧ t sim' = t sim ∧ n sim' = n sim
  ∧ particles sim' = particles sim ∧ world sim' = world sim
  ∧ calls sim' = calls sim.

(** The same simulation under another CFL number. *)
Definition set_cfl (c : T) (sim : Simulation) : Simulation :=
  mkSimulation
    (mkRuntimeParameters c (driver_fix_dt (rp sim)) (mhd_temporal_method (rp sim)))
    (t sim) (dt sim) (n sim) (particles sim) (world sim) (calls sim).

End Driver.

Arguments Collaborators : clear implicits.
Arguments Simulation : clear implicits.

(** The number of calls of a kind in a log. *)
Definition count_calls {T} (kind : Call T → bool) (cs : list (Call T)) : nat :=
  length (List.filter kind cs).

Definition is_fill_BC_all {T} (c : Call T) : bool :=
  match c with fill_BC_all _ => true | _ => false end.

Definition is_flx_timestep {T} (c : Call T) : bool :=
  match c with flx_timestep _ _ _ _ => true | _ => false end.

Definition is_store_increment {T} (c : Call T) : bool :=
  match c with store_increment _ => true | _ => false end.

Definition is_compute_final_update {T} (c : Call T) : bool :=
  match c with compute_final_update => true | _ => false end.

(** ** What a run of a statement is, and what it can change *)

Section Judgements.
Context {T : Type}.

(** An expression evaluates to [F] in the store [h], which it leaves as
    it is. *)
Definition evals (h : gmap loc (Array T)) (e : M T (Field T)) (F : Field T) : Prop :=
  e h = Some (F, h).

(** An expression reads the store and leaves it unchanged. *)
Definition reads_only {X} (m : M T X) : Prop :=
  ∀ h x h', m h = Some (x, h') → h' = h.

(** A statement changes no object other than [l]. *)
Definition writes_only (l : loc) {X} (m : M T X) : Prop :=
  ∀ h x h', m h = Some (x, h') → ∀ l', l' ≠ l → h' !! l' = h !! l'.

End Judgements.

(** The object at [l] is an array with [m] slots along its last axis. *)
Definition has_slots {T} (h : gmap loc (Array T)) (l : loc) (m : nat) : Prop :=
  ∃ A, h !! l = Some A ∧ anvar A = m.

(** ** The converter, cell by cell *)

Section Cells.
Context {T : Type} `{Arith T} `{Eos T}.

(** What [prim_to_cons] leaves in slot [k] of a cell whose primitive
    entries are [q], for the index map [Simulation.initialize] builds
    (lemma [prim_to_cons_cells]). *)
Definition prim_to_cons_cell (gamma : T) (q : nat → T) (k : nat) : T :=
  match k with
  | 0 => amaximum (q 0) asmall
  | 1 => amul (q 1) (amaximum (q 0) asmall)
  | 2 => amul (q 2) (amaximum (q 0) asmall)
  | 3 => aadd (aadd (rhoe gamma (amaximum asmall (q 3)))
                    (amul (amul ahalf (q 0))
                          (aadd (amul (q 1) (q 1)) (amul (q 2) (q 2)))))
              (amul ahalf (aadd (amul (q 4) (q 4)) (amul (q 5) (q 5))))
  | 4 => q 4
  | 5 => q 5
  | _ => amul (q k) (q 0)
  end%nat.

(** The density [cons_to_prim] divides by: [U]'s density is floored in
    place, and floored again on the way into [q]. *)
Definition floored_density (u : nat → T) : T :=
  amaximum (amaximum (u 0) asmall) asmall.

(** The specific internal energy [e] of [cons_to_prim]. *)
Definition eint_cell (u : nat → T) : T :=
  let rho := floored_density u in
  let vx := adiv (u 1) rho in
  let vy := adiv (u 2) rho in
  adiv (asub (asub (u 3)
                   (amul (amul ahalf rho) (aadd (amul vx vx) (amul vy vy))))
             (amul ahalf (aadd (amul (u 4) (u 4)) (amul (u 5) (u 5)))))
       rho.

(** What [cons_to_prim] leaves in slot [k] of a cell whose conserved
    entries are [u], for the same index map (lemma [cons_to_prim_cells]). *)
Definition cons_to_prim_cell (gamma : T) (u : nat → T) (k : nat) : T :=
  match k with
  | 0 => floored_density u
  | 1 => adiv (u 1) (floored_density u)
  | 2 => adiv (u 2) (floored_density u)
  | 3 => amaximum asmall (pres gamma (floored_density u) (eint_cell u))
  | 4 => u 4
  | 5 => u 5
  | _ => adiv (u k) (floored_density u)
  end%nat.

(** The array [cons_to_prim] leaves behind in place of [U]. *)
Definition floored_cell (u : nat → T) (k : nat) : T :=
  match k with
  | 0%nat => amaximum (u 0%nat) asmall
  | _ => u k
  end.

End Cells.

(** The index map of a simulation with [n] passive scalars. *)
Definition standard_ivars (n : nat) : Variables :=
  let nvar := Z.of_nat (6 + n) in
  let naux := (nvar - 6)%Z in
  {| nvar := nvar;
     idens := 0; ixmom := 1; iymom := 2; iener := 3; ixmag := 4; iymag := 5;
     naux := naux;
     irhox := if (0 <? naux)%Z then 6%Z else (-1)%Z;
     nq := (6 + naux)%Z;
     irho := 0; iu := 1; iv := 2; ip := 3; ibx := 4; iby := 5;
     ix := if (0 <? naux)%Z then 6%Z else (-1)%Z |}.

(** ** Hypotheses of the round trip *)

(** [eos.pres] and [eos.rhoe] are consistent inverses away from the
    floors. *)
Definition eos_consistent (E : Eos R) (gamma : R) : Prop :=
  ∀ dens p : R, (1e-10 < dens)%R → (1e-10 < p)%R →
                pres gamma dens (rhoe gamma p / dens)%R = p.

Definition valid_prim (Q : Array R) : Prop :=
  ∀ i j, (i < anx Q)%nat → (j < any Q)%nat →
         (1e-10 < adata Q i j 0%nat)%R ∧ (1e-10 < adata Q i j 3%nat)%R.

(** [eos.rhoe] undoes [eos.pres] away from the floors. *)
Definition eos_energy_consistent (E : Eos R) (gamma : R) : Prop :=
  ∀ dens eint : R, (1e-10 < dens)%R → (1e-10 < pres gamma dens eint)%R →
                   rhoe gamma (pres gamma dens eint) = (dens * eint)%R.

(** A conserved state away from the floors: the density, and the
    pressure the equation of state gives, are above [1e-10] in every
    cell. *)
Definition valid_cons (E : Eos R) (gamma : R) (U : Array R) : Prop :=
  ∀ i j, (i < anx U)%nat → (j < any U)%nat →
         (1e-10 < adata U i j 0%nat)%R
         ∧ (1e-10 < pres gamma (adata U i j 0%nat) (eint_cell (adata U i j)))%R.


(** ** Reading results *)

(** The entry [A[i, j, k]] for a slot index [k >= 0] of the index map. *)
Definition entry {T} (A : Array T) (i j : nat) (k : Z) : T :=
  adata A i j (Z.to_nat k).

(** The array a converter returns, read back from the store. *)
Definition returned {T} (m : M T loc) (h : gmap loc (Array T)) : option (Array T) :=
  match m h with
  | Some (l, h') => h' !! l
  | None => None
  end.

(** ** The minimum over all cells, as the specification words it *)

(** [m] is the minimum over the whole domain of the cell values [f i j]:
    no cell is below it, and some cell attains it. *)
Definition min_over_cells (nx ny : nat) (f : nat → nat → R) (m : R) : Prop :=
  (∀ i j, (i < nx)%nat → (j < ny)%nat → (m <= f i j)%R)
  ∧ ∃ i j, (i < nx)%nat ∧ (j < ny)%nat ∧ m = f i j.

(** The fields [method_compute_timestep] reads are arrays over the grid:
    the speeds have the shape of the velocities, and there are cells. *)
Definition fields_on_grid (u v Cfx Cfy : Field R) : Prop :=
  same_shape u Cfx = true ∧ same_shape v Cfy = true
  ∧ (0 < fnx u)%nat ∧ (0 < fny u)%nat ∧ (0 < fnx v)%nat ∧ (0 < fny v)%nat.

(** No cell divides by zero: the signal speeds [|u| + Cfx] and
    [|v| + Cfy] are nonzero everywhere.  (The specification assumes the
    fast speed to be above a strictly positive floor.)  Where both are
    zero, binary64 gives [dx / 0 = inf], which the reals do not
    model. *)
Definition speeds_nonzero (u v Cfx Cfy : Field R) : Prop :=
  (∀ i j, (i < fnx u)%nat → (j < fny u)%nat →
          (Rabs (fdata u i j) + fdata Cfx i j ≠ 0)%R)
  ∧ (∀ i j, (i < fnx v)%nat → (j < fny v)%nat →
            (Rabs (fdata v i j) + fdata Cfy i j ≠ 0)%R).

(** ** Concrete inputs *)

(** A field with the same value in every cell. *)
Definition const_field {T} (nx ny : nat) (x : T) : Field T :=
  mkField nx ny (λ _ _, x).

(** Collaborators at rest: a fluid of uniform velocity [(u, v)] and
    uniform fast speeds [(Cfx, Cfy)] on an [nx] by [ny] grid, an
    integrator of [stages] stages, and calls that change nothing. *)
Definition at_rest {T} (grid : Grid2d T) (u v Cfx Cfy : T) (stages : Z) :
  Collaborators T unit unit :=
  {| rk_new := λ _ _ _ w, w;
     rk_set_start := λ w, w;
     rk_nstages := λ _, stages;
     rk_get_stage_start := λ _ w, w;
     bc_fill := λ _ w, w;
     flx_step := λ _ _ _ _ _ w, (tt, w);
     rk_store_increment := λ _ _ w, w;
     rk_compute_final_update := λ w, w;
     particles_update := λ _ w, w;
     get_velocity := λ _, (const_field (qx grid) (qy grid) u,
                           const_field (qx grid) (qy grid) v);
     get_magnetosonic := λ _, (const_field (qx grid) (qy grid) Cfx,
                               const_field (qx grid) (qy grid) Cfy);
     get_grid := λ _, grid |}.

(** The same collaborators over given velocity and fast-speed arrays. *)
Definition still_fields {T} (grid : Grid2d T) (u v Cfx Cfy : Field T) (stages : Z) :
  Collaborators T unit unit :=
  {| rk_new := λ _ _ _ w, w;
     rk_set_start := λ w, w;
     rk_nstages := λ _, stages;
     rk_get_stage_start := λ _ w, w;
     bc_fill := λ _ w, w;
     flx_step := λ _ _ _ _ _ w, (tt, w);
     rk_store_increment := λ _ _ w, w;
     rk_compute_final_update := λ w, w;
     particles_update := λ _ w, w;
     get_velocity := λ _, (u, v);
     get_magnetosonic := λ _, (Cfx, Cfy);
     get_grid := λ _, grid |}.

(** A simulation at [t = 0], step [0], with timestep [dt0]. *)
Definition fresh_sim {T} `{Arith T} (cfl fix_dt dt0 : T) : Simulation T unit :=
  mkSimulation (mkRuntimeParameters cfl fix_dt "RK2") azero dt0 0%Z true tt [].


(** A store with one array object, at location 1. *)
Definition store1 {T} (A : Array T) : gmap loc (Array T) := <[1%positive := A]> ∅.

Definition grid_1x1_R : Grid2d R := mkGrid2d 1 1 1%R 1%R.
Definition grid_1x1_F : Grid2d float := mkGrid2d 1 1 1%float 1%float.

(** The uniform state [rho = 1, u = v = 0, p = 1, Bx = By = 0]. *)
Definition uniform_q_R : Array R :=
  mkArray 1 1 6 (λ _ _ k, match k with 0%nat | 3%nat => 1%R | _ => 0%R end).

(** A primitive state with zero density and one passive scalar [X = 1]. *)
Definition vacuum_q_R : Array R :=
  mkArray 1 1 7 (λ _ _ k, match k with 3%nat | 6%nat => 1%R | _ => 0%R end).

(** Conserved states in binary64: a NaN density; and density [1e-15]
    under a large but finite energy. *)
Definition nan_U_F : Array float :=
  mkArray 1 1 6 (λ _ _ k, match k with 0%nat => nan | 3%nat => 1 | _ => 0 end)%float.

Definition tiny_U_F : Array float :=
  mkArray 1 1 6 (λ _ _ k, match k with 0%nat => 1e-15 | 3%nat => 1e300 | _ => 0 end)%float.

(** A conserved state in exact arithmetic with density [1e-15]. *)
Definition tiny_U_R : Array R :=
  mkArray 1 1 6 (λ _ _ k, match k with 0%nat => 1e-15%R | 3%nat => 1%R | _ => 0%R end).

(** A fluid at rest with unit fast speeds on one cell of size 1, in
    exact arithmetic. *)
Definition rest_R : Collaborators R unit unit :=
  at_rest (mkGrid2d 1 1 1%R 1%R) 0%R 0%R 1%R 1%R 2.

(** The same fluid in binary64, on one cell of size 0.1, under a
    two-stage integrator; and a simulation that enters [evolve] with
    [dt = 0.1], CFL number 0.5 and [fix_dt = 1]. *)
Definition rest_F : Collaborators float unit unit :=
  at_rest (mkGrid2d 1 1 0.1%float 0.1%float) 0%float 0%float 1%float 1%float 2.

Definition sim_F : Simulation float unit :=
  fresh_sim 0.5%float 1%float 0.1%float.

(** The names of a file in which a tracer was registered first, and the
    index map [Variables] builds from them. *)
Definition tracer_first : list string :=
  "tracer"%string :: mandatory.

Definition tracer_first_ivars : Variables :=
  {| nvar := 7;
     idens := 1; ixmom := 2; iymom := 3; iener := 4; ixmag := 5; iymag := 6;
     naux := 1; irhox := 6; nq := 7;
     irho := 0; iu := 1; iv := 2; ip := 3; ibx := 4; iby := 5;
     ix := 6 |}.

(** The uniform state [rho = 1, u = v = 0, p = 1, Bx = By = 0] in
    conserved variables, for [gamma = 1.4]: the energy is [1 / 0.4]. *)
Definition uniform_U_R : Array R :=
  mkArray 1 1 6 (λ _ _ k, match k with 0%nat => 1%R | 3%nat => 2.5%R | _ => 0%R end).

(** A fluid on a grid without cells, in binary64. *)
Definition rest_empty_F : Collaborators float unit unit :=
  at_rest (mkGrid2d 0 0 0.1%float 0.1%float) 0%float 0%float 1%float 1%float 2.

(** Two cells of size 0.4 side by side in [x]: the fluid is at rest in
    the first and moves with [u = 1] in the second; unit fast speeds.
    The bounds [dx / (|u| + Cfx)] are [0.4] and [0.2]. *)
Definition shear_u_R : Field R :=
  mkField 2 1 (λ i _, match i with 0%nat => 0%R | _ => 1%R end).

Definition shear_R : Collaborators R unit unit :=
  still_fields (mkGrid2d 2 1 0.4%R 0.4%R)
               shear_u_R (const_field 2 1 0%R)
               (const_field 2 1 1%R) (const_field 2 1 1%R) 2.

(** A fluid at rest with zero fast speeds, in binary64, on one cell of
    size 1: every bound is [1 / 0]. *)
Definition zero_speeds_F : Collaborators float unit unit :=
  at_rest (mkGrid2d 1 1 1%float 1%float) 0%float 0%float 0%float 0%float 2.

(** ** Running computations *)

Section CompFacts.
Context {S : Type}.

Lemma bind_run {X Y} (m : Comp S X) (f : X → Comp S Y) s x s' :
  m s = Some (x, s') → bind m f s = f x s'.
Proof. unfold bind; intros ->; reflexivity. Qed.

Lemma bind_inv {X Y} (m : Comp S X) (f : X → Comp S Y) s y s'' :
  bind m f s = Some (y, s'') →
  ∃ x s', m s = Some (x, s') ∧ f x s' = Some (y, s'').
Proof. unfold bind; destruct (m s) as [[x s']|]; [eauto | discriminate]. Qed.

End CompFacts.

(** ** Running statements *)

Section Running.
Context {T : Type} `{Arith T}.
Implicit Types (h : gmap loc (Array T)) (l : loc) (A : Array T) (F G : Field T).
Implicit Types (e : M T (Field T)).

Lemma norm_index_nonneg (n : nat) (k : Z) :
  (0 ≤ k < Z.of_nat n)%Z → norm_index n k = Some (Z.to_nat k).
Proof.
  intros [Hk0 Hkn]; unfold norm_index.
  apply Z.leb_le in Hk0; apply Z.ltb_lt in Hkn.
  rewrite Hk0, Hkn; reflexivity.
Qed.

Lemma norm_index_of_nat (n k : nat) :
  (k < n)%nat → norm_index n (Z.of_nat k) = Some k.
Proof.
  intros Hk; rewrite norm_index_nonneg by lia.
  rewrite Nat2Z.id; reflexivity.
Qed.

Lemma norm_index_lt (n : nat) (k : Z) (i : nat) :
  norm_index n k = Some i → (i < n)%nat.
Proof.
  unfold norm_index.
  destruct ((0 <=? k) && (k <? Z.of_nat n))%Z eqn:E1.
  - apply andb_true_iff in E1 as [E1 E2].
    apply Z.leb_le in E1; apply Z.ltb_lt in E2.
    intros [= <-]; lia.
  - destruct ((- Z.of_nat n <=? k) && (k <? 0))%Z eqn:E2; [|discriminate].
    apply andb_true_iff in E2 as [E2 E3].
    apply Z.leb_le in E2; apply Z.ltb_lt in E3.
    intros [= <-]; lia.
Qed.

Lemma evals_ret h F : evals h (ret F) F.
Proof. reflexivity. Qed.

Lemma evals_slice h l A k i :
  h !! l = Some A → norm_index (anvar A) k = Some i →
  evals h (slice l k) (slot A i).
Proof.
  intros Hl Hi; unfold evals, slice, bind, load.
  rewrite Hl, Hi; reflexivity.
Qed.

Lemma evals_eop1 h f e F :
  evals h e F → evals h (eop1 f e) (fmap1 f F).
Proof. unfold evals, eop1, bind; intros ->; reflexivity. Qed.

Lemma evals_eop2 h f e1 e2 F G :
  evals h e1 F → evals h e2 G →
  fnx F = fnx G → fny F = fny G →
  evals h (eop2 f e1 e2)
        (mkField (fnx F) (fny F) (λ i j, f (fdata F i j) (fdata G i j))).
Proof.
  unfold evals, eop2, bind, fmap2, same_shape; intros -> -> -> ->.
  rewrite !Nat.eqb_refl; reflexivity.
Qed.

Lemma assign_run h l A k i e F :
  evals h e F →
  h !! l = Some A → norm_index (anvar A) k = Some i →
  fnx F = anx A → fny F = any A →
  assign l k e h = Some (tt, <[l := set_slot A i F]> h).
Proof.
  unfold evals, assign, bind, load, store; intros -> -> -> -> ->.
  simpl; rewrite !Nat.eqb_refl; reflexivity.
Qed.

(** *** What a statement can change *)

Lemma reads_only_ret {X} (x : X) : reads_only (T:=T) (ret x).
Proof. intros h x' h' [= _ <-]; reflexivity. Qed.

Lemma reads_only_lift {X} (o : option X) : reads_only (T:=T) (lift o).
Proof. destruct o; intros h x' h'; [intros [= _ <-]; reflexivity | discriminate]. Qed.

Lemma reads_only_bind {X Y} (m : M T X) (f : X → M T Y) :
  reads_only m → (∀ x, reads_only (T:=T) (f x)) → reads_only (T:=T) (bind m f).
Proof.
  intros Hm Hf h y h'' Hrun.
  apply bind_inv in Hrun as (x & h' & H1 & H2).
  apply Hm in H1; subst h'. eapply Hf; eassumption.
Qed.

Lemma reads_only_load l : reads_only (T:=T) (load l).
Proof.
  intros h x h'; unfold load.
  destruct (h !! l); [intros [= _ <-]; reflexivity | discriminate].
Qed.

Lemma reads_only_slice l k : reads_only (T:=T) (slice l k).
Proof.
  apply reads_only_bind; [apply reads_only_load | intros A].
  apply reads_only_bind; [apply reads_only_lift | intros i; apply reads_only_ret].
Qed.

Lemma reads_only_eop1 f e : reads_only e → reads_only (T:=T) (eop1 f e).
Proof.
  intros He; apply reads_only_bind; [exact He | intros F; apply reads_only_ret].
Qed.

Lemma reads_only_eop2 f e1 e2 :
  reads_only e1 → reads_only e2 → reads_only (T:=T) (eop2 f e1 e2).
Proof.
  intros H1 H2; apply reads_only_bind; [exact H1 | intros F].
  apply reads_only_bind; [exact H2 | intros G; apply reads_only_lift].
Qed.

Lemma writes_only_reads l {X} (m : M T X) : reads_only m → writes_only l m.
Proof. intros Hm h x h' Hrun l' _; apply Hm in Hrun; subst; reflexivity. Qed.

Lemma writes_only_bind l {X Y} (m : M T X) (f : X → M T Y) :
  writes_only l m → (∀ x, writes_only (T:=T) l (f x)) → writes_only (T:=T) l (bind m f).
Proof.
  intros Hm Hf h y h'' Hrun l' Hl'.
  apply bind_inv in Hrun as (x & h' & H1 & H2).
  rewrite (Hf _ _ _ _ H2 l' Hl'); eapply Hm; eassumption.
Qed.

Lemma writes_only_assign l k e : reads_only e → writes_only (T:=T) l (assign l k e).
Proof.
  intros He h x h'' Hrun l' Hl'; unfold assign in Hrun.
  apply bind_inv in Hrun as (F & h1 & H1 & Hrun); apply He in H1; subst h1.
  apply bind_inv in Hrun as (A & h1 & H1 & Hrun); apply reads_only_load in H1; subst h1.
  apply bind_inv in Hrun as (i & h1 & H1 & Hrun); apply reads_only_lift in H1; subst h1.
  destruct (_ && _); [|discriminate].
  unfold store in Hrun; injection Hrun as _ <-.
  apply lookup_insert_ne; congruence.
Qed.

Lemma writes_only_for_each l {X} (xs : list X) (body : X → M T unit) :
  (∀ x, writes_only (T:=T) l (body x)) → writes_only (T:=T) l (for_each xs body).
Proof.
  intros Hb; induction xs as [|x xs IH]; simpl.
  - apply writes_only_reads, reads_only_ret.
  - apply writes_only_bind; [apply Hb | intros _; exact IH].
Qed.

End Running.

Create HintDb frame.

#[global] Hint Resolve reads_only_ret reads_only_lift reads_only_load
  reads_only_slice reads_only_eop1 reads_only_eop2 : frame.
#[global] Hint Resolve writes_only_assign writes_only_for_each : frame.

(** ** The registry of a simulation *)

Lemma Variables_init_standard (extras : list string) :
  Variables_init (mandatory ++ extras) = Some (standard_ivars (length extras)).
Proof. reflexivity. Qed.

Lemma range_seq (s m : nat) :
  range (Z.of_nat s) (Z.of_nat s + Z.of_nat m) = map Z.of_nat (seq s m).
Proof.
  unfold range.
  replace (Z.of_nat s + Z.of_nat m - Z.of_nat s)%Z with (Z.of_nat m) by lia.
  rewrite Nat2Z.id.
  enough (Hgen : ∀ a, map (λ i, (Z.of_nat s + Z.of_nat i)%Z) (seq a m)
                      = map Z.of_nat (seq (s + a) m)).
  { rewrite Hgen, Nat.add_0_r; reflexivity. }
  induction m as [|m IH]; intros a; simpl; [reflexivity|].
  f_equal; [lia|].
  rewrite IH, Nat.add_succ_r; reflexivity.
Qed.

Ltac cmp_cases :=
  repeat match goal with
         | |- context [(?a <=? ?b)%nat] => destruct (Nat.leb_spec a b)
         | |- context [(?a <? ?b)%nat] => destruct (Nat.ltb_spec a b)
         | |- context [Nat.eqb ?a ?b] => destruct (Nat.eqb_spec a b)
         end;
  cbn [andb]; first [reflexivity | exfalso; lia | subst; reflexivity].

(** ** The converter on the index map of a simulation *)

Section ConverterCells.
Context {T : Type} {HA : Arith T} {HE : Eos T}.

Lemma p2c_loop (lq lU : loc) (Q : Array T) (m : nat) :
  ∀ (s : nat) (h : gmap loc (Array T)) (AU : Array T),
  lU ≠ lq →
  h !! lq = Some Q → h !! lU = Some AU →
  anx AU = anx Q → any AU = any Q →
  (0 < anvar Q)%nat → (s + m ≤ anvar Q)%nat → (s + m ≤ anvar AU)%nat →
  ∃ AU',
    for_each (combine (map Z.of_nat (seq s m)) (map Z.of_nat (seq s m)))
             (λ '(nq, nu), assign lU nu (slice lq nq * slice lq 0%Z)%arr) h
    = Some (tt, <[lU := AU']> h)
    ∧ anx AU' = anx AU ∧ any AU' = any AU ∧ anvar AU' = anvar AU
    ∧ ∀ i j k, adata AU' i j k =
               if (s <=? k)%nat && (k <? s + m)%nat
               then amul (adata Q i j k) (adata Q i j 0%nat)
               else adata AU i j k.
Proof.
  induction m as [|m IH]; intros s h AU Hne Hq HU Hx Hy Hpos Hsq HsU.
  - exists AU; simpl. rewrite insert_id by exact HU.
    repeat split; intros i j k. cmp_cases.
  - simpl.
    erewrite bind_run; cycle 1.
    { eapply assign_run; [ | exact HU | apply norm_index_of_nat; lia | | ].
      - eapply evals_eop2; [eapply evals_slice; [exact Hq | apply norm_index_of_nat; lia]
                           |eapply evals_slice; [exact Hq | apply (norm_index_of_nat _ 0); lia]
                           | reflexivity | reflexivity ].
      - simpl; congruence.
      - simpl; congruence. }
    match goal with
    | |- context [for_each _ _ (<[lU := ?A1]> h)] =>
        destruct (IH (S s) (<[lU := A1]> h) A1) as (AU' & Hrun & Hx' & Hy' & Hv' & Hd')
    end;
      [exact Hne | rewrite lookup_insert_ne by congruence; exact Hq
      | apply lookup_insert_eq | simpl; exact Hx | simpl; exact Hy | exact Hpos
      | lia | simpl; lia | ].
    exists AU'. rewrite Hrun, insert_insert_eq.
    simpl in Hx', Hy', Hv'.
    split; [reflexivity|]. split; [exact Hx'|]. split; [exact Hy'|]. split; [exact Hv'|].
    intros i j k; rewrite Hd'; cbn [adata set_slot fdata slot]. cmp_cases.
Qed.

Lemma naux_standard (n : nat) : naux (standard_ivars n) = Z.of_nat n.
Proof. unfold standard_ivars; cbn [naux]; lia. Qed.

Lemma ix_standard (n : nat) : ix (standard_ivars (S n)) = Z.of_nat 6.
Proof.
  unfold standard_ivars; cbn [ix].
  destruct (Z.ltb_spec 0 (Z.of_nat (6 + S n) - 6)); [reflexivity | lia].
Qed.

Lemma irhox_standard (n : nat) : irhox (standard_ivars (S n)) = Z.of_nat 6.
Proof.
  unfold standard_ivars; cbn [irhox].
  destruct (Z.ltb_spec 0 (Z.of_nat (6 + S n) - 6)); [reflexivity | lia].
Qed.

Lemma nvar_standard (n : nat) : nvar (standard_ivars n) = Z.of_nat (6 + n).
Proof. reflexivity. Qed.

Lemma nq_standard (n : nat) : nq (standard_ivars n) = Z.of_nat (6 + n).
Proof. unfold standard_ivars; cbn [nq]; lia. Qed.

Lemma scratch_array_run (myg : Grid2d T) (n : nat) (h : gmap loc (Array T)) :
  scratch_array myg (Z.of_nat n) h
  = Some (fresh (dom h),
          <[fresh (dom h) := mkArray (qx myg) (qy myg) n (λ _ _ _, azero)]> h).
Proof.
  unfold scratch_array.
  destruct (Z.ltb_spec (Z.of_nat n) 0) as [Hneg|_]; [lia|].
  unfold alloc; rewrite Nat2Z.id; reflexivity.
Qed.

Lemma fresh_loc_ne (h : gmap loc (Array T)) (l : loc) (A : Array T) :
  h !! l = Some A → fresh (dom h) ≠ l.
Proof.
  intros Hl Heq.
  apply (is_fresh (dom h)); rewrite Heq.
  apply elem_of_dom; eauto.
Qed.

Ltac solve_index :=
  apply norm_index_nonneg; cbn; lia.

Ltac solve_lookup :=
  first [ apply lookup_insert_eq
        | rewrite lookup_insert_ne by (first [assumption | congruence]);
          first [ eassumption | apply lookup_insert_eq ] ].

Ltac eval_expr :=
  unfold emaximum_r, emaximum_l, eos_pres, eos_rhoe, esq;
  repeat first
    [ apply evals_ret
    | eapply evals_eop1
    | eapply evals_eop2
    | eapply evals_slice; [solve_lookup | solve_index]
    | reflexivity ].

Ltac run_assign :=
  erewrite bind_run; cycle 1;
  [ eapply assign_run;
    [ eval_expr | solve_lookup | solve_index | reflexivity | reflexivity ]
  | rewrite insert_insert_eq ].

Lemma prim_to_cons_cells (lq : loc) (gamma : T) (n : nat) (myg : Grid2d T)
      (h : gmap loc (Array T)) (Q : Array T) :
  h !! lq = Some Q →
  anx Q = qx myg → any Q = qy myg → anvar Q = (6 + n)%nat →
  ∃ AU,
    prim_to_cons lq gamma (standard_ivars n) myg h
    = Some (fresh (dom h), <[fresh (dom h) := AU]> h)
    ∧ anx AU = qx myg ∧ any AU = qy myg ∧ anvar AU = (6 + n)%nat
    ∧ ∀ i j k, (k < 6 + n)%nat →
               adata AU i j k = prim_to_cons_cell gamma (adata Q i j) k.
Proof.
  intros Hq Hx Hy Hv.
  pose proof (fresh_loc_ne h lq Q Hq) as Hne.
  destruct Q as [nx0 ny0 nv0 d]; cbn in Hx, Hy, Hv; subst nx0 ny0 nv0.
  unfold prim_to_cons.
  rewrite nvar_standard.
  erewrite bind_run by apply scratch_array_run.
  set (lU := fresh (dom h)) in *.
  do 5 run_assign.
  erewrite bind_run; cycle 1; [eval_expr|].
  run_assign.
  rewrite naux_standard.
  match goal with
  | |- context [<[lU := ?A]> h] => set (AU6 := A)
  end.
  assert (Hcells6 : ∀ i j k, (k < 6)%nat →
            adata AU6 i j k = prim_to_cons_cell gamma (d i j) k).
  { intros i j k Hk.
    do 6 (destruct k as [|k]; [reflexivity|]); lia. }
  assert (Hshape6 : anx AU6 = qx myg ∧ any AU6 = qy myg ∧ anvar AU6 = (6 + n)%nat)
    by (repeat split; reflexivity).
  clearbody AU6.
  destruct Hshape6 as (Hx6 & Hy6 & Hv6).
  destruct n as [|n'].
  - exists AU6. 
    split; [reflexivity|]. repeat (split; [assumption|]).
    intros i j k Hk; apply Hcells6; lia.
  - change (0 <? Z.of_nat (S n'))%Z with true; cbv iota.
    rewrite ix_standard, irhox_standard, range_seq.
    change (irho (standard_ivars (S n'))) with 0%Z.
    destruct (p2c_loop lq lU (mkArray (qx myg) (qy myg) (6 + S n') d) (S n') 6
                       (<[lU := AU6]> h) AU6)
      as (AU & Hrun & Hx' & Hy' & Hv' & Hd');
      [ exact Hne | solve_lookup | solve_lookup | exact Hx6 | exact Hy6
      | cbn; lia | cbn; lia | lia | ].
    exists AU.
    erewrite bind_run by exact Hrun.
    rewrite insert_insert_eq.
    split; [reflexivity|].
    split; [congruence|]. split; [congruence|]. split; [congruence|].
    intros i j k Hk; rewrite Hd'.
    destruct (Nat.leb_spec 6 k) as [Hge|Hlt]; cbn [andb].
    + destruct (Nat.ltb_spec k (6 + S n')) as [_|Hbad]; [|lia].
      do 6 (destruct k as [|k]; [lia|]); reflexivity.
    + apply Hcells6; exact Hlt.
Qed.

Lemma c2p_loop (lq lU : loc) (AU : Array T) (m : nat) :
  ∀ (s : nat) (h : gmap loc (Array T)) (Aq : Array T),
  lU ≠ lq → (0 < s)%nat →
  h !! lU = Some AU → h !! lq = Some Aq →
  anx Aq = anx AU → any Aq = any AU →
  (s + m ≤ anvar AU)%nat → (s + m ≤ anvar Aq)%nat →
  ∃ Aq',
    for_each (combine (map Z.of_nat (seq s m)) (map Z.of_nat (seq s m)))
             (λ '(nq, nu), assign lq nq (slice lU nu / slice lq 0%Z)%arr) h
    = Some (tt, <[lq := Aq']> h)
    ∧ anx Aq' = anx Aq ∧ any Aq' = any Aq ∧ anvar Aq' = anvar Aq
    ∧ ∀ i j k, adata Aq' i j k =
               if (s <=? k)%nat && (k <? s + m)%nat
               then adiv (adata AU i j k) (adata Aq i j 0%nat)
               else adata Aq i j k.
Proof.
  induction m as [|m IH]; intros s h Aq Hne Hs HU Hq Hx Hy HsU Hsq.
  - exists Aq; simpl. rewrite insert_id by exact Hq.
    repeat split; intros i j k. cmp_cases.
  - simpl.
    erewrite bind_run; cycle 1.
    { eapply assign_run; [ | exact Hq | apply norm_index_of_nat; lia | | ].
      - eapply evals_eop2;
          [ eapply evals_slice; [exact HU | apply norm_index_of_nat; lia]
          | eapply evals_slice; [exact Hq | apply (norm_index_of_nat _ 0); lia]
          | cbn; congruence | cbn; congruence ].
      - cbn; congruence.
      - cbn; congruence. }
    match goal with
    | |- context [for_each _ _ (<[lq := ?A1]> h)] =>
        destruct (IH (S s) (<[lq := A1]> h) A1) as (Aq' & Hrun & Hx' & Hy' & Hv' & Hd')
    end;
      [ exact Hne | lia | rewrite lookup_insert_ne by congruence; exact HU
      | apply lookup_insert_eq | cbn; congruence | cbn; congruence
      | lia | simpl; lia | ].
    exists Aq'. rewrite Hrun, insert_insert_eq.
    cbn in Hx', Hy', Hv'.
    split; [reflexivity|]. split; [congruence|]. split; [congruence|]. split; [exact Hv'|].
    intros i j k; rewrite Hd'; cbn [adata set_slot fdata slot]. cmp_cases.
Qed.

Lemma cons_to_prim_cells (lU : loc) (gamma : T) (n : nat) (myg : Grid2d T)
      (h : gmap loc (Array T)) (AU : Array T) :
  h !! lU = Some AU →
  anx AU = qx myg → any AU = qy myg → anvar AU = (6 + n)%nat →
  ∃ Aq AU',
    cons_to_prim lU gamma (standard_ivars n) myg h
    = Some (fresh (dom h), <[fresh (dom h) := Aq]> (<[lU := AU']> h))
    ∧ (anx Aq = qx myg ∧ any Aq = qy myg ∧ anvar Aq = (6 + n)%nat)
    ∧ (anx AU' = qx myg ∧ any AU' = qy myg ∧ anvar AU' = (6 + n)%nat)
    ∧ (∀ i j k, (k < 6 + n)%nat →
                adata Aq i j k = cons_to_prim_cell gamma (adata AU i j) k)
    ∧ (∀ i j k, adata AU' i j k = floored_cell (adata AU i j) k).
Proof.
  intros HU Hx Hy Hv.
  pose proof (fresh_loc_ne h lU AU HU) as Hne.
  destruct AU as [nx0 ny0 nv0 d]; cbn in Hx, Hy, Hv; subst nx0 ny0 nv0.
  unfold cons_to_prim.
  rewrite nq_standard.
  erewrite bind_run by apply scratch_array_run.
  set (lq := fresh (dom h)) in *.
  erewrite bind_run; cycle 1.
  { eapply assign_run;
      [ eval_expr | solve_lookup | solve_index | reflexivity | reflexivity ]. }
  rewrite (insert_insert_ne _ lU lq) by congruence.
  match goal with
  | |- context [<[lU := ?A]> h] => set (AU' := A)
  end.
  assert (HU' : ∀ i j k, adata AU' i j k = floored_cell (d i j) k).
  { intros i j k; destruct k as [|k]; reflexivity. }
  assert (HshapeU : anx AU' = qx myg ∧ any AU' = qy myg ∧ anvar AU' = (6 + n)%nat)
    by (repeat split; reflexivity).
  set (h1 := <[lU := AU']> h).
  assert (HU1 : h1 !! lU = Some AU') by apply lookup_insert_eq.
  do 5 run_assign.
  erewrite bind_run; cycle 1; [eval_expr|].
  run_assign.
  rewrite naux_standard.
  match goal with
  | |- context [<[lq := ?A]> h1] => set (Aq6 := A)
  end.
  assert (Hcells6 : ∀ i j k, (k < 6)%nat →
            adata Aq6 i j k = cons_to_prim_cell gamma (d i j) k).
  { intros i j k Hk.
    do 6 (destruct k as [|k]; [reflexivity|]); lia. }
  assert (Hshape6 : anx Aq6 = qx myg ∧ any Aq6 = qy myg ∧ anvar Aq6 = (6 + n)%nat)
    by (repeat split; reflexivity).
  assert (Hrho6 : ∀ i j, adata Aq6 i j 0%nat = floored_density (d i j))
    by reflexivity.
  assert (HU6 : ∀ i j k, (6 ≤ k)%nat → adata AU' i j k = d i j k).
  { intros i j k Hk. do 6 (destruct k as [|k]; [lia|]); reflexivity. }
  clearbody Aq6 AU'.
  destruct Hshape6 as (Hx6 & Hy6 & Hv6).
  destruct HshapeU as (HxU & HyU & HvU).
  destruct n as [|n'].
  - exists Aq6, AU'.
    split; [reflexivity|]. split; [auto|]. split; [auto|]. split; [|exact HU'].
    intros i j k Hk; apply Hcells6; lia.
  - change (0 <? Z.of_nat (S n'))%Z with true; cbv iota.
    rewrite ix_standard, irhox_standard, range_seq.
    change (irho (standard_ivars (S n'))) with 0%Z.
    destruct (c2p_loop lq lU AU' (S n') 6 (<[lq := Aq6]> h1) Aq6)
      as (Aq & Hrun & Hx' & Hy' & Hv' & Hd');
      [ congruence | lia | solve_lookup | solve_lookup | congruence | congruence
      | lia | lia | ].
    exists Aq, AU'.
    erewrite bind_run by exact Hrun.
    rewrite insert_insert_eq.
    split; [reflexivity|].
    split; [repeat split; congruence|]. split; [auto|]. split; [|exact HU'].
    intros i j k Hk; rewrite Hd'.
    destruct (Nat.leb_spec 6 k) as [Hge|Hlt]; cbn [andb].
    + destruct (Nat.ltb_spec k (6 + S n')) as [_|Hbad]; [|lia].
      rewrite Hrho6, HU6 by exact Hge.
      do 6 (destruct k as [|k]; [lia|]); reflexivity.
    + apply Hcells6; exact Hlt.
Qed.
End ConverterCells.

Lemma cons_to_prim_cell_ext {T} {HA : Arith T} {HE : Eos T}
      (gamma : T) (u u' : nat → T) (k : nat) :
  (∀ m, (m ≤ 5)%nat ∨ m = k → u m = u' m) →
  cons_to_prim_cell gamma u k = cons_to_prim_cell gamma u' k.
Proof.
  intros Hu.
  pose proof (Hu 0%nat) as H0. pose proof (Hu 1%nat) as H1.
  pose proof (Hu 2%nat) as H2. pose proof (Hu 3%nat) as H3.
  pose proof (Hu 4%nat) as H4. pose proof (Hu 5%nat) as H5.
  pose proof (Hu k) as Hk.
  unfold cons_to_prim_cell, eint_cell, floored_density.
  rewrite H0, H1, H2, H3, H4, H5, Hk by (first [left; lia | right; reflexivity]).
  reflexivity.
Qed.

Ltac arith_R :=
  cbv beta iota zeta delta
      [aadd asub amul adiv aabs amaximum aminimum altb azero ahalf asmall R_arith
       prim_to_cons_cell cons_to_prim_cell floored_density eint_cell floored_cell].

(** ** The converter in exact arithmetic *)

Section Exact.
Context {E : Eos R}.
Open Scope R_scope.

Lemma Rmax_floor_id (x : R) : 1e-10 < x → Rmax x 1e-10 = x.
Proof. intros Hx; apply Rmax_left; lra. Qed.

Lemma Rmax_floor_id' (x : R) : 1e-10 < x → Rmax 1e-10 x = x.
Proof. intros Hx; apply Rmax_right; lra. Qed.

Lemma round_trip_cell (gamma : R) (c : nat → R) (k : nat) :
  1e-10 < c 0%nat → 1e-10 < c 3%nat →
  eos_consistent E gamma →
  cons_to_prim_cell gamma (prim_to_cons_cell gamma c) k = c k.
Proof.
  intros Hrho Hp Heos.
  assert (Hne : c 0%nat ≠ 0) by lra.
  do 7 (try destruct k as [|k]); arith_R;
    rewrite ?(Rmax_floor_id (c 0%nat)), ?(Rmax_floor_id' (c 3%nat)) by assumption.
  - reflexivity.
  - field; exact Hne.
  - field; exact Hne.
  - match goal with
    | |- Rmax _ (pres gamma _ ?e) = _ =>
        replace e with (rhoe gamma (c 3%nat) / c 0%nat) by (field; exact Hne)
    end.
    rewrite Heos by assumption.
    apply Rmax_floor_id'; assumption.
  - reflexivity.
  - reflexivity.
  - field; exact Hne.
  - field; exact Hne.
Qed.

(** C1 (round trip).  Let the index map be the one a simulation builds
    (the six mandatory names first, then any passive scalars), and let
    [q] be an array of primitive states on the grid whose density and
    pressure are strictly above the floor [1e-10] in every cell.  In
    exact arithmetic, with an equation of state whose [pres] and [rhoe]
    are consistent inverses, [prim_to_cons] returns an array [U], and
    [cons_to_prim] on that [U], with the same [gamma], index map and
    grid, returns an array equal to [q]. *)
Theorem round_trip (extras : list string) (ivars : Variables) (gamma : R)
        (myg : Grid2d R) (h : gmap loc (Array R)) (lq : loc) (Q : Array R) :
  Variables_init (mandatory ++ extras) = Some ivars →
  h !! lq = Some Q →
  anx Q = qx myg → any Q = qy myg → Z.of_nat (anvar Q) = nq ivars →
  valid_prim Q →
  eos_consistent E gamma →
  ∃ lU h1 lq' h2 Q',
    prim_to_cons lq gamma ivars myg h = Some (lU, h1)
    ∧ cons_to_prim lU gamma ivars myg h1 = Some (lq', h2)
    ∧ h2 !! lq' = Some Q'
    ∧ array_eq Q' Q.
Proof.
  intros Hiv Hq Hx Hy Hv Hvalid Heos.
  rewrite Variables_init_standard in Hiv; injection Hiv as <-.
  rewrite nq_standard in Hv; apply Nat2Z.inj in Hv.
  destruct (prim_to_cons_cells lq gamma (length extras) myg h Q Hq Hx Hy Hv)
    as (AU & Hrun1 & HxU & HyU & HvU & HU).
  destruct (cons_to_prim_cells (fresh (dom h)) gamma (length extras) myg
                               (<[fresh (dom h) := AU]> h) AU
                               (lookup_insert_eq _ _ _) HxU HyU HvU)
    as (Q' & AU' & Hrun2 & (HxQ & HyQ & HvQ) & _ & HQ' & _).
  eexists _, _, _, _, Q'.
  split; [exact Hrun1|]. split; [exact Hrun2|].
  split; [apply lookup_insert_eq|].
  unfold array_eq; rewrite HxQ, HyQ, HvQ, Hx, Hy, Hv.
  split; [reflexivity|]. split; [reflexivity|]. split; [reflexivity|].
  intros i j k Hi Hj Hk.
  destruct (Hvalid i j) as [Hrho Hp]; [lia | lia |].
  rewrite HQ' by exact Hk.
  rewrite <- (round_trip_cell gamma (adata Q i j) k) by assumption.
  apply cons_to_prim_cell_ext; intros m Hm; apply HU; lia.
Qed.
End Exact.

Ltac solve_reads :=
  unfold emaximum_r, emaximum_l, eos_pres, eos_rhoe, esq;
  repeat first
    [ apply reads_only_ret | apply reads_only_slice | apply reads_only_lift
    | apply reads_only_eop1 | apply reads_only_eop2 ].

Ltac solve_writes :=
  repeat first
    [ apply writes_only_assign; solve_reads
    | apply writes_only_for_each; intros [? ?]
    | match goal with
      | |- writes_only _ (if ?b then _ else _) => destruct b
      end
    | solve [apply writes_only_reads; solve_reads]
    | apply writes_only_bind; [|intros ?] ].

(** ** What the converter writes *)

Section Frames.
Context {T : Type} {HA : Arith T} {HE : Eos T}.

Lemma scratch_array_inv (myg : Grid2d T) (n : Z) (h h0 : gmap loc (Array T)) (l : loc) :
  scratch_array myg n h = Some (l, h0) →
  h !! l = None ∧ ∃ A0, h0 = <[l := A0]> h.
Proof.
  unfold scratch_array; destruct (n <? 0)%Z; [discriminate|].
  unfold alloc; intros [= <- <-]; split; [|eauto].
  apply not_elem_of_dom, is_fresh.
Qed.

Lemma assign_inv (l : loc) (k : Z) (e : M T (Field T)) (h h1 : gmap loc (Array T)) (x : unit) :
  reads_only e →
  assign l k e h = Some (x, h1) →
  ∃ F A i, e h = Some (F, h) ∧ h !! l = Some A
           ∧ norm_index (anvar A) k = Some i
           ∧ h1 = <[l := set_slot A i F]> h.
Proof.
  intros He Hrun; unfold assign in Hrun.
  apply bind_inv in Hrun as (F & h' & H1 & Hrun).
  pose proof (He _ _ _ H1) as ->.
  apply bind_inv in Hrun as (A & h' & H2 & Hrun).
  unfold load in H2; destruct (h !! l) as [A'|] eqn:Hl; [|discriminate].
  injection H2 as -> <-.
  apply bind_inv in Hrun as (i & h' & H3 & Hrun).
  destruct (norm_index (anvar A) k) as [i'|] eqn:Hi; [|discriminate].
  injection H3 as -> <-.
  destruct (_ && _); [|discriminate].
  unfold store in Hrun; injection Hrun as _ <-.
  exists F, A, i; auto.
Qed.

Lemma floor_slice_inv (l : loc) (k : Z) (c : T) (h h' : gmap loc (Array T)) (F : Field T) :
  emaximum_r (slice l k) c h = Some (F, h') →
  ∃ A i, h !! l = Some A ∧ norm_index (anvar A) k = Some i
         ∧ F = fmap1 (λ x, amaximum x c) (slot A i).
Proof.
  unfold emaximum_r, eop1, slice; intros Hrun.
  apply bind_inv in Hrun as (G & h1 & Hrun & Hret).
  apply bind_inv in Hrun as (A & h2 & Hload & Hrun).
  unfold load in Hload; destruct (h !! l) as [A'|] eqn:Hl; [|discriminate].
  injection Hload as -> <-.
  apply bind_inv in Hrun as (i & h3 & Hi & Hrun).
  destruct (norm_index (anvar A) k) as [i'|] eqn:Hidx; [|discriminate].
  injection Hi as -> <-.
  injection Hrun as <- <-. injection Hret as <- _.
  exists A, i; auto.
Qed.

(** C10 ([prim_to_cons] does not write to its input).  For every
    arithmetic, equation of state, index map and grid: when
    [prim_to_cons] returns, the array object [q] it was given holds
    exactly the array it held before, every slot of every cell, whatever
    the densities and pressures; the result [U] is a new object, and no
    object other than [U] has changed. *)
Theorem prim_to_cons_leaves_q (q : loc) (gamma : T) (ivars : Variables)
        (myg : Grid2d T) (h h' : gmap loc (Array T)) (Q : Array T) (U : loc) :
  h !! q = Some Q →
  prim_to_cons q gamma ivars myg h = Some (U, h') →
  h' !! q = Some Q ∧ h !! U = None ∧ ∀ l, l ≠ U → h' !! l = h !! l.
Proof.
  intros Hq Hrun; unfold prim_to_cons in Hrun.
  apply bind_inv in Hrun as (U0 & h0 & Hscratch & Hrun).
  apply scratch_array_inv in Hscratch as (Hfresh & A0 & ->).
  assert (Hw : ∀ l, l ≠ U0 → h' !! l = <[U0 := A0]> h !! l).
  { revert Hrun.
    match goal with
    | |- ?m _ = _ → _ => assert (Hwr : writes_only U0 m) by solve_writes
    end.
    intros Hrun; exact (Hwr _ _ _ Hrun). }
  assert (HU : U = U0).
  { repeat (apply bind_inv in Hrun as (? & ? & _ & Hrun)).
    injection Hrun as -> _; reflexivity. }
  subst U0.
  assert (Hframe : ∀ l, l ≠ U → h' !! l = h !! l).
  { intros l Hl; rewrite Hw by exact Hl.
    apply lookup_insert_ne; congruence. }
  split; [|split; assumption].
  rewrite Hframe; [exact Hq | congruence].
Qed.

(** C8 ([cons_to_prim] floors the density of [U] in place).  For every
    arithmetic, equation of state, index map and grid: when
    [cons_to_prim] returns, the caller's array object [U] has the shape
    it had, its density slot [d = idens] holds
    [maximum(density, 1e-10)] in every cell, and every other slot of
    every cell is as it was. *)
Theorem cons_to_prim_floors_U_in_place (U : loc) (gamma : T) (ivars : Variables)
        (myg : Grid2d T) (h h' : gmap loc (Array T)) (AU : Array T) (q : loc) :
  h !! U = Some AU →
  cons_to_prim U gamma ivars myg h = Some (q, h') →
  ∃ (AU' : Array T) (d : nat),
    h' !! U = Some AU'
    ∧ norm_index (anvar AU) (idens ivars) = Some d
    ∧ anx AU' = anx AU ∧ any AU' = any AU ∧ anvar AU' = anvar AU
    ∧ ∀ i j k, adata AU' i j k =
               if Nat.eqb k d then amaximum (adata AU i j d) asmall
               else adata AU i j k.
Proof.
  intros HU Hrun; unfold cons_to_prim in Hrun.
  apply bind_inv in Hrun as (q0 & h0 & Hscratch & Hrun).
  apply scratch_array_inv in Hscratch as (Hfresh & A0 & ->).
  assert (Hne : q0 ≠ U) by congruence.
  apply bind_inv in Hrun as (x & h1 & Hfloor & Hrun).
  apply assign_inv in Hfloor as (F & A & d & HF & HA' & Hd & ->); [|solve_reads].
  apply floor_slice_inv in HF as (A' & d' & HA'' & Hd' & ->).
  rewrite lookup_insert_ne in HA', HA'' by exact Hne.
  rewrite HU in HA', HA''; injection HA' as <-; injection HA'' as <-.
  rewrite Hd in Hd'; injection Hd' as <-.
  assert (Hw : ∀ l, l ≠ q0 → h' !! l = <[U := set_slot AU d (fmap1 (λ x, amaximum x asmall) (slot AU d))]> (<[q0 := A0]> h) !! l).
  { revert Hrun.
    match goal with
    | |- ?m _ = _ → _ => assert (Hwr : writes_only q0 m) by solve_writes
    end.
    intros Hrun; exact (Hwr _ _ _ Hrun). }
  eexists _, d; split; [rewrite Hw by congruence; apply lookup_insert_eq|].
  split; [exact Hd|].
  repeat (split; [reflexivity|]).
  intros i j k; reflexivity.
Qed.

End Frames.

Ltac norm_slots :=
  unfold entry;
  cbn [irho iu iv ip ibx iby idens ixmom iymom iener ixmag iymag standard_ivars];
  change (Z.to_nat 0) with 0%nat; change (Z.to_nat 1) with 1%nat;
  change (Z.to_nat 2) with 2%nat; change (Z.to_nat 3) with 3%nat;
  change (Z.to_nat 4) with 4%nat; change (Z.to_nat 5) with 5%nat.

(** ** The floors *)

Section Floors.
Context {E : Eos R}.
Local Open Scope R_scope.

(** C5 (floors), as amended: in exact arithmetic, where every entry is
    a real number.  For every array on the grid and the index map of a
    simulation, [cons_to_prim] returns primitive states whose density
    and pressure are at least [1e-10] in every cell, with density
    exactly [1e-10] in a cell whose conserved density is [1e-15]; and
    [prim_to_cons] returns conserved states whose density is at least
    [1e-10], with the energy formed from a pressure [p >= 1e-10]. *)
Theorem floors_in_exact_arithmetic (extras : list string) (ivars : Variables)
        (gamma : R) (myg : Grid2d R) (h : gmap loc (Array R)) (l : loc) (A : Array R) :
  Variables_init (mandatory ++ extras) = Some ivars →
  h !! l = Some A →
  anx A = qx myg → any A = qy myg → Z.of_nat (anvar A) = nvar ivars →
  (∃ q h1 Aq,
      cons_to_prim l gamma ivars myg h = Some (q, h1) ∧ h1 !! q = Some Aq
      ∧ ∀ i j, 1e-10 <= entry Aq i j (irho ivars)
               ∧ 1e-10 <= entry Aq i j (ip ivars)
               ∧ (entry A i j (idens ivars) = 1e-15 →
                  entry Aq i j (irho ivars) = 1e-10))
  ∧ (∃ U h1 AU,
      prim_to_cons l gamma ivars myg h = Some (U, h1) ∧ h1 !! U = Some AU
      ∧ ∀ i j, 1e-10 <= entry AU i j (idens ivars)
               ∧ ∃ p, 1e-10 <= p
                      ∧ entry AU i j (iener ivars)
                        = rhoe gamma p
                          + 0.5 * entry A i j (irho ivars)
                            * (entry A i j (iu ivars) * entry A i j (iu ivars)
                               + entry A i j (iv ivars) * entry A i j (iv ivars))
                          + 0.5 * (entry A i j (ibx ivars) * entry A i j (ibx ivars)
                                   + entry A i j (iby ivars) * entry A i j (iby ivars))).
Proof.
  intros Hiv Hl Hx Hy Hv.
  rewrite Variables_init_standard in Hiv; injection Hiv as <-.
  rewrite nvar_standard in Hv; apply Nat2Z.inj in Hv.
  split.
  - destruct (cons_to_prim_cells l gamma (length extras) myg h A Hl Hx Hy Hv)
      as (Aq & AU' & Hrun & _ & _ & Hq & _).
    eexists _, _, Aq; split; [exact Hrun|]. split; [apply lookup_insert_eq|].
    intros i j; norm_slots.
    rewrite !Hq by lia. arith_R.
    split; [apply Rmax_r|]. split; [apply Rmax_l|].
    intros ->. rewrite (Rmax_right 1e-15 1e-10) by lra.
    apply Rmax_left; lra.
  - destruct (prim_to_cons_cells l gamma (length extras) myg h A Hl Hx Hy Hv)
      as (AU & Hrun & _ & _ & _ & HU).
    eexists _, _, AU; split; [exact Hrun|]. split; [apply lookup_insert_eq|].
    intros i j; norm_slots.
    rewrite !HU by lia. arith_R.
    split; [apply Rmax_r|].
    exists (Rmax 1e-10 (adata A i j 3%nat)); split; [apply Rmax_l | reflexivity].
Qed.
End Floors.

(** ** The stage driver *)

Section DriverFacts.
Context {T : Type} {HA : Arith T} {World Incr : Type}.
Context (ext : Collaborators T World Incr).
Implicit Types (sim : Simulation T World).

Lemma after_calls_refl sim : after_calls sim [] sim.
Proof. unfold after_calls; rewrite app_nil_r; repeat split; reflexivity. Qed.

Lemma after_calls_trans sim1 sim2 sim3 cs1 cs2 :
  after_calls sim1 cs1 sim2 → after_calls sim2 cs2 sim3 →
  after_calls sim1 (cs1 ++ cs2) sim3.
Proof.
  intros (Hr & Ht & Hd & Hn & Hp & Hc) (Hr' & Ht' & Hd' & Hn' & Hp' & Hc').
  unfold after_calls.
  rewrite Hr', Ht', Hd', Hn', Hp', Hc', Hc, app_assoc; repeat split; assumption.
Qed.

Lemma call_after sim c f :
  ∃ sim', call c f sim = Some (tt, sim') ∧ after_calls sim [c] sim'.
Proof. eexists; split; [reflexivity|]; unfold after_calls; cbn; repeat split; reflexivity. Qed.

Lemma stage_after sim s :
  ∃ sim',
    (call (get_stage_start s) (rk_get_stage_start ext s) ;;
     call (fill_BC_all (ytmp s)) (bc_fill ext (ytmp s)) ;;
     call (fill_BC_all (fxtmp s)) (bc_fill ext (fxtmp s)) ;;
     call (fill_BC_all (fytmp s)) (bc_fill ext (fytmp s)) ;;
     do k <- substep ext (ytmp s) (fxtmp s) (fytmp s);
     call (store_increment s) (rk_store_increment ext s k))%comp sim
    = Some (tt, sim')
    ∧ after_calls sim (stage_calls (dt sim) s) sim'
    ∧ world sim' = stage_world ext (rp sim) (dt sim) s (world sim).
Proof.
  unfold stage_world, bind, call, substep, call_ret, get; cbn.
  destruct (flx_step ext _ _ _ _ _ _) as [k w].
  eexists; split; [reflexivity|].
  unfold after_calls, stage_calls; cbn.
  rewrite <- !app_assoc; cbn; repeat split; reflexivity.
Qed.

Lemma stages_after (l : list Z) :
  ∀ sim, ∃ sim',
    for_each l
      (λ s,
        call (get_stage_start s) (rk_get_stage_start ext s) ;;
        call (fill_BC_all (ytmp s)) (bc_fill ext (ytmp s)) ;;
        call (fill_BC_all (fxtmp s)) (bc_fill ext (fxtmp s)) ;;
        call (fill_BC_all (fytmp s)) (bc_fill ext (fytmp s)) ;;
        do k <- substep ext (ytmp s) (fxtmp s) (fytmp s);
        call (store_increment s) (rk_store_increment ext s k))%comp sim
    = Some (tt, sim')
    ∧ after_calls sim (flat_map (stage_calls (dt sim)) l) sim'
    ∧ world sim' = fold_left (λ w s, stage_world ext (rp sim) (dt sim) s w) l (world sim).
Proof.
  induction l as [|s l IH]; intros sim.
  - exists sim; split; [reflexivity|]. split; [apply after_calls_refl | reflexivity].
  - destruct (stage_after sim s) as (sim1 & Hrun1 & Hafter1 & Hw1).
    destruct (IH sim1) as (sim2 & Hrun2 & Hafter2 & Hw2).
    assert (Hdt : dt sim1 = dt sim) by apply Hafter1.
    assert (Hrp : rp sim1 = rp sim) by apply Hafter1.
    rewrite Hdt, Hrp, Hw1 in Hw2; rewrite Hdt in Hafter2.
    exists sim2; split; [|split].
    + cbn [for_each]. erewrite bind_run by exact Hrun1. exact Hrun2.
    + cbn [flat_map]. eapply after_calls_trans; eassumption.
    + exact Hw2.
Qed.


Lemma range_0 (k : Z) : range 0 k = map Z.of_nat (seq 0 (Z.to_nat k)).
Proof. unfold range; rewrite Z.sub_0_r; reflexivity. Qed.

Lemma call_run sim c f :
  call c f sim = Some (tt, set_world (f (world sim)) (log c sim)).
Proof. reflexivity. Qed.

Lemma after_call sim c f :
  after_calls sim [c] (set_world (f (world sim)) (log c sim))
  ∧ world (set_world (f (world sim)) (log c sim)) = f (world sim).
Proof. unfold after_calls; cbn; repeat split; reflexivity. Qed.

Lemma get_step {A B} sim (f : Simulation T World → A)
      (k : A → Comp (Simulation T World) B) :
  bind (get f) k sim = k (f sim) sim.
Proof. reflexivity. Qed.

Lemma nstages_step {B} sim (k : Z → Comp (Simulation T World) B) :
  bind (call_ret nstages (λ w, (rk_nstages ext w, w))) k sim
  = k (rk_nstages ext (world sim)) (set_world (world sim) (log nstages sim)).
Proof. reflexivity. Qed.

Lemma particles_step {B} sim (k : unit → Comp (Simulation T World) B) :
  ∃ sim',
    bind (if particles sim
          then bind (get dt) (λ dt1, call (update_particles dt1) (particles_update ext dt1))
          else ret tt) k sim
    = k tt sim'
    ∧ after_calls sim (if particles sim then [update_particles (dt sim)] else []) sim'
    ∧ world sim' = if particles sim then particles_update ext (dt sim) (world sim)
                   else world sim.
Proof.
  destruct (particles sim).
  - exists (set_world (particles_update ext (dt sim) (world sim))
                      (log (update_particles (dt sim)) sim)).
    split; [reflexivity|]. apply after_call.
  - exists sim; split; [reflexivity|]. split; [apply after_calls_refl | reflexivity].
Qed.

Ltac step_call :=
  match goal with
  | |- context [bind (call ?c ?f) ?k ?s] =>
      rewrite (bind_run (call c f) k s tt _ (call_run s c f));
      let A := fresh "A" in
      let W := fresh "W" in
      destruct (after_call s c f) as [A W];
      let s' := fresh "s" in
      set (s' := set_world (f (world s)) (log c s)) in *;
      clearbody s'
  end.

(** [evolve] up to the new timestep: the calls it makes, in order; the
    attributes of the simulation are untouched so far. *)
Lemma evolve_run sim :
  ∃ sim1,
    after_calls sim
      (calls_before_stages sim
       ++ flat_map (stage_calls (dt sim)) (range 0 (stages_of ext sim))
       ++ compute_final_update :: calls_after_update sim) sim1
    ∧ world sim1 = world_before_timestep ext sim
    ∧ evolve ext sim
      = (method_compute_timestep ext ;;
         (λ sim, Some (tt, set_t (aadd (t sim) (dt sim)) sim)) ;;
         (λ sim, Some (tt, set_n (n sim + 1)%Z sim)) ;;
         call timer_end (λ w, w))%comp sim1.
Proof.
  unfold evolve.
  step_call.
  rewrite !get_step.
  step_call. step_call.
  rewrite nstages_step.
  destruct (after_call s1 nstages (λ w, w)) as [A2 W2].
  set (s2 := set_world (world s1) (log nstages s1)) in *; clearbody s2.
  match goal with
  | |- context [bind (for_each ?l ?body) ?k s2] =>
      destruct (stages_after l s2) as (s3 & Hloop & A3 & W3);
      rewrite (bind_run _ k _ _ _ Hloop); clear Hloop
  end.
  step_call.
  rewrite get_step.
  match goal with
  | |- context [bind (if particles s4 then _ else _) ?k s4] =>
      destruct (particles_step s4 k) as (s5 & -> & A5 & W5)
  end.
  do 3 step_call.
  pose proof (after_calls_trans _ _ _ _ _ A A0) as B1.
  pose proof (after_calls_trans _ _ _ _ _ B1 A1) as B2.
  pose proof (after_calls_trans _ _ _ _ _ B2 A2) as B3.
  pose proof (after_calls_trans _ _ _ _ _ B3 A3) as B4.
  pose proof (after_calls_trans _ _ _ _ _ B4 A4) as B5.
  pose proof (after_calls_trans _ _ _ _ _ B5 A5) as B6.
  pose proof (after_calls_trans _ _ _ _ _ B6 A6) as B7.
  pose proof (after_calls_trans _ _ _ _ _ B7 A7) as B8.
  pose proof (after_calls_trans _ _ _ _ _ B8 A8) as B9.
  destruct A as (Hr & Ht & Hd & _), B3 as (Hr2 & _ & Hd2 & _),
           B5 as (_ & _ & Hd4 & _ & Hp4 & _).
  exists s8; split; [|split; [|reflexivity]].
  - rewrite W1, W0, W, Hr, Ht, Hd, Hd2, Hd4, Hp4 in B9.
    unfold calls_before_stages, calls_after_update, stages_of.
    rewrite <- !app_assoc in B9. exact B9.
  - unfold world_before_timestep.
    rewrite W8, W7, W6, W5, W4, W3, W2, W1, W0, W.
    rewrite Hp4, Hd4, Hr2, Hd2, Hr, Ht, Hd.
    reflexivity.
Qed.

Lemma method_compute_timestep_inv sim x sim' :
  method_compute_timestep ext sim = Some (x, sim') →
  ∃ d, sim' = set_dt d sim.
Proof.
  unfold method_compute_timestep.
  cbn [bind get].
  destruct (get_velocity ext (world sim)) as [u v].
  destruct (get_magnetosonic ext (world sim)) as [Cfx Cfy].
  intros Hrun.
  repeat (apply bind_inv in Hrun as (? & ? & Hl & Hrun);
          match type of Hl with
          | lift ?o _ = _ => destruct o; [injection Hl as <- <-|discriminate]
          end).
  injection Hrun as _ <-; eauto.
Qed.

Lemma evolve_inv sim x sim' :
  evolve ext sim = Some (x, sim') →
  ∃ sim1 d,
    after_calls sim
      (calls_before_stages sim
       ++ flat_map (stage_calls (dt sim)) (range 0 (stages_of ext sim))
       ++ compute_final_update :: calls_after_update sim) sim1
    ∧ world sim1 = world_before_timestep ext sim
    ∧ method_compute_timestep ext sim1 = Some (tt, set_dt d sim1)
    ∧ sim' = set_world (world sim1)
               (log timer_end
                  (set_n (n sim1 + 1)%Z (set_t (aadd (t sim1) d) (set_dt d sim1)))).
Proof.
  intros Hrun.
  destruct (evolve_run sim) as (sim1 & Hafter & Hw & Heq).
  rewrite Heq in Hrun.
  apply bind_inv in Hrun as ([] & sim2 & Hdt & Hrun).
  destruct (method_compute_timestep_inv _ _ _ Hdt) as (d & ->).
  exists sim1, d; split; [exact Hafter|]. split; [exact Hw|]. split; [exact Hdt|].
  cbn in Hrun. injection Hrun as _ <-. reflexivity.
Qed.

(** What a call of [evolve] that returns has done to the counter and
    to the clock: the counter is one larger, and the clock has advanced
    by the timestep just recomputed, the [dt] the simulation leaves
    [evolve] with. *)
Lemma evolve_clock_and_counter sim x sim' :
  evolve ext sim = Some (x, sim') →
  n sim' = (n sim + 1)%Z ∧ t sim' = aadd (t sim) (dt sim').
Proof.
  intros Hrun.
  destruct (evolve_inv _ _ _ Hrun) as (sim1 & d & Hafter & _ & _ & ->).
  destruct Hafter as (_ & Ht & _ & Hn & _).
  cbn; rewrite Ht, Hn; auto.
Qed.

(** C9 (order of the stages).  In every call of [evolve] that returns,
    the calls on the collaborators are, in this order: the set-up of the
    integrator; for each stage [s = 0, 1, ..., nstages() - 1] in
    increasing order, [get_stage_start(s)], then [fill_BC_all] on the
    cell-centered and on the two face-centered stage states, then the
    substep on these three, then [store_increment(s, ...)]; then
    [compute_final_update], once, after the last [store_increment]; then
    the particles, the three final fills and the timer.  The state of
    the collaborators is the one these calls produce, each stage storing
    under [s] the increment its own substep returned. *)
Theorem evolve_calls_in_order sim x sim' :
  evolve ext sim = Some (x, sim') →
  let stages := map Z.of_nat (seq 0 (Z.to_nat (stages_of ext sim))) in
  calls sim'
  = calls sim
    ++ calls_before_stages sim
    ++ flat_map (stage_calls (dt sim)) stages
    ++ compute_final_update :: calls_after_update sim ++ [timer_end]
  ∧ ¬ In compute_final_update
        (calls_before_stages sim
         ++ flat_map (stage_calls (dt sim)) stages
         ++ calls_after_update sim ++ [timer_end])
  ∧ (∀ s, ¬ In (store_increment s) (calls_after_update sim ++ [timer_end]))
  ∧ world sim' = world_before_timestep ext sim.
Proof.
  intros Hrun stages.
  destruct (evolve_inv _ _ _ Hrun) as (sim1 & d & Hafter & Hw & _ & ->).
  destruct Hafter as (_ & _ & _ & _ & _ & Hcalls).
  split; [|split; [|split; [|exact Hw]]].
  - cbn [calls set_world log set_n set_t set_dt]; rewrite Hcalls, range_0.
    subst stages; rewrite <- !app_assoc; reflexivity.
  - rewrite !in_app_iff, in_flat_map.
    unfold calls_before_stages, calls_after_update, stage_calls.
    intros [Hin | [(s & _ & Hin) | [Hin | Hin]]].
    + cbn in Hin; intuition discriminate.
    + cbn in Hin; intuition discriminate.
    + destruct (particles sim); cbn in Hin; intuition discriminate.
    + cbn in Hin; intuition discriminate.
  - intros s; rewrite in_app_iff; unfold calls_after_update.
    intros [Hin | Hin].
    + destruct (particles sim); cbn in Hin; intuition discriminate.
    + cbn in Hin; intuition discriminate.
Qed.

End DriverFacts.

(** ** The timestep in exact arithmetic *)

Section Minimum.
Local Open Scope R_scope.

Lemma fold_left_Rmin_le (l : list R) (x : R) :
  fold_left Rmin l x <= x ∧ ∀ y, In y l → fold_left Rmin l x <= y.
Proof.
  revert x; induction l as [|a l IH]; intros x; cbn [fold_left].
  - split; [lra | intros y []].
  - destruct (IH (Rmin x a)) as [H1 H2]; split.
    + pose proof (Rmin_l x a); lra.
    + intros y [<-|Hy]; [pose proof (Rmin_r x a); lra | apply H2, Hy].
Qed.

Lemma fold_left_Rmin_in (l : list R) (x : R) :
  In (fold_left Rmin l x) (x :: l).
Proof.
  revert x; induction l as [|a l IH]; intros x; cbn [fold_left].
  - left; reflexivity.
  - destruct (IH (Rmin x a)) as [Heq|Hin].
    + rewrite <- Heq. unfold Rmin; destruct (Rle_dec x a); [left | right; left]; reflexivity.
    + right; right; exact Hin.
Qed.

Lemma in_entries (F : Field R) (x : R) :
  In x (entries F) ↔ ∃ i j, (i < fnx F)%nat ∧ (j < fny F)%nat ∧ x = fdata F i j.
Proof.
  unfold entries; rewrite in_flat_map; split.
  - intros (i & Hi & Hx); apply in_map_iff in Hx as (j & <- & Hj).
    apply in_seq in Hi, Hj; exists i, j; repeat split; lia.
  - intros (i & j & Hi & Hj & ->); exists i; split; [apply in_seq; lia|].
    apply in_map_iff; exists j; split; [reflexivity | apply in_seq; lia].
Qed.

Lemma fmin_min_over_cells (F : Field R) :
  (0 < fnx F)%nat → (0 < fny F)%nat →
  ∃ m, fmin F = Some m ∧ min_over_cells (fnx F) (fny F) (fdata F) m.
Proof.
  intros Hx Hy; unfold fmin.
  destruct (entries F) as [|x l] eqn:He.
  - exfalso.
    assert (Hin : In (fdata F 0%nat 0%nat) (entries F))
      by (apply in_entries; exists 0%nat, 0%nat; auto).
    rewrite He in Hin; exact Hin.
  - eexists; split; [reflexivity|]; split.
    + intros i j Hi Hj.
      assert (Hin : In (fdata F i j) (x :: l))
        by (rewrite <- He; apply in_entries; eauto).
      destruct (fold_left_Rmin_le l x) as [H1 H2].
      destruct Hin as [<-|Hin]; [exact H1 | apply H2, Hin].
    + pose proof (fold_left_Rmin_in l x) as Hin.
      rewrite <- He in Hin; apply in_entries in Hin as (i & j & Hi & Hj & Heq).
      eauto.
Qed.

Lemma py_min2_Rmin (a b : R) : py_min2 a b = Rmin a b.
Proof.
  unfold py_min2, Rmin; cbn [altb R_arith].
  destruct (Rlt_dec b a), (Rle_dec a b); try reflexivity; lra.
Qed.

Lemma py_min3_Rmin (a b c : R) : py_min3 a b c = Rmin (Rmin a b) c.
Proof. unfold py_min3; rewrite !py_min2_Rmin; reflexivity. Qed.

End Minimum.

Section TimestepFacts.
Context {World Incr : Type} (ext : Collaborators R World Incr).
Implicit Types (sim : Simulation R World).
Local Open Scope R_scope.

(** The run of [method_compute_timestep] over the reals.  Where a
    signal speed is zero this is the reals' [x / 0 = 0], not the
    infinity of binary64: the theorems below that speak of the code
    take [speeds_nonzero], or positive fast speeds. *)
Lemma method_compute_timestep_exact sim (u v Cfx Cfy : Field R) :
  get_velocity ext (world sim) = (u, v) →
  get_magnetosonic ext (world sim) = (Cfx, Cfy) →
  fields_on_grid u v Cfx Cfy →
  ∃ xmin ymin,
    min_over_cells (fnx u) (fny u)
      (λ i j, dx (get_grid ext (world sim)) / (Rabs (fdata u i j) + fdata Cfx i j)) xmin
    ∧ min_over_cells (fnx v) (fny v)
      (λ i j, dy (get_grid ext (world sim)) / (Rabs (fdata v i j) + fdata Cfy i j)) ymin
    ∧ method_compute_timestep ext sim
      = Some (tt, set_dt (driver_cfl (rp sim)
                          * Rmin (Rmin xmin ymin) (driver_fix_dt (rp sim))) sim).
Proof.
  intros Hvel Hmag (Hsx & Hsy & Hux & Huy & Hvx & Hvy).
  unfold method_compute_timestep; cbn [bind get].
  rewrite Hvel, Hmag.
  unfold fmap2.
  change (same_shape (fmap1 aabs u) Cfx) with (same_shape u Cfx).
  change (same_shape (fmap1 aabs v) Cfy) with (same_shape v Cfy).
  rewrite Hsx, Hsy.
  cbn [lift bind ret].
  match goal with
  | |- context [fmin ?F] =>
      destruct (fmin_min_over_cells F) as (xmin & Hxmin & Hxspec); [exact Hux | exact Huy |]
  end.
  rewrite Hxmin; cbn [lift bind ret].
  match goal with
  | |- context [fmin ?F] =>
      destruct (fmin_min_over_cells F) as (ymin & Hymin & Hyspec); [exact Hvx | exact Hvy |]
  end.
  rewrite Hymin; cbn [lift bind ret].
  exists xmin, ymin; split; [exact Hxspec|]. split; [exact Hyspec|].
  rewrite py_min3_Rmin; reflexivity.
Qed.


(** The same, read off the simulation the call leaves: its [dt] is the
    product, and nothing else has changed. *)
Lemma method_compute_timestep_sets_dt sim (u v Cfx Cfy : Field R) :
  get_velocity ext (world sim) = (u, v) →
  get_magnetosonic ext (world sim) = (Cfx, Cfy) →
  fields_on_grid u v Cfx Cfy →
  ∃ xmin ymin sim',
    min_over_cells (fnx u) (fny u)
      (λ i j, dx (get_grid ext (world sim)) / (Rabs (fdata u i j) + fdata Cfx i j)) xmin
    ∧ min_over_cells (fnx v) (fny v)
      (λ i j, dy (get_grid ext (world sim)) / (Rabs (fdata v i j) + fdata Cfy i j)) ymin
    ∧ method_compute_timestep ext sim = Some (tt, sim')
    ∧ dt sim' = driver_cfl (rp sim) * Rmin (Rmin xmin ymin) (driver_fix_dt (rp sim))
    ∧ same_except_dt sim sim'.
Proof.
  intros Hvel Hmag Hgrid.
  destruct (method_compute_timestep_exact sim u v Cfx Cfy Hvel Hmag Hgrid)
    as (xmin & ymin & Hx & Hy & Hrun).
  exists xmin, ymin; eexists; split; [exact Hx|]. split; [exact Hy|].
  split; [exact Hrun|]. split; [reflexivity|].
  unfold same_except_dt, set_dt; cbn [rp t n particles world calls]; auto 10.
Qed.

(** C3 (the timestep).  For velocity and fast-speed arrays over a grid
    with cells, in which no signal speed [|u| + Cfx], [|v| + Cfy] is
    zero, [method_compute_timestep] returns, and the [dt] of the
    simulation it leaves is [cfl * min(xmin, ymin, fix_dt)], where
    [xmin] is the minimum over all cells of [dx / (|u| + Cfx)] and
    [ymin] the minimum over all cells of [dy / (|v| + Cfy)]; no other
    attribute of the simulation has changed; and with [cfl = 0.5],
    [fix_dt = 1] and a minimum of [0.2] over the domain, that [dt] is
    [0.1]. *)
Theorem method_compute_timestep_formula sim (u v Cfx Cfy : Field R) :
  get_velocity ext (world sim) = (u, v) →
  get_magnetosonic ext (world sim) = (Cfx, Cfy) →
  fields_on_grid u v Cfx Cfy →
  speeds_nonzero u v Cfx Cfy →
  ∃ xmin ymin sim',
    min_over_cells (fnx u) (fny u)
      (λ i j, dx (get_grid ext (world sim)) / (Rabs (fdata u i j) + fdata Cfx i j)) xmin
    ∧ min_over_cells (fnx v) (fny v)
      (λ i j, dy (get_grid ext (world sim)) / (Rabs (fdata v i j) + fdata Cfy i j)) ymin
    ∧ method_compute_timestep ext sim = Some (tt, sim')
    ∧ dt sim' = driver_cfl (rp sim) * Rmin (Rmin xmin ymin) (driver_fix_dt (rp sim))
    ∧ same_except_dt sim sim'
    ∧ (driver_cfl (rp sim) = 0.5 → driver_fix_dt (rp sim) = 1 →
       Rmin xmin ymin = 0.2 → dt sim' = 0.1).
Proof.
  intros Hvel Hmag Hgrid _.
  destruct (method_compute_timestep_sets_dt sim u v Cfx Cfy Hvel Hmag Hgrid)
    as (xmin & ymin & sim' & Hx & Hy & Hrun & Hdt & Hsame).
  exists xmin, ymin, sim'; split; [exact Hx|]. split; [exact Hy|].
  split; [exact Hrun|]. split; [exact Hdt|]. split; [exact Hsame|].
  intros Hc Hf Hm; rewrite Hdt, Hc, Hf, Hm.
  rewrite Rmin_left by lra. lra.
Qed.

Lemma min_over_cells_pos (nx ny : nat) (f : nat → nat → R) (m : R) :
  min_over_cells nx ny f m →
  (∀ i j, (i < nx)%nat → (j < ny)%nat → 0 < f i j) → 0 < m.
Proof. intros (_ & i & j & Hi & Hj & ->) Hpos; apply Hpos; assumption. Qed.

(** C7 (monotone in the CFL number), as amended: in exact arithmetic,
    on a grid of positive spacings, with fast speeds strictly positive
    in every cell and [fix_dt > 0].  For the same state and CFL numbers
    [0 < c1 < c2 <= 1], both calls return, the [dt] the simulation is
    left with under [c1] is strictly smaller than the one it is left
    with under [c2], and neither exceeds [fix_dt]. *)
Theorem timestep_increases_with_cfl sim (u v Cfx Cfy : Field R) (c1 c2 : R) :
  get_velocity ext (world sim) = (u, v) →
  get_magnetosonic ext (world sim) = (Cfx, Cfy) →
  fields_on_grid u v Cfx Cfy →
  0 < dx (get_grid ext (world sim)) → 0 < dy (get_grid ext (world sim)) →
  (∀ i j, (i < fnx u)%nat → (j < fny u)%nat → 0 < fdata Cfx i j) →
  (∀ i j, (i < fnx v)%nat → (j < fny v)%nat → 0 < fdata Cfy i j) →
  0 < driver_fix_dt (rp sim) →
  0 < c1 → c1 < c2 → c2 <= 1 →
  ∃ sim1 sim2,
    method_compute_timestep ext (set_cfl c1 sim) = Some (tt, sim1)
    ∧ method_compute_timestep ext (set_cfl c2 sim) = Some (tt, sim2)
    ∧ dt sim1 < dt sim2
    ∧ dt sim1 <= driver_fix_dt (rp sim) ∧ dt sim2 <= driver_fix_dt (rp sim).
Proof.
  intros Hvel Hmag Hgrid Hdx Hdy HCfx HCfy Hfix Hc1 Hc12 Hc2.
  destruct (method_compute_timestep_sets_dt (set_cfl c1 sim) u v Cfx Cfy Hvel Hmag Hgrid)
    as (xmin & ymin & sim1 & Hx & Hy & Hrun1 & Hdt1 & _).
  destruct (method_compute_timestep_sets_dt (set_cfl c2 sim) u v Cfx Cfy Hvel Hmag Hgrid)
    as (xmin' & ymin' & sim2 & Hx' & Hy' & Hrun2 & Hdt2 & _).
  cbn [set_cfl world rp driver_cfl driver_fix_dt] in *.
  assert (Hxpos : 0 < xmin').
  { apply (min_over_cells_pos _ _ _ _ Hx'); intros i j Hi Hj.
    apply Rdiv_lt_0_compat; [exact Hdx|].
    pose proof (Rabs_pos (fdata u i j)); specialize (HCfx i j Hi Hj); lra. }
  assert (Hypos : 0 < ymin').
  { apply (min_over_cells_pos _ _ _ _ Hy'); intros i j Hi Hj.
    apply Rdiv_lt_0_compat; [exact Hdy|].
    pose proof (Rabs_pos (fdata v i j)); specialize (HCfy i j Hi Hj); lra. }
  assert (Hxeq : xmin = xmin').
  { destruct Hx as (Hle & i & j & Hi & Hj & Heq), Hx' as (Hle' & i' & j' & Hi' & Hj' & Heq').
    apply Rle_antisym.
    - rewrite Heq'; apply Hle; assumption.
    - rewrite Heq; apply Hle'; assumption. }
  assert (Hyeq : ymin = ymin').
  { destruct Hy as (Hle & i & j & Hi & Hj & Heq), Hy' as (Hle' & i' & j' & Hi' & Hj' & Heq').
    apply Rle_antisym.
    - rewrite Heq'; apply Hle; assumption.
    - rewrite Heq; apply Hle'; assumption. }
  subst xmin ymin.
  set (m := Rmin (Rmin xmin' ymin') (driver_fix_dt (rp sim))) in *.
  assert (Hm : 0 < m <= driver_fix_dt (rp sim)).
  { unfold m; split; [repeat apply Rmin_glb_lt; assumption | apply Rmin_r]. }
  exists sim1, sim2.
  split; [exact Hrun1|]. split; [exact Hrun2|].
  rewrite Hdt1, Hdt2.
  destruct Hm as [Hm0 Hmfix]. repeat split; nra.
Qed.

End TimestepFacts.


(** ** The registry, for any list of names *)

Lemma list_index_In (x : string) (names : list string) :
  In x names → ∃ k, list_index x names = Some k.
Proof.
  induction names as [|y names IH]; intros Hin; [destruct Hin|].
  cbn [list_index]; destruct (String.eqb y x) eqn:E; [eauto|].
  destruct Hin as [->|Hin]; [rewrite String.eqb_refl in E; discriminate|].
  destruct (IH Hin) as (k & ->); cbn; eauto.
Qed.

(** C6 (index map).  For a container whose names include the six
    mandatory ones, [Variables] is built, with [nvar] the number of
    names; when there are exactly six names, [irhox = ix = -1] and
    [naux = 0]; when there are seven or more, [ix = 6] (and
    [irhox = 6]) and [naux = nvar - 6]. *)
Theorem Variables_init_auxiliary (names : list string) :
  (∀ m, In m mandatory → In m names) →
  ∃ ivars,
    Variables_init names = Some ivars
    ∧ nvar ivars = Z.of_nat (length names)
    ∧ (length names = 6%nat →
       irhox ivars = (-1)%Z ∧ ix ivars = (-1)%Z ∧ naux ivars = 0%Z)
    ∧ ((7 ≤ length names)%nat →
       ix ivars = 6%Z ∧ irhox ivars = 6%Z ∧ naux ivars = (nvar ivars - 6)%Z).
Proof.
  intros Hall; unfold Variables_init.
  destruct (list_index_In "density" names) as (k1 & ->); [apply Hall; cbn; auto|].
  destruct (list_index_In "x-momentum" names) as (k2 & ->); [apply Hall; cbn; auto|].
  destruct (list_index_In "y-momentum" names) as (k3 & ->); [apply Hall; cbn; auto|].
  destruct (list_index_In "energy" names) as (k4 & ->); [apply Hall; cbn; auto 6|].
  destruct (list_index_In "x-magnetic-field" names) as (k5 & ->); [apply Hall; cbn; auto 7|].
  destruct (list_index_In "y-magnetic-field" names) as (k6 & ->); [apply Hall; cbn; auto 8|].
  cbn [mbind option_bind].
  eexists; split; [reflexivity|]; cbn [nvar irhox ix naux].
  split; [reflexivity|]. split.
  - intros ->; cbn; auto.
  - intros Hlen.
    destruct (Z.ltb_spec 0 (Z.of_nat (length names) - 6)); [auto | lia].
Qed.

(** C6 on the six mandatory names. *)
Lemma Variables_init_auxiliary_witness :
  ∃ ivars,
    Variables_init mandatory = Some ivars
    ∧ nvar ivars = Z.of_nat (length mandatory)
    ∧ (length mandatory = 6%nat →
       irhox ivars = (-1)%Z ∧ ix ivars = (-1)%Z ∧ naux ivars = 0%Z)
    ∧ ((7 ≤ length mandatory)%nat →
       ix ivars = 6%Z ∧ irhox ivars = 6%Z ∧ naux ivars = (nvar ivars - 6)%Z).
Proof.
  apply (Variables_init_auxiliary mandatory).
  intros m Hm; exact Hm.
Defined.

(** ** The registry: positions and errors *)

Lemma list_index_Some (x : string) (names : list string) (k : Z) :
  list_index x names = Some k →
  (0 ≤ k < Z.of_nat (length names))%Z
  ∧ nth_error names (Z.to_nat k) = Some x
  ∧ ∀ j, (j < Z.to_nat k)%nat → nth_error names j ≠ Some x.
Proof.
  revert k; induction names as [|y names IH]; intros k; cbn [list_index]; [discriminate|].
  destruct (String.eqb y x) eqn:E.
  - intros [= <-]; apply String.eqb_eq in E as ->.
    cbn; repeat split; try lia; intros j Hj; lia.
  - destruct (list_index x names) as [k'|]; [|discriminate].
    cbn; intros [= <-].
    destruct (IH k' eq_refl) as ((Hk0 & Hk1) & Hnth & Hfirst).
    replace (Z.to_nat (Z.succ k')) with (S (Z.to_nat k')) by lia.
    split; [cbn [length]; lia|]. split; [exact Hnth|].
    intros [|j] Hj; cbn.
    + intros [= ->]; rewrite String.eqb_refl in E; discriminate.
    + apply Hfirst; lia.
Qed.

Lemma list_index_None (x : string) (names : list string) :
  list_index x names = None ↔ ¬ In x names.
Proof.
  split.
  - intros Hnone Hin.
    destruct (list_index_In x names Hin) as (k & Hk); congruence.
  - intros Hnot; destruct (list_index x names) as [k|] eqn:E; [|reflexivity].
    exfalso; apply Hnot.
    apply list_index_Some in E as (_ & Hnth & _).
    eapply nth_error_In; exact Hnth.
Qed.

(** X1 (when [Variables] raises).  For every list of names,
    [Variables(ccd)] raises ([list.index] finds no position,
    [ValueError]) exactly when one of the six mandatory names is missing
    from [ccd.names]; extra names, repeated names and the order of the
    names never make it raise. *)
Theorem Variables_init_raises_iff (names : list string) :
  Variables_init names = None ↔ ∃ m, In m mandatory ∧ ¬ In m names.
Proof.
  split.
  - intros Hnone; unfold Variables_init in Hnone.
    destruct (list_index "density" names) eqn:E1;
      [|exists "density"; split; [cbn; auto | apply list_index_None, E1]].
    destruct (list_index "x-momentum" names) eqn:E2;
      [|exists "x-momentum"; split; [cbn; auto | apply list_index_None, E2]].
    destruct (list_index "y-momentum" names) eqn:E3;
      [|exists "y-momentum"; split; [cbn; auto | apply list_index_None, E3]].
    destruct (list_index "energy" names) eqn:E4;
      [|exists "energy"; split; [cbn; auto 6 | apply list_index_None, E4]].
    destruct (list_index "x-magnetic-field" names) eqn:E5;
      [|exists "x-magnetic-field"; split; [cbn; auto 7 | apply list_index_None, E5]].
    destruct (list_index "y-magnetic-field" names) eqn:E6;
      [|exists "y-magnetic-field"; split; [cbn; auto 8 | apply list_index_None, E6]].
    discriminate.
  - intros (m & Hm & Hnot).
    apply list_index_None in Hnot.
    unfold Variables_init.
    cbn in Hm.
    destruct Hm as [<-|[<-|[<-|[<-|[<-|[<-|[]]]]]]]; rewrite ?Hnot;
      repeat match goal with
             | |- context [list_index ?x names] =>
                 destruct (list_index x names); cbn [mbind option_bind]
             end;
      rewrite ?Hnot; try reflexivity; try discriminate.
Qed.

Lemma six_positions_length (m : nat) (k1 k2 k3 k4 k5 k6 : nat) :
  NoDup [k1; k2; k3; k4; k5; k6] →
  Forall (λ k, (k < m)%nat) [k1; k2; k3; k4; k5; k6] →
  (6 ≤ m)%nat.
Proof.
  intros Hnd Hall.
  assert (Hincl : incl [k1; k2; k3; k4; k5; k6] (seq 0 m)).
  { intros k Hk; apply in_seq; split; [lia|].
    rewrite Forall_forall in Hall; apply Hall, list_elem_of_In; exact Hk. }
  apply NoDup_ListNoDup in Hnd.
  pose proof (NoDup_incl_length Hnd Hincl) as Hlen.
  rewrite length_seq in Hlen; exact Hlen.
Qed.

(** X2 (the conserved indices are positions of the names).  Whenever
    [Variables(ccd)] returns, each of [idens], [ixmom], [iymom],
    [iener], [ixmag], [iymag] is a position of [ccd.names] that holds
    the name it is looked up by; the six are valid slot indices
    [0 <= k < nvar], pairwise different, so that [nvar >= 6] and
    [naux >= 0]; [nq = nvar]; and the primitive indices are
    [0, 1, 2, 3, 4, 5] whatever the order of the names. *)
Theorem Variables_init_positions (names : list string) (ivars : Variables) :
  Variables_init names = Some ivars →
  (name_at names (idens ivars) = Some "density"
   ∧ name_at names (ixmom ivars) = Some "x-momentum"
   ∧ name_at names (iymom ivars) = Some "y-momentum"
   ∧ name_at names (iener ivars) = Some "energy"
   ∧ name_at names (ixmag ivars) = Some "x-magnetic-field"
   ∧ name_at names (iymag ivars) = Some "y-magnetic-field")
  ∧ Forall (λ k, (0 ≤ k < nvar ivars)%Z)
           [idens ivars; ixmom ivars; iymom ivars;
            iener ivars; ixmag ivars; iymag ivars]
  ∧ NoDup [idens ivars; ixmom ivars; iymom ivars;
           iener ivars; ixmag ivars; iymag ivars]
  ∧ (6 ≤ nvar ivars)%Z ∧ (0 ≤ naux ivars)%Z
  ∧ nq ivars = nvar ivars
  ∧ [irho ivars; iu ivars; iv ivars; ip ivars; ibx ivars; iby ivars]
    = [0; 1; 2; 3; 4; 5]%Z.
Proof.
  unfold Variables_init; intros Hinit.
  destruct (list_index "density" names) as [k1|] eqn:E1; [|discriminate].
  destruct (list_index "x-momentum" names) as [k2|] eqn:E2; [|discriminate].
  destruct (list_index "y-momentum" names) as [k3|] eqn:E3; [|discriminate].
  destruct (list_index "energy" names) as [k4|] eqn:E4; [|discriminate].
  destruct (list_index "x-magnetic-field" names) as [k5|] eqn:E5; [|discriminate].
  destruct (list_index "y-magnetic-field" names) as [k6|] eqn:E6; [|discriminate].
  cbn [mbind option_bind] in Hinit; injection Hinit as <-.
  cbn [idens ixmom iymom iener ixmag iymag nvar naux nq irho iu iv ip ibx iby].
  apply list_index_Some in E1 as (B1 & N1 & _), E2 as (B2 & N2 & _),
        E3 as (B3 & N3 & _), E4 as (B4 & N4 & _),
        E5 as (B5 & N5 & _), E6 as (B6 & N6 & _).
  assert (Hnd : NoDup [k1; k2; k3; k4; k5; k6]).
  { repeat (apply NoDup_cons; split);
      [ .. | apply NoDup_nil; exact I ];
      rewrite ?not_elem_of_cons; repeat split;
      try (apply not_elem_of_nil);
      intros ->; congruence. }
  assert (Hlen : (6 ≤ length names)%nat).
  { apply (six_positions_length (length names) (Z.to_nat k1) (Z.to_nat k2) (Z.to_nat k3)
             (Z.to_nat k4) (Z.to_nat k5) (Z.to_nat k6)).
    - repeat (apply NoDup_cons; split);
        [ .. | apply NoDup_nil; exact I ];
        rewrite ?not_elem_of_cons; repeat split;
        try (apply not_elem_of_nil);
        intros Heq; congruence.
    - repeat (apply Forall_cons; split); try lia. apply Forall_nil; exact I. }
  split; [unfold name_at; auto 10|].
  split; [repeat (apply Forall_cons; split); try lia; apply Forall_nil; exact I|].
  split; [exact Hnd|].
  repeat split; try lia; reflexivity.
Qed.

(** ** The converter: more in exact arithmetic, frames and locality *)

Lemma prim_to_cons_cell_ext {T} {HA : Arith T} {HE : Eos T}
      (gamma : T) (q q' : nat → T) (k : nat) :
  (∀ m, (m ≤ 5)%nat ∨ m = k → q m = q' m) →
  prim_to_cons_cell gamma q k = prim_to_cons_cell gamma q' k.
Proof.
  intros Hq.
  pose proof (Hq 0%nat) as H0. pose proof (Hq 1%nat) as H1.
  pose proof (Hq 2%nat) as H2. pose proof (Hq 3%nat) as H3.
  pose proof (Hq 4%nat) as H4. pose proof (Hq 5%nat) as H5.
  pose proof (Hq k) as Hk.
  unfold prim_to_cons_cell.
  rewrite H0, H1, H2, H3, H4, H5, Hk by (first [left; lia | right; reflexivity]).
  reflexivity.
Qed.

Section ExactMore.
Context {E : Eos R}.
Local Open Scope R_scope.

Lemma reverse_round_trip_cell (gamma : R) (u : nat → R) (k : nat) :
  1e-10 < u 0%nat →
  1e-10 < pres gamma (u 0%nat) (eint_cell u) →
  eos_energy_consistent E gamma →
  prim_to_cons_cell gamma (cons_to_prim_cell gamma u) k = u k.
Proof.
  intros Hrho Hp Heos.
  assert (Hne : u 0%nat ≠ 0) by lra.
  assert (Hfl : floored_density u = u 0%nat).
  { arith_R. rewrite !(Rmax_floor_id (u 0%nat)) by assumption. reflexivity. }
  assert (He : eint_cell u
               = (u 3%nat - 0.5 * u 0%nat * (u 1%nat / u 0%nat * (u 1%nat / u 0%nat)
                                              + u 2%nat / u 0%nat * (u 2%nat / u 0%nat))
                  - 0.5 * (u 4%nat * u 4%nat + u 5%nat * u 5%nat)) / u 0%nat).
  { arith_R. rewrite !(Rmax_floor_id (u 0%nat)) by assumption. reflexivity. }
  pose proof (Heos _ _ Hrho Hp) as Hinv.
  set (p := pres gamma (u 0%nat) (eint_cell u)) in *.
  do 7 (try destruct k as [|k]);
    cbv beta iota delta [prim_to_cons_cell cons_to_prim_cell]; rewrite ?Hfl;
    fold p;
    cbv beta iota delta [aadd asub amul adiv amaximum asmall ahalf R_arith];
    rewrite ?(Rmax_floor_id (u 0%nat)) by assumption.
  - reflexivity.
  - field; exact Hne.
  - field; exact Hne.
  - rewrite !(Rmax_floor_id' p Hp), Hinv, He. field; exact Hne.
  - reflexivity.
  - reflexivity.
  - field; exact Hne.
  - field; exact Hne.
Qed.

End ExactMore.

Section FramesMore.
Context {T : Type} {HA : Arith T} {HE : Eos T}.

(** X4 (what [cons_to_prim] touches).  For every arithmetic, equation
    of state, index map and grid: when [cons_to_prim] returns, its
    result [q] is an object that did not exist before the call, differs
    from [U] and is in the store afterwards; every object other than
    [U] and [q] is exactly as it was. *)
Theorem cons_to_prim_frame (U : loc) (gamma : T) (ivars : Variables)
        (myg : Grid2d T) (h h' : gmap loc (Array T)) (AU : Array T) (q : loc) :
  h !! U = Some AU →
  cons_to_prim U gamma ivars myg h = Some (q, h') →
  h !! q = None ∧ q ≠ U ∧ is_Some (h' !! q)
  ∧ ∀ l, l ≠ U → l ≠ q → h' !! l = h !! l.
Proof.
  intros HU Hrun; unfold cons_to_prim in Hrun.
  apply bind_inv in Hrun as (q0 & h0 & Hscratch & Hrun).
  apply scratch_array_inv in Hscratch as (Hfresh & A0 & ->).
  assert (Hne : q0 ≠ U) by congruence.
  apply bind_inv in Hrun as (x & h1 & Hfloor & Hrun).
  assert (HwU : ∀ l, l ≠ U → h1 !! l = <[q0 := A0]> h !! l).
  { revert Hfloor.
    match goal with
    | |- ?m _ = _ → _ => assert (Hwr : writes_only U m) by solve_writes
    end.
    intros Hfloor; exact (Hwr _ _ _ Hfloor). }
  assert (Hq : q = q0).
  { repeat (apply bind_inv in Hrun as (? & ? & _ & Hrun)).
    injection Hrun as -> _; reflexivity. }
  subst q0.
  assert (Hwq : ∀ l, l ≠ q → h' !! l = h1 !! l).
  { revert Hrun.
    match goal with
    | |- ?m _ = _ → _ => assert (Hwr : writes_only q m) by solve_writes
    end.
    intros Hrun; exact (Hwr _ _ _ Hrun). }
  split; [exact Hfresh|]. split; [exact Hne|]. split.
  - (* the last statement to write [q] is [q[:, :, ip] = ...] or a loop
       statement; either way [q] is there at the end *)
    apply bind_inv in Hrun as (? & h2 & _ & Hrun).
    apply bind_inv in Hrun as (? & h3 & _ & Hrun).
    apply bind_inv in Hrun as (? & h4 & _ & Hrun).
    apply bind_inv in Hrun as (? & h5 & _ & Hrun).
    apply bind_inv in Hrun as (? & h6 & _ & Hrun).
    apply bind_inv in Hrun as (e & h7 & _ & Hrun).
    apply bind_inv in Hrun as (? & h8 & Hp & Hrun).
    apply assign_inv in Hp as (F & A & i & _ & _ & _ & ->); [|solve_reads].
    apply bind_inv in Hrun as (? & h9 & Hloop & Hrun).
    injection Hrun as <-.
    assert (Hkeep : ∀ (l : list (Z * Z)) (ha hb : gmap loc (Array T)) y,
               for_each l (λ '(nq, nu),
                  assign q nq (slice U nu / slice q (irho ivars))%arr) ha
               = Some (y, hb) →
               is_Some (ha !! q) → is_Some (hb !! q)).
    { induction l as [|[nq nu] l IH]; intros ha hb y Hl Hs; cbn [for_each] in Hl.
      - injection Hl as _ <-; exact Hs.
      - apply bind_inv in Hl as (? & hc & Hbody & Hl).
        apply assign_inv in Hbody as (F' & A' & i' & _ & _ & _ & ->); [|solve_reads].
        eapply IH; [exact Hl|]. rewrite lookup_insert_eq; eauto. }
    destruct (0 <? naux ivars)%Z.
    + eapply Hkeep; [exact Hloop|]. rewrite lookup_insert_eq; eauto.
    + injection Hloop as _ <-. rewrite lookup_insert_eq; eauto.
  - intros l HlU Hlq.
    rewrite Hwq, HwU by assumption.
    apply lookup_insert_ne; congruence.
Qed.

End FramesMore.

Section Locality.
Context {T : Type} {HA : Arith T} {HE : Eos T}.

(** X6 (no coupling between cells).  For every arithmetic and equation
    of state, and the index map of a simulation: if two arrays on the
    same grid agree on all slots of one cell [(i, j)], then the results
    of [cons_to_prim] on them agree on all slots of that cell, and so
    do the results of [prim_to_cons], whatever the other cells hold. *)
Theorem converters_act_cell_by_cell (extras : list string) (ivars : Variables)
        (gamma : T) (myg : Grid2d T) (h1 h2 : gmap loc (Array T)) (l1 l2 : loc)
        (A B : Array T) (i j : nat) :
  Variables_init (mandatory ++ extras) = Some ivars →
  h1 !! l1 = Some A → h2 !! l2 = Some B →
  anx A = qx myg → any A = qy myg → Z.of_nat (anvar A) = nvar ivars →
  anx B = qx myg → any B = qy myg → Z.of_nat (anvar B) = nvar ivars →
  (∀ k, (k < anvar A)%nat → adata A i j k = adata B i j k) →
  (∃ Qa Qb,
      returned (cons_to_prim l1 gamma ivars myg) h1 = Some Qa
      ∧ returned (cons_to_prim l2 gamma ivars myg) h2 = Some Qb
      ∧ ∀ k, (k < anvar A)%nat → adata Qa i j k = adata Qb i j k)
  ∧ (∃ Ua Ub,
      returned (prim_to_cons l1 gamma ivars myg) h1 = Some Ua
      ∧ returned (prim_to_cons l2 gamma ivars myg) h2 = Some Ub
      ∧ ∀ k, (k < anvar A)%nat → adata Ua i j k = adata Ub i j k).
Proof.
  intros Hiv H1 H2 HxA HyA HvA HxB HyB HvB Hcell.
  rewrite Variables_init_standard in Hiv; injection Hiv as <-.
  rewrite nvar_standard in HvA, HvB; apply Nat2Z.inj in HvA, HvB.
  rewrite HvA in Hcell |- *.
  split.
  - destruct (cons_to_prim_cells l1 gamma _ myg h1 A H1 HxA HyA HvA)
      as (Qa & Ua & Hra & _ & _ & Hqa & _).
    destruct (cons_to_prim_cells l2 gamma _ myg h2 B H2 HxB HyB HvB)
      as (Qb & Ub & Hrb & _ & _ & Hqb & _).
    exists Qa, Qb; unfold returned; rewrite Hra, Hrb, !lookup_insert_eq.
    split; [reflexivity|]. split; [reflexivity|].
    intros k Hk; rewrite Hqa, Hqb by exact Hk.
    apply cons_to_prim_cell_ext; intros m Hm; apply Hcell; lia.
  - destruct (prim_to_cons_cells l1 gamma _ myg h1 A H1 HxA HyA HvA)
      as (Ua & Hra & _ & _ & _ & Hua).
    destruct (prim_to_cons_cells l2 gamma _ myg h2 B H2 HxB HyB HvB)
      as (Ub & Hrb & _ & _ & _ & Hub).
    exists Ua, Ub; unfold returned; rewrite Hra, Hrb, !lookup_insert_eq.
    split; [reflexivity|]. split; [reflexivity|].
    intros k Hk; rewrite Hua, Hub by exact Hk.
    apply prim_to_cons_cell_ext; intros m Hm; apply Hcell; lia.
Qed.

End Locality.

Section ExactArrays.
Context {E : Eos R}.
Local Open Scope R_scope.

Lemma floored_density_pos (u : nat → R) : 1e-10 <= floored_density u.
Proof. arith_R; apply Rmax_r. Qed.

Lemma floored_density_idem (u : nat → R) :
  floored_density (floored_cell u) = floored_density u.
Proof.
  arith_R.
  rewrite !(Rmax_left (Rmax (u 0%nat) 1e-10) 1e-10) by apply Rmax_r.
  reflexivity.
Qed.

(** X7 (velocities and scalars against the floored density).  In
    exact arithmetic, for the index map of a simulation and every input
    [U] of the grid's shape: [cons_to_prim] returns, the primitive
    density is positive in every cell, and velocity times primitive
    density gives back the momentum of [U], as passive scalar times
    primitive density gives back the conserved scalar, also in the
    cells where the density was raised to the floor. *)
Theorem cons_to_prim_divides_by_floored_density
        (extras : list string) (ivars : Variables) (gamma : R)
        (myg : Grid2d R) (h : gmap loc (Array R)) (lU : loc) (U : Array R) :
  Variables_init (mandatory ++ extras) = Some ivars →
  h !! lU = Some U →
  anx U = qx myg → any U = qy myg → Z.of_nat (anvar U) = nvar ivars →
  ∃ Q,
    returned (cons_to_prim lU gamma ivars myg) h = Some Q
    ∧ ∀ i j,
        0 < entry Q i j (irho ivars)
        ∧ entry Q i j (iu ivars) * entry Q i j (irho ivars) = entry U i j (ixmom ivars)
        ∧ entry Q i j (iv ivars) * entry Q i j (irho ivars) = entry U i j (iymom ivars)
        ∧ ∀ k, (6 ≤ k < anvar U)%nat →
               adata Q i j k * entry Q i j (irho ivars) = adata U i j k.
Proof.
  intros Hiv Hl Hx Hy Hv.
  rewrite Variables_init_standard in Hiv; injection Hiv as <-.
  rewrite nvar_standard in Hv; apply Nat2Z.inj in Hv.
  destruct (cons_to_prim_cells lU gamma _ myg h U Hl Hx Hy Hv)
    as (Q & U' & Hrun & _ & _ & HQ & _).
  exists Q; unfold returned; rewrite Hrun, lookup_insert_eq.
  split; [reflexivity|].
  intros i j; norm_slots.
  pose proof (floored_density_pos (adata U i j)) as Hpos.
  rewrite !HQ by lia.
  cbv beta iota delta [cons_to_prim_cell].
  set (rho := floored_density (adata U i j)) in *.
  cbv beta iota delta [adiv R_arith].
  split; [lra|]. split; [field; lra|]. split; [field; lra|].
  intros k [Hk6 Hk]; rewrite HQ by lia.
  do 6 (destruct k as [|k]; [lia|]).
  cbv beta iota delta [cons_to_prim_cell]; fold rho.
  cbv beta iota delta [adiv R_arith]. field; lra.
Qed.

Lemma cons_to_prim_cell_floored (gamma : R) (u : nat → R) (k : nat) :
  cons_to_prim_cell gamma (floored_cell u) k = cons_to_prim_cell gamma u k.
Proof.
  assert (Hfl := floored_density_idem u).
  assert (He : eint_cell (floored_cell u) = eint_cell u).
  { unfold eint_cell; rewrite Hfl; reflexivity. }
  unfold cons_to_prim_cell; rewrite Hfl, He.
  do 6 (destruct k as [|k]; [reflexivity|]); reflexivity.
Qed.

(** X5 ([cons_to_prim] twice).  In exact arithmetic, for the index map
    of a simulation: calling [cons_to_prim] on the same object [U] a
    second time returns primitive variables equal to those of the first
    call, leaves [U] as the first call left it (the in-place floor
    changes [U] at most once), and leaves the first result untouched. *)
Theorem cons_to_prim_twice
        (extras : list string) (ivars : Variables) (gamma : R)
        (myg : Grid2d R) (h : gmap loc (Array R)) (lU : loc) (U : Array R) :
  Variables_init (mandatory ++ extras) = Some ivars →
  h !! lU = Some U →
  anx U = qx myg → any U = qy myg → Z.of_nat (anvar U) = nvar ivars →
  ∃ q1 h1 q2 h2 Q1 Q2 U1 U2,
    cons_to_prim lU gamma ivars myg h = Some (q1, h1)
    ∧ cons_to_prim lU gamma ivars myg h1 = Some (q2, h2)
    ∧ h1 !! q1 = Some Q1 ∧ h2 !! q2 = Some Q2 ∧ array_eq Q2 Q1
    ∧ h1 !! lU = Some U1 ∧ h2 !! lU = Some U2 ∧ array_eq U2 U1
    ∧ h2 !! q1 = Some Q1.
Proof.
  intros Hiv Hl Hx Hy Hv.
  rewrite Variables_init_standard in Hiv; injection Hiv as <-.
  rewrite nvar_standard in Hv; apply Nat2Z.inj in Hv.
  destruct (cons_to_prim_cells lU gamma _ myg h U Hl Hx Hy Hv)
    as (Q1 & U1 & Hrun1 & (HxQ1 & HyQ1 & HvQ1) & (HxU1 & HyU1 & HvU1) & HQ1 & HU1).
  pose proof (fresh_loc_ne h lU U Hl) as Hne1.
  set (q1 := fresh (dom h)) in *.
  set (h1 := <[q1 := Q1]> (<[lU := U1]> h)) in *.
  assert (Hl1 : h1 !! lU = Some U1).
  { unfold h1; rewrite lookup_insert_ne by exact Hne1. apply lookup_insert_eq. }
  assert (Hq1 : h1 !! q1 = Some Q1) by apply lookup_insert_eq.
  destruct (cons_to_prim_cells lU gamma _ myg h1 U1 Hl1 HxU1 HyU1 HvU1)
    as (Q2 & U2 & Hrun2 & (HxQ2 & HyQ2 & HvQ2) & (HxU2 & HyU2 & HvU2) & HQ2 & HU2).
  pose proof (fresh_loc_ne h1 lU U1 Hl1) as Hne2.
  pose proof (fresh_loc_ne h1 q1 Q1 Hq1) as Hne3.
  set (q2 := fresh (dom h1)) in *.
  exists q1, h1, q2, (<[q2 := Q2]> (<[lU := U2]> h1)), Q1, Q2, U1, U2.
  split; [exact Hrun1|]. split; [exact Hrun2|]. split; [exact Hq1|].
  split; [apply lookup_insert_eq|].
  split.
  { unfold array_eq; rewrite HxQ2, HyQ2, HvQ2, HxQ1, HyQ1, HvQ1.
    repeat (split; [reflexivity|]).
    intros i j k _ _ Hk; rewrite HQ2, HQ1 by exact Hk.
    rewrite <- (cons_to_prim_cell_floored gamma (adata U i j) k).
    apply cons_to_prim_cell_ext; intros m _; apply HU1. }
  split; [exact Hl1|].
  split; [rewrite lookup_insert_ne by exact Hne2; apply lookup_insert_eq|].
  split.
  { unfold array_eq; rewrite HxU2, HyU2, HvU2, HxU1, HyU1, HvU1.
    repeat (split; [reflexivity|]).
    intros i j k _ _ _; rewrite HU2.
    destruct k as [|k]; cbn [floored_cell]; [|reflexivity].
    rewrite HU1; arith_R. apply Rmax_left, Rmax_r. }
  rewrite !lookup_insert_ne by congruence. exact Hq1.
Qed.

(** X3 (the round trip from conserved variables).  In exact
    arithmetic, for the index map of a simulation and an equation of
    state whose [rhoe] undoes [pres]: on a conserved state whose density
    and pressure are above the floors in every cell, [cons_to_prim]
    followed by [prim_to_cons] returns, the result equals [U] in shape
    and in every entry, and the object [U] itself, which [cons_to_prim]
    writes to, still holds the same entries. *)
Theorem cons_prim_cons_round_trip
        (extras : list string) (ivars : Variables) (gamma : R)
        (myg : Grid2d R) (h : gmap loc (Array R)) (lU : loc) (U : Array R) :
  Variables_init (mandatory ++ extras) = Some ivars →
  h !! lU = Some U →
  anx U = qx myg → any U = qy myg → Z.of_nat (anvar U) = nvar ivars →
  valid_cons E gamma U →
  eos_energy_consistent E gamma →
  ∃ lq h1 lU' h2 U' U1,
    cons_to_prim lU gamma ivars myg h = Some (lq, h1)
    ∧ prim_to_cons lq gamma ivars myg h1 = Some (lU', h2)
    ∧ h2 !! lU' = Some U' ∧ array_eq U' U
    ∧ h2 !! lU = Some U1 ∧ array_eq U1 U.
Proof.
  intros Hiv Hl Hx Hy Hv Hvalid Heos.
  rewrite Variables_init_standard in Hiv; injection Hiv as <-.
  rewrite nvar_standard in Hv; apply Nat2Z.inj in Hv.
  destruct (cons_to_prim_cells lU gamma _ myg h U Hl Hx Hy Hv)
    as (Q & U1 & Hrun1 & (HxQ & HyQ & HvQ) & (HxU1 & HyU1 & HvU1) & HQ & HU1).
  pose proof (fresh_loc_ne h lU U Hl) as Hne1.
  set (lq := fresh (dom h)) in *.
  set (h1 := <[lq := Q]> (<[lU := U1]> h)) in *.
  assert (Hq1 : h1 !! lq = Some Q) by apply lookup_insert_eq.
  assert (Hl1 : h1 !! lU = Some U1).
  { unfold h1; rewrite lookup_insert_ne by exact Hne1. apply lookup_insert_eq. }
  destruct (prim_to_cons_cells lq gamma _ myg h1 Q Hq1 HxQ HyQ HvQ)
    as (U' & Hrun2 & HxU' & HyU' & HvU' & HU').
  pose proof (fresh_loc_ne h1 lU U1 Hl1) as Hne2.
  exists lq, h1, (fresh (dom h1)), (<[fresh (dom h1) := U']> h1), U', U1.
  split; [exact Hrun1|]. split; [exact Hrun2|].
  split; [apply lookup_insert_eq|].
  split.
  { unfold array_eq; rewrite HxU', HyU', HvU', Hx, Hy, Hv.
    repeat (split; [reflexivity|]).
    intros i j k Hi Hj Hk.
    destruct (Hvalid i j) as [Hrho Hp]; [lia | lia |].
    rewrite HU' by exact Hk.
    rewrite <- (reverse_round_trip_cell gamma (adata U i j) k Hrho Hp Heos).
    apply prim_to_cons_cell_ext; intros m Hm; apply HQ; lia. }
  split; [rewrite lookup_insert_ne by exact Hne2; exact Hl1|].
  unfold array_eq; rewrite HxU1, HyU1, HvU1, Hx, Hy, Hv.
  repeat (split; [reflexivity|]).
  intros i j k Hi Hj _; rewrite HU1.
  destruct (Hvalid i j) as [Hrho _]; [lia | lia |].
  destruct k as [|k]; cbn [floored_cell]; [|reflexivity].
  arith_R. apply Rmax_left; lra.
Qed.

End ExactArrays.

Section ExactAnyInput.
Context {E : Eos R}.
Local Open Scope R_scope.

Lemma round_trip_cell_any (gamma : R) (c : nat → R) :
  cons_to_prim_cell gamma (prim_to_cons_cell gamma c) 0 = Rmax (c 0%nat) 1e-10
  ∧ cons_to_prim_cell gamma (prim_to_cons_cell gamma c) 1 = c 1%nat
  ∧ cons_to_prim_cell gamma (prim_to_cons_cell gamma c) 2 = c 2%nat
  ∧ 1e-10 <= cons_to_prim_cell gamma (prim_to_cons_cell gamma c) 3
  ∧ cons_to_prim_cell gamma (prim_to_cons_cell gamma c) 4 = c 4%nat
  ∧ cons_to_prim_cell gamma (prim_to_cons_cell gamma c) 5 = c 5%nat
  ∧ ∀ k, (6 ≤ k)%nat →
         cons_to_prim_cell gamma (prim_to_cons_cell gamma c) k * Rmax (c 0%nat) 1e-10
         = c k * c 0%nat.
Proof.
  assert (Hpos : 1e-10 <= Rmax (c 0%nat) 1e-10) by apply Rmax_r.
  assert (Hfl : floored_density (prim_to_cons_cell gamma c) = Rmax (c 0%nat) 1e-10).
  { arith_R. rewrite !(Rmax_left (Rmax (c 0%nat) 1e-10) 1e-10) by exact Hpos.
    reflexivity. }
  cbv beta iota delta [cons_to_prim_cell]; rewrite Hfl.
  set (r := Rmax (c 0%nat) 1e-10) in *.
  split; [reflexivity|].
  split; [arith_R; fold r; field; lra|].
  split; [arith_R; fold r; field; lra|].
  split; [cbv beta iota delta [amaximum asmall R_arith]; apply Rmax_l|].
  split; [reflexivity|]. split; [reflexivity|].
  intros k Hk; do 6 (destruct k as [|k]; [lia|]).
  cbv beta iota delta [prim_to_cons_cell adiv amul R_arith]. field; lra.
Qed.

(** X17 (the round trip on any input).  In exact arithmetic, for
    the index map of a simulation, every equation of state and every
    primitive array of the grid's shape, also with densities or
    pressures below the floors: [prim_to_cons] followed by
    [cons_to_prim] returns; the density comes back floored at [1e-10],
    the velocities and the magnetic field come back unchanged, the
    pressure comes back at least [1e-10], and a passive scalar comes
    back scaled: scalar times floored density equals the scalar as
    given times the density as given. *)
Theorem round_trip_below_the_floors
        (extras : list string) (ivars : Variables) (gamma : R)
        (myg : Grid2d R) (h : gmap loc (Array R)) (lq : loc) (Q : Array R) :
  Variables_init (mandatory ++ extras) = Some ivars →
  h !! lq = Some Q →
  anx Q = qx myg → any Q = qy myg → Z.of_nat (anvar Q) = nq ivars →
  ∃ lU h1 lq' h2 Q',
    prim_to_cons lq gamma ivars myg h = Some (lU, h1)
    ∧ cons_to_prim lU gamma ivars myg h1 = Some (lq', h2)
    ∧ h2 !! lq' = Some Q'
    ∧ (anx Q' = anx Q ∧ any Q' = any Q ∧ anvar Q' = anvar Q)
    ∧ ∀ i j,
        entry Q' i j (irho ivars) = Rmax (entry Q i j (irho ivars)) 1e-10
        ∧ entry Q' i j (iu ivars) = entry Q i j (iu ivars)
        ∧ entry Q' i j (iv ivars) = entry Q i j (iv ivars)
        ∧ 1e-10 <= entry Q' i j (ip ivars)
        ∧ entry Q' i j (ibx ivars) = entry Q i j (ibx ivars)
        ∧ entry Q' i j (iby ivars) = entry Q i j (iby ivars)
        ∧ ∀ k, (6 ≤ k < anvar Q)%nat →
               adata Q' i j k * entry Q' i j (irho ivars)
               = adata Q i j k * entry Q i j (irho ivars).
Proof.
  intros Hiv Hq Hx Hy Hv.
  rewrite Variables_init_standard in Hiv; injection Hiv as <-.
  rewrite nq_standard in Hv; apply Nat2Z.inj in Hv.
  destruct (prim_to_cons_cells lq gamma (length extras) myg h Q Hq Hx Hy Hv)
    as (AU & Hrun1 & HxU & HyU & HvU & HU).
  destruct (cons_to_prim_cells (fresh (dom h)) gamma (length extras) myg
                               (<[fresh (dom h) := AU]> h) AU
                               (lookup_insert_eq _ _ _) HxU HyU HvU)
    as (Q' & AU' & Hrun2 & (HxQ & HyQ & HvQ) & _ & HQ' & _).
  eexists _, _, _, _, Q'.
  split; [exact Hrun1|]. split; [exact Hrun2|].
  split; [apply lookup_insert_eq|].
  split; [rewrite HxQ, HyQ, HvQ, Hx, Hy, Hv; auto|].
  intros i j.
  assert (Hcell : ∀ k, (k < 6 + length extras)%nat →
            adata Q' i j k
            = cons_to_prim_cell gamma (prim_to_cons_cell gamma (adata Q i j)) k).
  { intros k Hk; rewrite HQ' by exact Hk.
    apply cons_to_prim_cell_ext; intros m Hm; apply HU; lia. }
  destruct (round_trip_cell_any gamma (adata Q i j))
    as (H0 & H1 & H2 & H3 & H4 & H5 & Haux).
  norm_slots.
  rewrite !Hcell by lia.
  repeat (split; [assumption|]).
  intros k [Hk6 Hk]; rewrite Hcell by lia.
  rewrite H0; apply Haux, Hk6.
Qed.

End ExactAnyInput.

(** ** The density floor in binary64 *)

Section Binary64.
Context {E : Eos float}.

Lemma np_maximum_nan (d s : float) :
  PrimFloat.is_nan d = true → np_maximum d s = d.
Proof. intros Hnan; unfold np_maximum; rewrite Hnan, orb_true_r; reflexivity. Qed.

Lemma np_maximum_floor_twice (d : float) :
  PrimFloat.is_nan d = false →
  PrimFloat.leb 1e-10 (np_maximum (np_maximum d 1e-10) 1e-10) = true.
Proof.
  intros Hnan.
  assert (H1 : PrimFloat.leb 1e-10 (np_maximum d 1e-10) = true).
  { unfold np_maximum; rewrite Hnan, orb_false_r.
    destruct (PrimFloat.leb 1e-10 d) eqn:Ed; [exact Ed | reflexivity]. }
  unfold np_maximum at 1; rewrite H1; exact H1.
Qed.

(** X8 (the density floor in binary64).  For the index map of a
    simulation, every equation of state and every binary64 input of the
    grid's shape, both converters return; in a cell whose input density
    is not NaN the output density compares [>= 1e-10], and in a cell
    whose input density is NaN the output density is that same NaN:
    [np.maximum] passes it through both floors. *)
Theorem density_floor_binary64
        (extras : list string) (ivars : Variables) (gamma : float)
        (myg : Grid2d float) (h : gmap loc (Array float)) (l : loc)
        (A : Array float) :
  Variables_init (mandatory ++ extras) = Some ivars →
  h !! l = Some A →
  anx A = qx myg → any A = qy myg → Z.of_nat (anvar A) = nvar ivars →
  ∃ Q U,
    returned (cons_to_prim l gamma ivars myg) h = Some Q
    ∧ returned (prim_to_cons l gamma ivars myg) h = Some U
    ∧ ∀ i j,
        (PrimFloat.is_nan (adata A i j 0%nat) = false →
         PrimFloat.leb 1e-10 (entry Q i j (irho ivars)) = true
         ∧ PrimFloat.leb 1e-10 (entry U i j (idens ivars)) = true)
        ∧ (PrimFloat.is_nan (adata A i j 0%nat) = true →
           entry Q i j (irho ivars) = adata A i j 0%nat
           ∧ entry U i j (idens ivars) = adata A i j 0%nat).
Proof.
  intros Hiv Hl Hx Hy Hv.
  rewrite Variables_init_standard in Hiv; injection Hiv as <-.
  rewrite nvar_standard in Hv; apply Nat2Z.inj in Hv.
  destruct (cons_to_prim_cells l gamma _ myg h A Hl Hx Hy Hv)
    as (Q & A' & Hrun1 & _ & _ & HQ & _).
  destruct (prim_to_cons_cells l gamma _ myg h A Hl Hx Hy Hv)
    as (U & Hrun2 & _ & _ & _ & HU).
  exists Q, U; unfold returned; rewrite Hrun1, Hrun2, !lookup_insert_eq.
  split; [reflexivity|]. split; [reflexivity|].
  intros i j; unfold entry; cbn [standard_ivars irho idens].
  change (Z.to_nat 0) with 0%nat.
  rewrite HQ, HU by lia.
  cbn [cons_to_prim_cell prim_to_cons_cell].
  unfold floored_density; cbn [amaximum asmall F_arith].
  split; intros Hnan.
  - split; [apply np_maximum_floor_twice, Hnan|].
    unfold np_maximum; rewrite Hnan, orb_false_r.
    destruct (PrimFloat.leb 1e-10 (adata A i j 0%nat)) eqn:Ed; [exact Ed | reflexivity].
  - rewrite !(np_maximum_nan _ _ Hnan); auto.
Qed.

End Binary64.

(** ** Arrays with too few slots *)

Section Slots.
Context {T : Type} {HA : Arith T} {HE : Eos T}.
Implicit Types (h : gmap loc (Array T)) (l : loc) (e : M T (Field T)).

Lemma norm_index_nonneg_inv (n : nat) (k : Z) (i : nat) :
  norm_index n k = Some i → (0 ≤ k)%Z → (k < Z.of_nat n)%Z.
Proof.
  unfold norm_index.
  destruct ((0 <=? k) && (k <? Z.of_nat n))%Z eqn:E1.
  - apply andb_true_iff in E1 as [_ E2]; apply Z.ltb_lt in E2; intros; exact E2.
  - destruct ((- Z.of_nat n <=? k) && (k <? 0))%Z eqn:E2; [|discriminate].
    apply andb_true_iff in E2 as [_ E3]; apply Z.ltb_lt in E3; lia.
Qed.

Lemma slice_needs_slot l (k : Z) h (F : Field T) h' (m : nat) :
  slice l k h = Some (F, h') → has_slots h l m → (0 ≤ k)%Z → (k < Z.of_nat m)%Z.
Proof.
  unfold slice; intros Hrun (A & Hl & <-) Hk.
  apply bind_inv in Hrun as (A' & h1 & Hload & Hrun).
  unfold load in Hload; rewrite Hl in Hload; injection Hload as <- <-.
  apply bind_inv in Hrun as (i & h2 & Hi & _).
  destruct (norm_index (anvar A) k) as [i'|] eqn:Hidx; [|discriminate].
  eapply norm_index_nonneg_inv; eassumption.
Qed.

Lemma eop1_inv (f : T → T) e h (F : Field T) h' :
  eop1 f e h = Some (F, h') → ∃ G, e h = Some (G, h').
Proof.
  unfold eop1; intros Hrun.
  apply bind_inv in Hrun as (G & h1 & He & Hret).
  injection Hret as _ <-; eauto.
Qed.

Lemma eop2_inv_l (f : T → T → T) e1 e2 h (F : Field T) h' :
  eop2 f e1 e2 h = Some (F, h') → ∃ G h1, e1 h = Some (G, h1).
Proof.
  unfold eop2; intros Hrun.
  apply bind_inv in Hrun as (G & h1 & He & _); eauto.
Qed.

Lemma assign_has_slots l' (k : Z) e h (x : unit) h1 l (m : nat) :
  assign l' k e h = Some (x, h1) → has_slots h l m → reads_only e →
  has_slots h1 l m.
Proof.
  intros Hrun (A & Hl & Hm) He.
  apply assign_inv in Hrun as (F & A' & i & _ & Hl' & _ & ->); [|exact He].
  destruct (decide (l = l')) as [->|Hne].
  - rewrite Hl in Hl'; injection Hl' as <-.
    exists (set_slot A i F); split; [apply lookup_insert_eq | exact Hm].
  - exists A; split; [|exact Hm].
    rewrite lookup_insert_ne by congruence; exact Hl.
Qed.

Lemma for_each_has_slots {X} (xs : list X) (body : X → M T unit) l (m : nat) :
  (∀ x h y h1, body x h = Some (y, h1) → has_slots h l m → has_slots h1 l m) →
  ∀ h y h' x,
    for_each xs body h = Some (y, h') → has_slots h l m → In x xs →
    ∃ hx yx hx', body x hx = Some (yx, hx') ∧ has_slots hx l m.
Proof.
  intros Hbody; induction xs as [|x0 xs IH]; intros h y h' x Hrun Hs Hin;
    [destruct Hin|].
  cbn [for_each] in Hrun.
  apply bind_inv in Hrun as (y0 & h0 & Hb & Hrun).
  destruct Hin as [<-|Hin]; [eauto 6|].
  eapply IH; [exact Hrun | eapply Hbody; eassumption | exact Hin].
Qed.

Lemma last_pair_in_loop (n : nat) :
  (0 < n)%nat →
  In (Z.of_nat (6 + n) - 1, Z.of_nat (6 + n) - 1)%Z
     (combine (range 6 (6 + Z.of_nat n)) (range 6 (6 + Z.of_nat n))).
Proof.
  intros Hn.
  change 6%Z with (Z.of_nat 6); rewrite range_seq.
  assert (Hgen : ∀ (l : list nat) (a : nat),
             In a l → In (Z.of_nat a, Z.of_nat a)
                         (combine (map Z.of_nat l) (map Z.of_nat l))).
  { induction l as [|b l IH]; intros a; [intros []|].
    intros [->|Hin]; [left; reflexivity | right; apply IH, Hin]. }
  replace (Z.of_nat (6 + n) - 1)%Z with (Z.of_nat (5 + n)) by lia.
  apply Hgen, in_seq; lia.
Qed.

End Slots.

Section ShortArrays.
Context {T : Type} {HA : Arith T} {HE : Eos T}.

Lemma Variables_init_fields (names : list string) (ivars : Variables) :
  Variables_init names = Some ivars →
  (0 ≤ idens ivars ∧ 0 ≤ ixmom ivars ∧ 0 ≤ iymom ivars
   ∧ 0 ≤ iener ivars ∧ 0 ≤ ixmag ivars ∧ 0 ≤ iymag ivars)%Z
  ∧ NoDup [idens ivars; ixmom ivars; iymom ivars;
           iener ivars; ixmag ivars; iymag ivars]
  ∧ naux ivars = (nvar ivars - 6)%Z ∧ nq ivars = nvar ivars
  ∧ (6 ≤ nvar ivars)%Z
  ∧ (irho ivars = 0 ∧ iu ivars = 1 ∧ iv ivars = 2
     ∧ ip ivars = 3 ∧ ibx ivars = 4 ∧ iby ivars = 5)%Z
  ∧ ((0 < naux ivars)%Z → ix ivars = 6%Z ∧ irhox ivars = 6%Z).
Proof.
  unfold Variables_init; intros Hinit.
  destruct (list_index "density" names) as [k1|] eqn:E1; [|discriminate].
  destruct (list_index "x-momentum" names) as [k2|] eqn:E2; [|discriminate].
  destruct (list_index "y-momentum" names) as [k3|] eqn:E3; [|discriminate].
  destruct (list_index "energy" names) as [k4|] eqn:E4; [|discriminate].
  destruct (list_index "x-magnetic-field" names) as [k5|] eqn:E5; [|discriminate].
  destruct (list_index "y-magnetic-field" names) as [k6|] eqn:E6; [|discriminate].
  cbn [mbind option_bind] in Hinit; injection Hinit as <-.
  cbn [idens ixmom iymom iener ixmag iymag nvar naux nq irho iu iv ip ibx iby ix irhox].
  apply list_index_Some in E1 as (B1 & N1 & _), E2 as (B2 & N2 & _),
        E3 as (B3 & N3 & _), E4 as (B4 & N4 & _),
        E5 as (B5 & N5 & _), E6 as (B6 & N6 & _).
  assert (Hnd : NoDup [k1; k2; k3; k4; k5; k6]).
  { repeat (apply NoDup_cons; split);
      [ .. | apply NoDup_nil; exact I ];
      rewrite ?not_elem_of_cons; repeat split;
      try (apply not_elem_of_nil);
      intros ->; congruence. }
  assert (Hlen : (6 ≤ length names)%nat).
  { apply (six_positions_length (length names) (Z.to_nat k1) (Z.to_nat k2) (Z.to_nat k3)
             (Z.to_nat k4) (Z.to_nat k5) (Z.to_nat k6)).
    - repeat (apply NoDup_cons; split);
        [ .. | apply NoDup_nil; exact I ];
        rewrite ?not_elem_of_cons; repeat split;
        try (apply not_elem_of_nil);
        intros Heq; congruence.
    - repeat (apply Forall_cons; split); try lia. apply Forall_nil; exact I. }
  split; [lia|]. split; [exact Hnd|].
  split; [reflexivity|]. split; [lia|]. split; [lia|].
  split; [repeat split|].
  intros Hpos; apply Z.ltb_lt in Hpos; rewrite Hpos; auto.
Qed.

Lemma six_below (m : nat) (k1 k2 k3 k4 k5 k6 : Z) :
  NoDup [k1; k2; k3; k4; k5; k6] →
  Forall (λ k, (0 ≤ k < Z.of_nat m)%Z) [k1; k2; k3; k4; k5; k6] →
  (6 ≤ m)%nat.
Proof.
  intros Hnd Hall.
  apply (six_positions_length m (Z.to_nat k1) (Z.to_nat k2) (Z.to_nat k3)
           (Z.to_nat k4) (Z.to_nat k5) (Z.to_nat k6)).
  - change (NoDup (Z.to_nat <$> [k1; k2; k3; k4; k5; k6])).
    apply NoDup_fmap_2_strong; [|exact Hnd].
    intros x y Hx Hy Heq.
    rewrite Forall_forall in Hall.
    apply Hall in Hx, Hy; cbn beta in Hx, Hy. lia.
  - change (Forall (λ k, (k < m)%nat) (Z.to_nat <$> [k1; k2; k3; k4; k5; k6])).
    apply Forall_fmap; eapply Forall_impl; [exact Hall|].
    intros k Hk; unfold compose; cbn beta in Hk |- *; lia.
Qed.

Lemma scratch_has_slots (myg : Grid2d T) (n : Z) (h h0 : gmap loc (Array T))
      (l0 l : loc) (m : nat) :
  scratch_array myg n h = Some (l0, h0) → has_slots h l m →
  l0 ≠ l ∧ has_slots h0 l m.
Proof.
  intros Hscratch (A & Hl & Hm).
  apply scratch_array_inv in Hscratch as (Hfresh & A0 & ->).
  assert (Hne : l0 ≠ l) by congruence.
  split; [exact Hne|].
  exists A; split; [|exact Hm].
  rewrite lookup_insert_ne by exact Hne; exact Hl.
Qed.

Lemma assign_reads (l : loc) (k : Z) (e : M T (Field T))
      (h h1 : gmap loc (Array T)) (x : unit) :
  reads_only e → assign l k e h = Some (x, h1) → ∃ F, e h = Some (F, h).
Proof.
  intros He Hrun.
  apply assign_inv in Hrun as (F & _ & _ & HF & _); [eauto | exact He].
Qed.

(** X9 (arrays with too few slots).  For every list of names that
    [Variables] accepts, every arithmetic, equation of state and grid:
    if the array handed to [cons_to_prim] or to [prim_to_cons] has fewer
    slots along its last axis than there are names ([nvar]), the call
    raises (numpy's [IndexError]); neither converter ever returns on
    such an input. *)
Theorem converters_raise_on_short_arrays
        (names : list string) (ivars : Variables) (gamma : T) (myg : Grid2d T)
        (h : gmap loc (Array T)) (l : loc) (A : Array T) :
  Variables_init names = Some ivars →
  h !! l = Some A →
  (Z.of_nat (anvar A) < nvar ivars)%Z →
  cons_to_prim l gamma ivars myg h = None
  ∧ prim_to_cons l gamma ivars myg h = None.
Proof.
  intros Hiv Hl Hshort.
  destruct (Variables_init_fields names ivars Hiv)
    as ((P1 & P2 & P3 & P4 & P5 & P6) & Hnd & Hnaux & Hnq & Hnvar
        & (Irho & Iu & Iv & Ip & Ibx & Iby) & Hloopidx).
  set (m := anvar A) in *.
  assert (HS : has_slots h l m) by (exists A; auto).
  assert (Hlast : (0 < naux ivars)%Z →
            In (nvar ivars - 1, nvar ivars - 1)%Z
               (combine (range (ix ivars) (ix ivars + naux ivars))
                        (range (irhox ivars) (irhox ivars + naux ivars)))).
  { intros Hpos; destruct (Hloopidx Hpos) as [-> ->].
    pose proof (last_pair_in_loop (Z.to_nat (naux ivars)) ltac:(lia)) as Hin.
    rewrite Z2Nat.id in Hin by lia.
    replace (Z.of_nat (6 + Z.to_nat (naux ivars)) - 1)%Z with (nvar ivars - 1)%Z
      in Hin by lia.
    exact Hin. }
  split.
  - destruct (cons_to_prim l gamma ivars myg h) as [[q h']|] eqn:Hrun;
      [exfalso | reflexivity].
    unfold cons_to_prim in Hrun.
    apply bind_inv in Hrun as (q0 & h0 & Hscratch & Hrun).
    destruct (scratch_has_slots _ _ _ _ _ l m Hscratch HS) as [Hne HS0].
    (* U[:, :, idens] = maximum(U[:, :, idens], smallrho) *)
    apply bind_inv in Hrun as (? & h1 & Hst & Hrun).
    pose proof (assign_has_slots _ _ _ _ _ _ l m Hst HS0 ltac:(solve_reads)) as HS1.
    apply assign_reads in Hst as (? & Hst); [|solve_reads].
    apply eop1_inv in Hst as (? & Hst).
    pose proof (slice_needs_slot _ _ _ _ _ _ Hst HS0 P1) as B1.
    (* q[:, :, irho] *)
    apply bind_inv in Hrun as (? & h2 & Hst2 & Hrun).
    pose proof (assign_has_slots _ _ _ _ _ _ l m Hst2 HS1 ltac:(solve_reads)) as HS2.
    (* q[:, :, iu] *)
    apply bind_inv in Hrun as (? & h3 & Hst3 & Hrun).
    pose proof (assign_has_slots _ _ _ _ _ _ l m Hst3 HS2 ltac:(solve_reads)) as HS3.
    apply assign_reads in Hst3 as (? & Hst3); [|solve_reads].
    apply eop2_inv_l in Hst3 as (? & ? & Hst3).
    pose proof (slice_needs_slot _ _ _ _ _ _ Hst3 HS2 P2) as B2.
    (* q[:, :, iv] *)
    apply bind_inv in Hrun as (? & h4 & Hst4 & Hrun).
    pose proof (assign_has_slots _ _ _ _ _ _ l m Hst4 HS3 ltac:(solve_reads)) as HS4.
    apply assign_reads in Hst4 as (? & Hst4); [|solve_reads].
    apply eop2_inv_l in Hst4 as (? & ? & Hst4).
    pose proof (slice_needs_slot _ _ _ _ _ _ Hst4 HS3 P3) as B3.
    (* q[:, :, ibx] *)
    apply bind_inv in Hrun as (? & h5 & Hst5 & Hrun).
    pose proof (assign_has_slots _ _ _ _ _ _ l m Hst5 HS4 ltac:(solve_reads)) as HS5.
    apply assign_reads in Hst5 as (? & Hst5); [|solve_reads].
    pose proof (slice_needs_slot _ _ _ _ _ _ Hst5 HS4 P5) as B5.
    (* q[:, :, iby] *)
    apply bind_inv in Hrun as (? & h6 & Hst6 & Hrun).
    pose proof (assign_has_slots _ _ _ _ _ _ l m Hst6 HS5 ltac:(solve_reads)) as HS6.
    apply assign_reads in Hst6 as (? & Hst6); [|solve_reads].
    pose proof (slice_needs_slot _ _ _ _ _ _ Hst6 HS5 P6) as B6.
    (* e *)
    apply bind_inv in Hrun as (e & h7 & He & Hrun).
    assert (h7 = h6) as ->.
    { revert He.
      match goal with
      | |- ?ex _ = _ → _ => assert (Hr : reads_only ex) by solve_reads
      end.
      intros He; exact (Hr _ _ _ He). }
    apply eop2_inv_l in He as (? & ? & He).
    apply eop2_inv_l in He as (? & ? & He).
    apply eop2_inv_l in He as (? & ? & He).
    pose proof (slice_needs_slot _ _ _ _ _ _ He HS6 P4) as B4.
    (* q[:, :, ip] *)
    apply bind_inv in Hrun as (? & h8 & Hst8 & Hrun).
    pose proof (assign_has_slots _ _ _ _ _ _ l m Hst8 HS6 ltac:(solve_reads)) as HS8.
    apply bind_inv in Hrun as (? & h9 & Hloop & _).
    destruct (Z.ltb_spec 0 (naux ivars)) as [Hpos|Hnone].
    + edestruct (λ Hb, for_each_has_slots _ _ l m Hb _ _ _ _ Hloop HS8 (Hlast Hpos))
        as (hx & yx & hx' & Hbody & HSx).
      { intros [nq0 nu0] ha ya hb Hb Hs.
        exact (assign_has_slots _ _ _ _ _ _ l m Hb Hs ltac:(solve_reads)). }
      apply assign_reads in Hbody as (? & Hbody); [|solve_reads].
      apply eop2_inv_l in Hbody as (? & ? & Hbody).
      pose proof (slice_needs_slot _ _ _ _ _ _ Hbody HSx ltac:(lia)) as Bl.
      lia.
    + assert (H6 : (6 ≤ m)%nat).
      { apply (six_below m _ _ _ _ _ _ Hnd).
        rewrite !Forall_cons, Forall_nil; repeat (split; [lia|]); exact I. }
      lia.
  - destruct (prim_to_cons l gamma ivars myg h) as [[U h']|] eqn:Hrun;
      [exfalso | reflexivity].
    unfold prim_to_cons in Hrun.
    apply bind_inv in Hrun as (U0 & h0 & Hscratch & Hrun).
    destruct (scratch_has_slots _ _ _ _ _ l m Hscratch HS) as [Hne HS0].
    apply bind_inv in Hrun as (? & h1 & Hst1 & Hrun).
    pose proof (assign_has_slots _ _ _ _ _ _ l m Hst1 HS0 ltac:(solve_reads)) as HS1.
    apply bind_inv in Hrun as (? & h2 & Hst2 & Hrun).
    pose proof (assign_has_slots _ _ _ _ _ _ l m Hst2 HS1 ltac:(solve_reads)) as HS2.
    apply bind_inv in Hrun as (? & h3 & Hst3 & Hrun).
    pose proof (assign_has_slots _ _ _ _ _ _ l m Hst3 HS2 ltac:(solve_reads)) as HS3.
    apply bind_inv in Hrun as (? & h4 & Hst4 & Hrun).
    pose proof (assign_has_slots _ _ _ _ _ _ l m Hst4 HS3 ltac:(solve_reads)) as HS4.
    (* U[:, :, iymag] = q[:, :, iby] *)
    apply bind_inv in Hrun as (? & h5 & Hst5 & Hrun).
    pose proof (assign_has_slots _ _ _ _ _ _ l m Hst5 HS4 ltac:(solve_reads)) as HS5.
    apply assign_reads in Hst5 as (? & Hst5); [|solve_reads].
    pose proof (slice_needs_slot _ _ _ _ _ _ Hst5 HS4 ltac:(lia)) as B5.
    (* rhoe *)
    apply bind_inv in Hrun as (e & h6 & He & Hrun).
    assert (h6 = h5) as ->.
    { revert He.
      match goal with
      | |- ?ex _ = _ → _ => assert (Hr : reads_only ex) by solve_reads
      end.
      intros He; exact (Hr _ _ _ He). }
    apply bind_inv in Hrun as (? & h7 & Hst7 & Hrun).
    pose proof (assign_has_slots _ _ _ _ _ _ l m Hst7 HS5 ltac:(solve_reads)) as HS7.
    apply bind_inv in Hrun as (? & h8 & Hloop & _).
    destruct (Z.ltb_spec 0 (naux ivars)) as [Hpos|Hnone]; [|lia].
    edestruct (λ Hb, for_each_has_slots _ _ l m Hb _ _ _ _ Hloop HS7 (Hlast Hpos))
      as (hx & yx & hx' & Hbody & HSx).
    { intros [nq0 nu0] ha ya hb Hb Hs.
      exact (assign_has_slots _ _ _ _ _ _ l m Hb Hs ltac:(solve_reads)). }
    apply assign_reads in Hbody as (? & Hbody); [|solve_reads].
    apply eop2_inv_l in Hbody as (? & ? & Hbody).
    pose proof (slice_needs_slot _ _ _ _ _ _ Hbody HSx ltac:(lia)) as Bl.
    lia.
Qed.

End ShortArrays.

(** ** The timestep and the CFL condition *)

Section TimestepMore.
Context {World Incr : Type} (ext : Collaborators R World Incr).
Implicit Types (sim : Simulation R World).
Local Open Scope R_scope.

(** X10 (the timestep obeys the CFL condition).  In exact arithmetic,
    with a CFL number [cfl >= 0] and fast speeds positive in every
    cell, [method_compute_timestep] returns, and the [dt] of the
    simulation it leaves satisfies [dt * (|u| + Cfx) <= cfl * dx] and
    [dt * (|v| + Cfy) <= cfl * dy] in every cell: in a time [dt] no
    signal crosses more than the fraction [cfl] of a zone. *)
Theorem timestep_satisfies_cfl sim (u v Cfx Cfy : Field R) :
  get_velocity ext (world sim) = (u, v) →
  get_magnetosonic ext (world sim) = (Cfx, Cfy) →
  fields_on_grid u v Cfx Cfy →
  0 <= driver_cfl (rp sim) →
  (∀ i j, (i < fnx u)%nat → (j < fny u)%nat → 0 < fdata Cfx i j) →
  (∀ i j, (i < fnx v)%nat → (j < fny v)%nat → 0 < fdata Cfy i j) →
  ∃ sim',
    method_compute_timestep ext sim = Some (tt, sim')
    ∧ (∀ i j, (i < fnx u)%nat → (j < fny u)%nat →
              dt sim' * (Rabs (fdata u i j) + fdata Cfx i j)
              <= driver_cfl (rp sim) * dx (get_grid ext (world sim)))
    ∧ (∀ i j, (i < fnx v)%nat → (j < fny v)%nat →
              dt sim' * (Rabs (fdata v i j) + fdata Cfy i j)
              <= driver_cfl (rp sim) * dy (get_grid ext (world sim))).
Proof.
  intros Hvel Hmag Hgrid Hcfl HCfx HCfy.
  destruct (method_compute_timestep_sets_dt ext sim u v Cfx Cfy Hvel Hmag Hgrid)
    as (xmin & ymin & sim' & (Hxle & _) & (Hyle & _) & Hrun & Hdt & _).
  exists sim'; split; [exact Hrun|].
  rewrite Hdt.
  set (m := Rmin (Rmin xmin ymin) (driver_fix_dt (rp sim))).
  assert (Hmx : m <= xmin).
  { unfold m. eapply Rle_trans; [apply Rmin_l | apply Rmin_l]. }
  assert (Hmy : m <= ymin).
  { unfold m. eapply Rle_trans; [apply Rmin_l | apply Rmin_r]. }
  assert (Hbound : ∀ a d x, 0 < a → x <= d / a → x * a <= d).
  { intros a d x Ha Hx.
    replace d with (d / a * a) by (field; lra).
    apply Rmult_le_compat_r; lra. }
  split; intros i j Hi Hj.
  - specialize (Hxle i j Hi Hj); specialize (HCfx i j Hi Hj).
    pose proof (Rabs_pos (fdata u i j)) as Habs.
    assert (Hm : m * (Rabs (fdata u i j) + fdata Cfx i j)
                 <= dx (get_grid ext (world sim))) by (apply Hbound; lra).
    rewrite Rmult_assoc; apply Rmult_le_compat_l; assumption.
  - specialize (Hyle i j Hi Hj); specialize (HCfy i j Hi Hj).
    pose proof (Rabs_pos (fdata v i j)) as Habs.
    assert (Hm : m * (Rabs (fdata v i j) + fdata Cfy i j)
                 <= dy (get_grid ext (world sim))) by (apply Hbound; lra).
    rewrite Rmult_assoc; apply Rmult_le_compat_l; assumption.
Qed.

(** X11 ([fix_dt] is scaled by the CFL number).  In exact arithmetic,
    with no signal speed [|u| + Cfx], [|v| + Cfy] zero:
    [method_compute_timestep] returns; the [dt] of the simulation it
    leaves is at most [cfl * fix_dt] when [cfl >= 0]; and when [fix_dt]
    is not larger than the bound [dx/(|u|+Cfx)], [dy/(|v|+Cfy)] of any
    cell, that [dt] is [cfl * fix_dt], not [fix_dt] itself. *)
Theorem timestep_scales_fix_dt sim (u v Cfx Cfy : Field R) :
  get_velocity ext (world sim) = (u, v) →
  get_magnetosonic ext (world sim) = (Cfx, Cfy) →
  fields_on_grid u v Cfx Cfy →
  speeds_nonzero u v Cfx Cfy →
  ∃ sim',
    method_compute_timestep ext sim = Some (tt, sim')
    ∧ (0 <= driver_cfl (rp sim) →
       dt sim' <= driver_cfl (rp sim) * driver_fix_dt (rp sim))
    ∧ ((∀ i j, (i < fnx u)%nat → (j < fny u)%nat →
               driver_fix_dt (rp sim)
               <= dx (get_grid ext (world sim)) / (Rabs (fdata u i j) + fdata Cfx i j)) →
       (∀ i j, (i < fnx v)%nat → (j < fny v)%nat →
               driver_fix_dt (rp sim)
               <= dy (get_grid ext (world sim)) / (Rabs (fdata v i j) + fdata Cfy i j)) →
       dt sim' = driver_cfl (rp sim) * driver_fix_dt (rp sim)).
Proof.
  intros Hvel Hmag Hgrid _.
  destruct (method_compute_timestep_sets_dt ext sim u v Cfx Cfy Hvel Hmag Hgrid)
    as (xmin & ymin & sim' & (_ & ix & jx & Hix & Hjx & Hxeq)
        & (_ & iy & jy & Hiy & Hjy & Hyeq) & Hrun & Hdt & _).
  exists sim'; split; [exact Hrun|]. rewrite Hdt. split.
  - intros Hcfl; apply Rmult_le_compat_l; [exact Hcfl | apply Rmin_r].
  - intros Hx Hy; f_equal.
    apply Rmin_right, Rmin_glb.
    + rewrite Hxeq; apply Hx; assumption.
    + rewrite Hyeq; apply Hy; assumption.
Qed.

End TimestepMore.

(** ** The driver: errors, counts and the state it leaves *)

Section DriverMore.
Context {T : Type} {HA : Arith T} {World Incr : Type}.
Context (ext : Collaborators T World Incr).
Implicit Types (sim : Simulation T World).

Lemma entries_no_cells (F : Field T) :
  fnx F = 0%nat ∨ fny F = 0%nat → entries F = [].
Proof.
  unfold entries; intros [-> | ->]; [reflexivity|].
  induction (seq 0 (fnx F)) as [|i l IH]; [reflexivity | exact IH].
Qed.

Lemma fmin_no_cells (F : Field T) :
  fnx F = 0%nat ∨ fny F = 0%nat → fmin F = None.
Proof. intros H; unfold fmin; rewrite entries_no_cells by exact H; reflexivity. Qed.

Lemma method_compute_timestep_no_cells sim (u v Cfx Cfy : Field T) :
  get_velocity ext (world sim) = (u, v) →
  get_magnetosonic ext (world sim) = (Cfx, Cfy) →
  (fnx u = 0 ∨ fny u = 0 ∨ fnx v = 0 ∨ fny v = 0)%nat →
  method_compute_timestep ext sim = None.
Proof.
  intros Hvel Hmag Hempty.
  unfold method_compute_timestep; cbn [bind get].
  rewrite Hvel, Hmag.
  destruct (fmap2 aadd (fmap1 aabs u) Cfx) as [ax|] eqn:Eax; [|reflexivity].
  destruct (fmap2 aadd (fmap1 aabs v) Cfy) as [ay|] eqn:Eay; [|reflexivity].
  cbn [lift bind ret].
  assert (Hax : fnx ax = fnx u ∧ fny ax = fny u).
  { unfold fmap2 in Eax; destruct (same_shape _ _); [|discriminate].
    injection Eax as <-; split; reflexivity. }
  assert (Hay : fnx ay = fnx v ∧ fny ay = fny v).
  { unfold fmap2 in Eay; destruct (same_shape _ _); [|discriminate].
    injection Eay as <-; split; reflexivity. }
  destruct Hax as [Hax1 Hax2], Hay as [Hay1 Hay2].
  destruct (fmin (fmap1 (adiv (dx (get_grid ext (world sim)))) ax)) as [xmin|] eqn:Ex;
    [|reflexivity].
  cbn [lift bind ret].
  destruct (fmin (fmap1 (adiv (dy (get_grid ext (world sim)))) ay)) as [ymin|] eqn:Ey;
    [|reflexivity].
  exfalso.
  destruct Hempty as [H0 | [H0 | [H0 | H0]]].
  - rewrite fmin_no_cells in Ex; [discriminate | left; cbn; congruence].
  - rewrite fmin_no_cells in Ex; [discriminate | right; cbn; congruence].
  - rewrite fmin_no_cells in Ey; [discriminate | left; cbn; congruence].
  - rewrite fmin_no_cells in Ey; [discriminate | right; cbn; congruence].
Qed.

(** X12 ([evolve] on a grid without cells).  For every arithmetic: if
    the velocity arrays read at the end of the step have no cells,
    [evolve] raises ([ndarray.min] of an empty array, [ValueError]) in
    [method_compute_timestep]: no such call of [evolve] returns. *)
Theorem evolve_raises_without_cells sim (u v Cfx Cfy : Field T) :
  get_velocity ext (world_before_timestep ext sim) = (u, v) →
  get_magnetosonic ext (world_before_timestep ext sim) = (Cfx, Cfy) →
  (fnx u = 0 ∨ fny u = 0 ∨ fnx v = 0 ∨ fny v = 0)%nat →
  evolve ext sim = None.
Proof.
  intros Hvel Hmag Hempty.
  destruct (evolve_run ext sim) as (sim1 & _ & Hw & ->).
  rewrite <- Hw in Hvel, Hmag.
  unfold bind at 1.
  rewrite (method_compute_timestep_no_cells sim1 u v Cfx Cfy Hvel Hmag Hempty).
  reflexivity.
Qed.

Lemma count_calls_app (kind : Call T → bool) (l1 l2 : list (Call T)) :
  count_calls kind (l1 ++ l2) = (count_calls kind l1 + count_calls kind l2)%nat.
Proof. unfold count_calls; rewrite List.filter_app, length_app; reflexivity. Qed.

Lemma count_calls_stages (kind : Call T → bool) (dt0 : T) (c : nat) (l : list Z) :
  (∀ s, count_calls kind (stage_calls dt0 s) = c) →
  count_calls kind (flat_map (stage_calls dt0) l) = (c * length l)%nat.
Proof.
  intros Hc; induction l as [|s l IH]; cbn [flat_map length]; [unfold count_calls; cbn; lia|].
  rewrite count_calls_app, Hc, IH; lia.
Qed.

Lemma length_range_0 (k : Z) : length (range 0 k) = Z.to_nat k.
Proof. unfold range; rewrite length_map, length_seq, Z.sub_0_r; reflexivity. Qed.

(** X13 (how often [evolve] calls its collaborators).  In every call
    of [evolve] that returns, with [nstages()] stages: the substep
    ([flx.timestep]) is called once per stage, [store_increment] once
    per stage, [fill_BC_all] three times per stage and three more times
    after the update, and [compute_final_update] exactly once. *)
Theorem evolve_call_counts sim x sim' :
  evolve ext sim = Some (x, sim') →
  ∃ new,
    calls sim' = calls sim ++ new
    ∧ count_calls is_flx_timestep new = Z.to_nat (stages_of ext sim)
    ∧ count_calls is_store_increment new = Z.to_nat (stages_of ext sim)
    ∧ count_calls is_fill_BC_all new = (3 * Z.to_nat (stages_of ext sim) + 3)%nat
    ∧ count_calls is_compute_final_update new = 1%nat.
Proof.
  intros Hrun.
  destruct (evolve_inv ext _ _ _ Hrun) as (sim1 & d & Hafter & _ & _ & ->).
  destruct Hafter as (_ & _ & _ & _ & _ & Hcalls).
  eexists; split.
  { cbn [calls set_world log set_n set_t set_dt]; rewrite Hcalls, <- app_assoc.
    reflexivity. }
  rewrite !count_calls_app.
  rewrite (count_calls_stages is_flx_timestep _ 1) by (intros s; reflexivity).
  rewrite (count_calls_stages is_store_increment _ 1) by (intros s; reflexivity).
  rewrite (count_calls_stages is_fill_BC_all _ 3) by (intros s; reflexivity).
  rewrite (count_calls_stages is_compute_final_update _ 0) by (intros s; reflexivity).
  rewrite length_range_0.
  unfold calls_before_stages, calls_after_update.
  destruct (particles sim); unfold count_calls; cbn [List.filter app length
    is_flx_timestep is_store_increment is_fill_BC_all is_compute_final_update];
    repeat split; lia.
Qed.

End DriverMore.

Section EvolveExact.
Context {World Incr : Type} (ext : Collaborators R World Incr).
Implicit Types (sim : Simulation R World).
Local Open Scope R_scope.

(** X14 ([evolve] returns, and what it leaves in [self]).  In exact
    arithmetic: if the velocity and fast-speed arrays of the state the
    step ends in have matching shapes and at least one cell, and no
    signal speed [|u| + Cfx], [|v| + Cfy] is zero there, [evolve]
    returns; the [dt] it leaves is [cfl * min(xmin, ymin, fix_dt)], the
    minima taken over the cells of that final state; the clock is the
    old clock plus that [dt]; the counter is one larger; the runtime
    parameters and the particles attribute are unchanged. *)
Theorem evolve_returns sim (u v Cfx Cfy : Field R) :
  get_velocity ext (world_before_timestep ext sim) = (u, v) →
  get_magnetosonic ext (world_before_timestep ext sim) = (Cfx, Cfy) →
  fields_on_grid u v Cfx Cfy →
  speeds_nonzero u v Cfx Cfy →
  ∃ sim' xmin ymin,
    evolve ext sim = Some (tt, sim')
    ∧ min_over_cells (fnx u) (fny u)
        (λ i j, dx (get_grid ext (world_before_timestep ext sim))
                / (Rabs (fdata u i j) + fdata Cfx i j)) xmin
    ∧ min_over_cells (fnx v) (fny v)
        (λ i j, dy (get_grid ext (world_before_timestep ext sim))
                / (Rabs (fdata v i j) + fdata Cfy i j)) ymin
    ∧ dt sim' = driver_cfl (rp sim) * Rmin (Rmin xmin ymin) (driver_fix_dt (rp sim))
    ∧ t sim' = t sim + dt sim'
    ∧ n sim' = (n sim + 1)%Z
    ∧ rp sim' = rp sim
    ∧ particles sim' = particles sim
    ∧ world sim' = world_before_timestep ext sim.
Proof.
  intros Hvel Hmag Hgrid _.
  destruct (evolve_run ext sim) as (sim1 & Hafter & Hw & ->).
  destruct Hafter as (Hrp & Ht & _ & Hn & Hpart & _).
  rewrite <- Hw in Hvel, Hmag |- *.
  destruct (method_compute_timestep_exact ext sim1 u v Cfx Cfy Hvel Hmag Hgrid)
    as (xmin & ymin & Hx & Hy & Hrun).
  rewrite Hrp in Hrun.
  eexists _, xmin, ymin; split.
  { erewrite bind_run by exact Hrun.
    unfold bind at 1. unfold bind at 1. unfold call. reflexivity. }
  split; [exact Hx|]. split; [exact Hy|].
  cbn [dt t n rp particles world set_world log set_n set_t set_dt aadd R_arith].
  rewrite Ht, Hn, Hrp, Hpart; auto 10.
Qed.

End EvolveExact.

(** ** The fields of the runtime visualization *)

Section DovisRun.
Context {T : Type} {HA : Arith T} {HE : Eos T} {HS : Sqrt T}.

Lemma dovis_fields_run (extras : list string) (gamma : T) (myg : Grid2d T)
      (h : gmap loc (Array T)) (data : loc) (U : Array T) :
  h !! data = Some U →
  anx U = qx myg → any U = qy myg → anvar U = (6 + length extras)%nat →
  ∃ rho magvel e magb h' U',
    dovis_fields (mandatory ++ extras) data gamma myg h
    = Some ([rho; magvel; e; magb], h')
    ∧ Forall (λ F, fnx F = qx myg ∧ fny F = qy myg) [rho; magvel; e; magb]
    ∧ (∀ i j,
         fdata rho i j = cons_to_prim_cell gamma (adata U i j) 0
         ∧ fdata magvel i j
           = asqrt (aadd (amul (cons_to_prim_cell gamma (adata U i j) 1)
                               (cons_to_prim_cell gamma (adata U i j) 1))
                         (amul (cons_to_prim_cell gamma (adata U i j) 2)
                               (cons_to_prim_cell gamma (adata U i j) 2)))
         ∧ fdata e i j
           = adiv (rhoe gamma (cons_to_prim_cell gamma (adata U i j) 3))
                  (cons_to_prim_cell gamma (adata U i j) 0)
         ∧ fdata magb i j
           = asqrt (aadd (amul (cons_to_prim_cell gamma (adata U i j) 4)
                               (cons_to_prim_cell gamma (adata U i j) 4))
                         (amul (cons_to_prim_cell gamma (adata U i j) 5)
                               (cons_to_prim_cell gamma (adata U i j) 5))))
    ∧ (anx U' = anx U ∧ any U' = any U ∧ anvar U' = anvar U)
    ∧ h' !! data = Some U'
    ∧ (∀ i j k, adata U' i j k = floored_cell (adata U i j) k)
    ∧ ∀ l, is_Some (h !! l) → l ≠ data → h' !! l = h !! l.
Proof.
  intros Hl Hx Hy Hv.
  destruct (cons_to_prim_cells data gamma _ myg h U Hl Hx Hy Hv)
    as (Q & U' & Hrun & (HxQ & HyQ & HvQ) & (HxU & HyU & HvU) & HQ & HU').
  pose proof (fresh_loc_ne h data U Hl) as Hne.
  unfold dovis_fields.
  rewrite Variables_init_standard; cbn [lift].
  erewrite bind_run by reflexivity.
  erewrite bind_run by exact Hrun.
  set (q := fresh (dom h)) in *.
  set (h' := <[q := Q]> (<[data := U']> h)).
  assert (Hq : h' !! q = Some Q) by apply lookup_insert_eq.
  do 4 (erewrite bind_run;
        [ | eapply evals_slice; [exact Hq | apply norm_index_nonneg; cbn; lia] ]).
  erewrite bind_run; cycle 1.
  { unfold eos_rhoe. eapply evals_eop2;
      [eapply evals_eop1; apply evals_ret | apply evals_ret | reflexivity | reflexivity]. }
  do 2 (erewrite bind_run;
        [ | eapply evals_slice; [exact Hq | apply norm_index_nonneg; cbn; lia] ]).
  erewrite bind_run; cycle 1.
  { unfold esq. eapply evals_eop1, evals_eop2;
      [eapply evals_eop1; apply evals_ret | eapply evals_eop1; apply evals_ret
      | reflexivity | reflexivity]. }
  erewrite bind_run; cycle 1.
  { unfold esq. eapply evals_eop1, evals_eop2;
      [eapply evals_eop1; apply evals_ret | eapply evals_eop1; apply evals_ret
      | reflexivity | reflexivity]. }
  eexists _, _, _, _, h', U'.
  split; [reflexivity|].
  split.
  { repeat (apply Forall_cons; split; [cbn; auto|]). apply Forall_nil; exact I. }
  split.
  { intros i j.
    cbn [fdata fmap1 slot standard_ivars irho iu iv ip ibx iby].
    change (Z.to_nat 0) with 0%nat; change (Z.to_nat 1) with 1%nat;
      change (Z.to_nat 2) with 2%nat; change (Z.to_nat 3) with 3%nat;
      change (Z.to_nat 4) with 4%nat; change (Z.to_nat 5) with 5%nat.
    rewrite !HQ by lia. auto. }
  split; [rewrite HxU, HyU, HvU, Hx, Hy, Hv; auto|].
  split.
  { unfold h'; rewrite lookup_insert_ne by exact Hne. apply lookup_insert_eq. }
  split; [exact HU'|].
  intros l [A0 HA0] Hld.
  unfold h'. rewrite !lookup_insert_ne; [reflexivity | congruence |].
  intros <-. pose proof (fresh_loc_ne h q A0 HA0) as Hbad. exact (Hbad eq_refl).
Qed.

End DovisRun.

Section DovisFacts.
Context {E : Eos R}.
Local Open Scope R_scope.

(** X15 (the fields [dovis] plots, and its side effect).  In exact
    arithmetic, for the names of a simulation and data of the grid's
    shape, [dovis] computes its four fields [rho, magvel, e, magb], each
    of the grid's shape; in every cell [rho >= 1e-10], [magvel >= 0]
    with [magvel^2 * rho^2 = mx^2 + my^2], [magb >= 0] with
    [magb^2 = Bx^2 + By^2], and [e * rho = eos.rhoe(gamma, p)] for a
    pressure [p >= 1e-10].  Plotting is not read-only: the density slot
    of [self.cc_data.data] is left floored at [1e-10]; its other slots
    and all other objects are unchanged. *)
Theorem dovis_fields_and_side_effect
        (extras : list string) (gamma : R) (myg : Grid2d R)
        (h : gmap loc (Array R)) (data : loc) (U : Array R) :
  h !! data = Some U →
  anx U = qx myg → any U = qy myg → anvar U = (6 + length extras)%nat →
  ∃ rho magvel e magb h' U',
    dovis_fields (mandatory ++ extras) data gamma myg h
    = Some ([rho; magvel; e; magb], h')
    ∧ Forall (λ F, fnx F = qx myg ∧ fny F = qy myg) [rho; magvel; e; magb]
    ∧ (∀ i j,
         1e-10 <= fdata rho i j
         ∧ 0 <= fdata magvel i j
         ∧ fdata magvel i j * fdata magvel i j * (fdata rho i j * fdata rho i j)
           = adata U i j 1%nat * adata U i j 1%nat
             + adata U i j 2%nat * adata U i j 2%nat
         ∧ 0 <= fdata magb i j
         ∧ fdata magb i j * fdata magb i j
           = adata U i j 4%nat * adata U i j 4%nat
             + adata U i j 5%nat * adata U i j 5%nat
         ∧ ∃ p, 1e-10 <= p ∧ fdata e i j * fdata rho i j = rhoe gamma p)
    ∧ h' !! data = Some U'
    ∧ (∀ i j k, adata U' i j k = floored_cell (adata U i j) k)
    ∧ ∀ l, is_Some (h !! l) → l ≠ data → h' !! l = h !! l.
Proof.
  intros Hl Hx Hy Hv.
  destruct (dovis_fields_run extras gamma myg h data U Hl Hx Hy Hv)
    as (rho & magvel & e & magb & h' & U' & Hrun & Hshape & Hcells & _ & Hrest).
  exists rho, magvel, e, magb, h', U'.
  split; [exact Hrun|]. split; [exact Hshape|]. split; [|exact Hrest].
  intros i j; destruct (Hcells i j) as (-> & -> & -> & ->).
  cbv beta iota delta [cons_to_prim_cell].
  pose proof (floored_density_pos (adata U i j)) as Hpos.
  set (r := floored_density (adata U i j)) in *; clearbody r.
  cbv beta iota delta [aadd amul adiv amaximum asmall R_arith asqrt sqrt_R].
  split; [exact Hpos|].
  split; [apply sqrt_pos|].
  split.
  { rewrite sqrt_sqrt by nra. field; lra. }
  split; [apply sqrt_pos|].
  split; [rewrite sqrt_sqrt by nra; reflexivity|].
  match goal with
  | |- ∃ p, _ ∧ rhoe gamma ?x / _ * _ = _ => exists x
  end.
  split; [apply Rmax_l|]. field; lra.
Qed.

(** X16 ([dovis] on a state above the floors).  In exact arithmetic,
    for an equation of state whose [rhoe] undoes [pres]: when density
    and pressure are above the floors in every cell, the field [rho] is
    the conserved density, [e * rho] is the total energy less the
    kinetic energy [(mx^2 + my^2) / (2 rho)] and the magnetic energy
    [(Bx^2 + By^2) / 2], and [self.cc_data.data] holds the entries it
    held. *)
Theorem dovis_internal_energy
        (extras : list string) (gamma : R) (myg : Grid2d R)
        (h : gmap loc (Array R)) (data : loc) (U : Array R) :
  h !! data = Some U →
  anx U = qx myg → any U = qy myg → anvar U = (6 + length extras)%nat →
  valid_cons E gamma U →
  eos_energy_consistent E gamma →
  ∃ rho magvel e magb h',
    dovis_fields (mandatory ++ extras) data gamma myg h
    = Some ([rho; magvel; e; magb], h')
    ∧ (∀ i j, (i < anx U)%nat → (j < any U)%nat →
         fdata rho i j = adata U i j 0%nat
         ∧ fdata e i j * fdata rho i j
           = adata U i j 3%nat
             - 0.5 * (adata U i j 1%nat * adata U i j 1%nat
                      + adata U i j 2%nat * adata U i j 2%nat) / adata U i j 0%nat
             - 0.5 * (adata U i j 4%nat * adata U i j 4%nat
                      + adata U i j 5%nat * adata U i j 5%nat))
    ∧ ∃ U', h' !! data = Some U' ∧ array_eq U' U.
Proof.
  intros Hl Hx Hy Hv Hvalid Heos.
  destruct (dovis_fields_run extras gamma myg h data U Hl Hx Hy Hv)
    as (rho & magvel & e & magb & h' & U' & Hrun & Hshape & Hcells
        & (HxU & HyU & HvU) & HU' & Hfloor & _).
  exists rho, magvel, e, magb, h'.
  split; [exact Hrun|]. split.
  - intros i j Hi Hj; destruct (Hcells i j) as (-> & _ & -> & _).
    destruct (Hvalid i j Hi Hj) as [Hrho Hp].
    pose proof (Heos _ _ Hrho Hp) as Hinv.
    assert (Hfl : floored_density (adata U i j) = adata U i j 0%nat).
    { arith_R. rewrite !(Rmax_floor_id (adata U i j 0%nat)) by assumption.
      reflexivity. }
    assert (He : eint_cell (adata U i j) * adata U i j 0%nat
                 = adata U i j 3%nat
                   - 0.5 * (adata U i j 1%nat * adata U i j 1%nat
                            + adata U i j 2%nat * adata U i j 2%nat)
                     / adata U i j 0%nat
                   - 0.5 * (adata U i j 4%nat * adata U i j 4%nat
                            + adata U i j 5%nat * adata U i j 5%nat)).
    { arith_R. rewrite !(Rmax_floor_id (adata U i j 0%nat)) by assumption.
      field; lra. }
    cbv beta iota delta [cons_to_prim_cell]; rewrite Hfl.
    split; [reflexivity|].
    set (p := pres gamma (adata U i j 0%nat) (eint_cell (adata U i j))) in *.
    cbv beta iota delta [adiv amaximum asmall R_arith].
    rewrite (Rmax_floor_id' p Hp), Hinv, <- He. field; lra.
  - exists U'; split; [exact HU'|].
    unfold array_eq; repeat (split; [assumption|]).
    intros i j k Hi Hj _; rewrite Hfloor.
    rewrite HxU in Hi; rewrite HyU in Hj.
    destruct (Hvalid i j Hi Hj) as [Hrho _].
    destruct k as [|k]; cbn [floored_cell]; [|reflexivity].
    arith_R. apply Rmax_left; lra.
Qed.

End DovisFacts.

(** ** The theorems on concrete inputs *)

Example Variables_init_six :
  Variables_init mandatory = Some (standard_ivars 0)
  ∧ naux (standard_ivars 0) = 0%Z
  ∧ irhox (standard_ivars 0) = (-1)%Z ∧ ix (standard_ivars 0) = (-1)%Z.
Proof. repeat split. Qed.

Example Variables_init_eight :
  Variables_init (mandatory ++ ["fuel"; "ash"]) = Some (standard_ivars 2)
  ∧ naux (standard_ivars 2) = 2%Z
  ∧ irhox (standard_ivars 2) = 6%Z ∧ ix (standard_ivars 2) = 6%Z.
Proof. repeat split. Qed.

Lemma gamma_law_R_consistent (gamma : R) :
  (gamma ≠ 1)%R → eos_consistent gamma_law_R gamma.
Proof.
  intros Hg dens p Hd Hp; cbn.
  field; split; lra.
Qed.

(** The round trip of C1 on the uniform state of scenario A. *)
Lemma round_trip_witness :
  ∃ lU h1 lq' h2 Q',
    prim_to_cons (H0 := gamma_law_R) 1%positive 1.4%R (standard_ivars 0)
                 grid_1x1_R (store1 uniform_q_R) = Some (lU, h1)
    ∧ cons_to_prim (H0 := gamma_law_R) lU 1.4%R (standard_ivars 0) grid_1x1_R h1
      = Some (lq', h2)
    ∧ h2 !! lq' = Some Q'
    ∧ array_eq Q' uniform_q_R.
Proof.
  apply (round_trip (E := gamma_law_R) [] (standard_ivars 0) 1.4%R grid_1x1_R
                    (store1 uniform_q_R) 1%positive uniform_q_R).
  - reflexivity.
  - reflexivity.
  - reflexivity.
  - reflexivity.
  - reflexivity.
  - intros i j _ _; unfold uniform_q_R; cbn [adata]; lra.
  - apply gamma_law_R_consistent; lra.
Defined.

(** C4 (passive scalars in [prim_to_cons]), on the code: with zero
    primitive density and a passive scalar [X = 1], the conserved
    density slot holds the floor [1e-10], and the conserved scalar is
    [X] times the density as given, [0], not [X] times the floored
    density. *)
Lemma prim_to_cons_aux_density_not_floored :
  ∃ U h1 AU,
    prim_to_cons (H0 := gamma_law_R) 1%positive 1.4%R (standard_ivars 1)
                 grid_1x1_R (store1 vacuum_q_R) = Some (U, h1)
    ∧ h1 !! U = Some AU
    ∧ adata AU 0 0 0 = 1e-10%R
    ∧ adata AU 0 0 6 = 0%R
    ∧ adata AU 0 0 6 ≠ (adata vacuum_q_R 0 0 6 * adata AU 0 0 0)%R.
Proof.
  destruct (prim_to_cons_cells (HE := gamma_law_R) 1%positive 1.4%R 1 grid_1x1_R
                               (store1 vacuum_q_R) vacuum_q_R)
    as (AU & Hrun & _ & _ & _ & HU); try reflexivity.
  eexists _, _, AU; split; [exact Hrun|]. split; [apply lookup_insert_eq|].
  rewrite !HU by lia. arith_R. cbn [vacuum_q_R adata].
  rewrite Rmax_right by lra.
  split; [reflexivity|]. split; [lra|lra].
Qed.

(** The same in binary64, with density [1e-15] and [X = 3]: the scalar
    is multiplied by [1e-15], not by the floored [1e-10]. *)
Example prim_to_cons_aux_binary64 :
  (λ A, (adata A 0 0 0, adata A 0 0 6)) <$>
    returned (prim_to_cons (H0 := gamma_law_F) 1%positive 1.4%float
                (standard_ivars 1) grid_1x1_F)
             (store1 (mkArray 1 1 7
                        (λ _ _ k, match k with
                                  | 0%nat => 1e-15 | 3%nat => 1 | 6%nat => 3
                                  | _ => 0
                                  end)%float))
  = Some (1e-10, 3 * 1e-15)%float.
Proof. vm_compute; reflexivity. Qed.

(** C5, as stated, fails in binary64: [cons_to_prim] on a NaN density
    returns a NaN density, which is not at or above the floor; and on
    density [1e-15] under the finite energy [1e300] it returns density
    [1e-10] and an infinite pressure (ideal-gas equation of state,
    [gamma = 1.4]). *)
Lemma floors_binary64_nan_inf :
  (∃ Aq, returned (cons_to_prim (H0 := gamma_law_F) 1%positive 1.4%float
                                (standard_ivars 0) grid_1x1_F) (store1 nan_U_F)
         = Some Aq
         ∧ PrimFloat.is_nan (adata Aq 0 0 0) = true
         ∧ PrimFloat.leb 1e-10 (adata Aq 0 0 0) = false)
  ∧ (∃ Aq, returned (cons_to_prim (H0 := gamma_law_F) 1%positive 1.4%float
                                  (standard_ivars 0) grid_1x1_F) (store1 tiny_U_F)
           = Some Aq
           ∧ adata Aq 0 0 0 = 1e-10%float
           ∧ adata Aq 0 0 3 = infinity).
Proof.
  split; (eexists; split; [vm_compute; reflexivity|]); split; vm_compute; reflexivity.
Qed.

(** In binary64 too, a density that is not a NaN comes out at or above
    the floor. *)
Lemma np_maximum_floor (d : float) :
  PrimFloat.is_nan d = false →
  PrimFloat.leb 1e-10 (np_maximum d 1e-10) = true.
Proof.
  intros Hnan; unfold np_maximum; rewrite Hnan, orb_false_r.
  destruct (PrimFloat.leb 1e-10 d) eqn:E; [exact E | reflexivity].
Qed.

(** The floors of C5 on a cell of density [1e-15]. *)
Lemma floors_in_exact_arithmetic_witness :
  (∃ q h1 Aq,
      cons_to_prim (H0 := gamma_law_R) 1%positive 1.4%R (standard_ivars 0)
                   grid_1x1_R (store1 tiny_U_R) = Some (q, h1)
      ∧ h1 !! q = Some Aq
      ∧ ∀ i j, (1e-10 <= entry Aq i j (irho (standard_ivars 0)))%R
               ∧ (1e-10 <= entry Aq i j (ip (standard_ivars 0)))%R
               ∧ (entry tiny_U_R i j (idens (standard_ivars 0)) = 1e-15%R →
                  entry Aq i j (irho (standard_ivars 0)) = 1e-10%R))
  ∧ (∃ U h1 AU,
      prim_to_cons (H0 := gamma_law_R) 1%positive 1.4%R (standard_ivars 0)
                   grid_1x1_R (store1 tiny_U_R) = Some (U, h1)
      ∧ h1 !! U = Some AU
      ∧ ∀ i j, (1e-10 <= entry AU i j (idens (standard_ivars 0)))%R
               ∧ ∃ p, (1e-10 <= p)%R
                      ∧ entry AU i j (iener (standard_ivars 0))
                        = (@rhoe R gamma_law_R 1.4 p
                          + 0.5 * entry tiny_U_R i j (irho (standard_ivars 0))
                            * (entry tiny_U_R i j (iu (standard_ivars 0))
                               * entry tiny_U_R i j (iu (standard_ivars 0))
                               + entry tiny_U_R i j (iv (standard_ivars 0))
                                 * entry tiny_U_R i j (iv (standard_ivars 0)))
                          + 0.5 * (entry tiny_U_R i j (ibx (standard_ivars 0))
                                   * entry tiny_U_R i j (ibx (standard_ivars 0))
                                   + entry tiny_U_R i j (iby (standard_ivars 0))
                                     * entry tiny_U_R i j (iby (standard_ivars 0))))%R).
Proof.
  apply (floors_in_exact_arithmetic (E := gamma_law_R) [] (standard_ivars 0) 1.4%R
                                    grid_1x1_R (store1 tiny_U_R) 1%positive tiny_U_R);
    reflexivity.
Defined.

(** C8 on a cell of density [1e-15]. *)
Lemma cons_to_prim_floors_U_in_place_witness :
  ∃ q h',
    cons_to_prim (H0 := gamma_law_R) 1%positive 1.4%R (standard_ivars 0)
                 grid_1x1_R (store1 tiny_U_R) = Some (q, h')
    ∧ ∃ (AU' : Array R) (d : nat),
        h' !! 1%positive = Some AU'
        ∧ norm_index (anvar tiny_U_R) (idens (standard_ivars 0)) = Some d
        ∧ anx AU' = anx tiny_U_R ∧ any AU' = any tiny_U_R
        ∧ anvar AU' = anvar tiny_U_R
        ∧ ∀ i j k, adata AU' i j k =
                   if Nat.eqb k d then amaximum (adata tiny_U_R i j d) asmall
                   else adata tiny_U_R i j k.
Proof.
  destruct (cons_to_prim_cells (HE := gamma_law_R) 1%positive 1.4%R 0 grid_1x1_R
                               (store1 tiny_U_R) tiny_U_R)
    as (Aq & AU' & Hrun & _); try reflexivity.
  eexists _, _; split; [exact Hrun|].
  eapply (cons_to_prim_floors_U_in_place (HE := gamma_law_R) 1%positive 1.4%R
            (standard_ivars 0) grid_1x1_R (store1 tiny_U_R) _ tiny_U_R _).
  - reflexivity.
  - exact Hrun.
Defined.

(** C10 on a cell of zero density. *)
Lemma prim_to_cons_leaves_q_witness :
  ∃ U h',
    prim_to_cons (H0 := gamma_law_R) 1%positive 1.4%R (standard_ivars 1)
                 grid_1x1_R (store1 vacuum_q_R) = Some (U, h')
    ∧ h' !! 1%positive = Some vacuum_q_R
    ∧ store1 vacuum_q_R !! U = None
    ∧ ∀ l, l ≠ U → h' !! l = store1 vacuum_q_R !! l.
Proof.
  destruct (prim_to_cons_cells (HE := gamma_law_R) 1%positive 1.4%R 1 grid_1x1_R
                               (store1 vacuum_q_R) vacuum_q_R)
    as (AU & Hrun & _); try reflexivity.
  eexists _, _; split; [exact Hrun|].
  eapply (prim_to_cons_leaves_q (HE := gamma_law_R) 1%positive 1.4%R
            (standard_ivars 1) grid_1x1_R (store1 vacuum_q_R) _ vacuum_q_R _).
  - reflexivity.
  - exact Hrun.
Defined.

Lemma shear_R_speeds_nonzero :
  speeds_nonzero shear_u_R (const_field 2 1 0%R)
                 (const_field 2 1 1%R) (const_field 2 1 1%R).
Proof.
  split; intros i j _ _; cbn [const_field fdata].
  - pose proof (Rabs_pos (fdata shear_u_R i j)); lra.
  - pose proof (Rabs_pos 0); lra.
Qed.

Lemma shear_R_xmin (xmin : R) :
  min_over_cells 2 1 (λ i j, 0.4 / (Rabs (fdata shear_u_R i j) + 1))%R xmin →
  xmin = 0.2%R.
Proof.
  intros (Hle & i & j & Hi & Hj & Heq).
  pose proof (Hle 1%nat 0%nat ltac:(lia) ltac:(lia)) as H1.
  unfold shear_u_R in *; cbn [fdata] in *.
  rewrite Rabs_R1 in H1.
  destruct i as [|[|i]]; [| |lia].
  - rewrite Rabs_R0 in Heq. lra.
  - rewrite Rabs_R1 in Heq. lra.
Qed.

Lemma shear_R_ymin (ymin : R) :
  min_over_cells 2 1 (λ i j, 0.4 / (Rabs 0 + 1))%R ymin → ymin = 0.4%R.
Proof.
  intros (_ & i & j & _ & _ & ->). rewrite Rabs_R0. lra.
Qed.

(** C3 on two cells of size 0.4, the fluid at rest in one and moving
    in the other: the bounds are [0.4] and [0.2]. *)
Lemma method_compute_timestep_formula_witness :
  ∃ xmin ymin sim',
    min_over_cells 2 1 (λ i j, 0.4 / (Rabs (fdata shear_u_R i j) + 1))%R xmin
    ∧ min_over_cells 2 1 (λ _ _, 0.4 / (Rabs 0 + 1))%R ymin
    ∧ method_compute_timestep shear_R (fresh_sim 0.5%R 1%R 0%R) = Some (tt, sim')
    ∧ dt sim' = (0.5 * Rmin (Rmin xmin ymin) 1)%R
    ∧ same_except_dt (fresh_sim 0.5%R 1%R 0%R) sim'
    ∧ (0.5%R = 0.5%R → 1%R = 1%R → Rmin xmin ymin = 0.2%R → dt sim' = 0.1%R).
Proof.
  refine (method_compute_timestep_formula shear_R (fresh_sim 0.5%R 1%R 0%R)
            shear_u_R (const_field 2 1 0%R)
            (const_field 2 1 1%R) (const_field 2 1 1%R) _ _ _ _).
  - reflexivity.
  - reflexivity.
  - unfold fields_on_grid; cbn; repeat split; lia.
  - exact shear_R_speeds_nonzero.
Defined.

(** Scenario C, run: on the two cells above the smallest bound over the
    domain is [0.2]; CFL number 0.5 and [fix_dt = 1] leave [dt = 0.1]
    in the simulation. *)
Example timestep_scenario_C :
  ∃ sim',
    method_compute_timestep shear_R (fresh_sim 0.5%R 1%R 0%R) = Some (tt, sim')
    ∧ dt sim' = 0.1%R.
Proof.
  destruct (method_compute_timestep_sets_dt shear_R (fresh_sim 0.5%R 1%R 0%R)
              shear_u_R (const_field 2 1 0%R)
              (const_field 2 1 1%R) (const_field 2 1 1%R) eq_refl eq_refl)
    as (xmin & ymin & sim' & Hx & Hy & Hrun & Hdt & _).
  { unfold fields_on_grid; cbn; repeat split; lia. }
  exists sim'; split; [exact Hrun|].
  apply shear_R_xmin in Hx; apply shear_R_ymin in Hy; subst xmin ymin.
  rewrite Hdt.
  cbn [fresh_sim rp driver_cfl driver_fix_dt].
  rewrite (Rmin_left 0.2 0.4), (Rmin_left 0.2 1) by lra. lra.
Qed.

(** The case the reals leave out, in binary64: with the fluid at rest
    and zero fast speeds every bound is [1 / 0 = inf], the minimum is
    [fix_dt], and [dt = cfl * fix_dt]. *)
Example timestep_zero_speeds_binary64 :
  (λ r, dt (snd r)) <$> method_compute_timestep zero_speeds_F
                          (fresh_sim 0.5%float 2%float 0%float)
  = Some 1%float.
Proof. vm_compute; reflexivity. Qed.

(** Outside the amended C7: the function has no guard on the sign of
    [fix_dt].  For [fix_dt = -1] (fluid at rest, unit fast speeds, one
    cell of size 1) the CFL number [0.25] leaves [dt = -0.25], the
    larger CFL number [0.5] leaves the smaller [dt = -0.5], and that
    [dt] exceeds [fix_dt]. *)
Lemma timestep_under_negative_fix_dt :
  ∃ sim1 sim2,
    method_compute_timestep rest_R (fresh_sim 0.25%R (-1)%R 0%R) = Some (tt, sim1)
    ∧ method_compute_timestep rest_R (fresh_sim 0.5%R (-1)%R 0%R) = Some (tt, sim2)
    ∧ dt sim1 = (-0.25)%R ∧ dt sim2 = (-0.5)%R
    ∧ (dt sim2 < dt sim1)%R ∧ (-1 < dt sim2)%R.
Proof.
  assert (Hg : fields_on_grid (const_field 1 1 0%R) (const_field 1 1 0%R)
                              (const_field 1 1 1%R) (const_field 1 1 1%R)).
  { unfold fields_on_grid; cbn; repeat split; lia. }
  destruct (method_compute_timestep_sets_dt rest_R (fresh_sim 0.25%R (-1)%R 0%R) _ _ _ _
              eq_refl eq_refl Hg) as (x1 & y1 & sim1 & Hx1 & Hy1 & Hrun1 & Hdt1 & _).
  destruct (method_compute_timestep_sets_dt rest_R (fresh_sim 0.5%R (-1)%R 0%R) _ _ _ _
              eq_refl eq_refl Hg) as (x2 & y2 & sim2 & Hx2 & Hy2 & Hrun2 & Hdt2 & _).
  destruct Hx1 as (_ & ? & ? & _ & _ & ->), Hy1 as (_ & ? & ? & _ & _ & ->).
  destruct Hx2 as (_ & ? & ? & _ & _ & ->), Hy2 as (_ & ? & ? & _ & _ & ->).
  cbn [rest_R at_rest get_grid world fresh_sim dx dy const_field fdata rp driver_cfl
       driver_fix_dt] in Hdt1, Hdt2.
  exists sim1, sim2; split; [exact Hrun1|]. split; [exact Hrun2|].
  rewrite Hdt1, Hdt2, Rabs_R0.
  replace (1 / (0 + 1))%R with 1%R by lra.
  rewrite (Rmin_left 1 1), (Rmin_right 1 (-1)) by lra.
  repeat split; lra.
Qed.

(** C7, as stated, fails in binary64, where the product is rounded: on
    one cell of size 0.1 with the fluid at rest, unit fast speeds and
    [fix_dt = 1], the CFL numbers [0.8] and the next binary64 number
    above it, both in (0, 1], leave the same [dt]; the smaller CFL
    number does not give the strictly smaller timestep. *)
Lemma timestep_not_strict_in_binary64 :
  PrimFloat.ltb 0 0.8 = true
  ∧ PrimFloat.ltb 0.8 (next_up 0.8) = true
  ∧ PrimFloat.leb (next_up 0.8) 1 = true
  ∧ (λ r, dt (snd r)) <$> method_compute_timestep rest_F (set_cfl 0.8%float sim_F)
    = Some 0.080000000000000016%float
  ∧ (λ r, dt (snd r)) <$> method_compute_timestep rest_F
                            (set_cfl (next_up 0.8) sim_F)
    = Some 0.080000000000000016%float
  ∧ PrimFloat.ltb 0.080000000000000016 0.080000000000000016 = false.
Proof. repeat split; vm_compute; reflexivity. Qed.


(** C7 as amended, on the two cells above, for the CFL numbers 0.25
    and 0.5 and [fix_dt = 1]. *)
Lemma timestep_increases_with_cfl_witness :
  ∃ sim1 sim2,
    method_compute_timestep shear_R (set_cfl 0.25%R (fresh_sim 0.5%R 1%R 0%R))
    = Some (tt, sim1)
    ∧ method_compute_timestep shear_R (set_cfl 0.5%R (fresh_sim 0.5%R 1%R 0%R))
      = Some (tt, sim2)
    ∧ (dt sim1 < dt sim2)%R
    ∧ (dt sim1 <= 1)%R ∧ (dt sim2 <= 1)%R.
Proof.
  refine (timestep_increases_with_cfl shear_R (fresh_sim 0.5%R 1%R 0%R)
            shear_u_R (const_field 2 1 0%R)
            (const_field 2 1 1%R) (const_field 2 1 1%R) 0.25%R 0.5%R
            _ _ _ _ _ _ _ _ _ _ _).
  - reflexivity.
  - reflexivity.
  - unfold fields_on_grid; cbn; repeat split; lia.
  - cbn; lra.
  - cbn; lra.
  - intros i j _ _; cbn; lra.
  - intros i j _ _; cbn; lra.
  - cbn; lra.
  - lra.
  - lra.
  - lra.
Defined.

(** C2 (the clock), on the code: a simulation enters [evolve] at
    [t = 0] with [dt = 0.1], the timestep of the step it takes; the
    timestep recomputed at the end is [0.05]; the clock is left at
    [0.05], not at [0 + 0.1]; the counter goes from [0] to [1]. *)
Lemma evolve_clock_takes_new_dt :
  (λ r, (t (snd r), dt (snd r), n (snd r))) <$> evolve rest_F sim_F
  = Some (0.05, 0.05, 1%Z)%float
  ∧ aadd (t sim_F) (dt sim_F) = 0.1%float.
Proof. split; vm_compute; reflexivity. Qed.

(** C9 on a step of a two-stage integrator. *)
Lemma evolve_calls_in_order_witness :
  ∃ x sim',
    evolve rest_F sim_F = Some (x, sim')
    ∧ calls sim'
      = calls sim_F
        ++ calls_before_stages sim_F
        ++ flat_map (stage_calls (dt sim_F))
                    (map Z.of_nat (seq 0 (Z.to_nat (stages_of rest_F sim_F))))
        ++ compute_final_update :: calls_after_update sim_F ++ [timer_end]
    ∧ ¬ In compute_final_update
          (calls_before_stages sim_F
           ++ flat_map (stage_calls (dt sim_F))
                       (map Z.of_nat (seq 0 (Z.to_nat (stages_of rest_F sim_F))))
           ++ calls_after_update sim_F ++ [timer_end])
    ∧ (∀ s, ¬ In (store_increment s) (calls_after_update sim_F ++ [timer_end]))
    ∧ world sim' = world_before_timestep rest_F sim_F.
Proof.
  destruct (evolve rest_F sim_F) as [[x sim']|] eqn:Hrun.
  - exists x, sim'; split; [reflexivity|].
    exact (evolve_calls_in_order rest_F sim_F x sim' Hrun).
  - vm_compute in Hrun; discriminate.
Defined.

(** The calls of that step, written out. *)
Example evolve_calls_two_stages :
  (λ r, calls (snd r)) <$> evolve rest_F sim_F
  = Some [ timer_begin; RKIntegratorMHD 0 0.1 "RK2"; set_start; nstages;
           get_stage_start 0;
           fill_BC_all (ytmp 0); fill_BC_all (fxtmp 0); fill_BC_all (fytmp 0);
           flx_timestep (ytmp 0) (fxtmp 0) (fytmp 0) 0.1;
           store_increment 0;
           get_stage_start 1;
           fill_BC_all (ytmp 1); fill_BC_all (fxtmp 1); fill_BC_all (fytmp 1);
           flx_timestep (ytmp 1) (fxtmp 1) (fytmp 1) 0.1;
           store_increment 1;
           compute_final_update;
           update_particles 0.1;
           fill_BC_all cc_data; fill_BC_all fcx_data; fill_BC_all fcy_data;
           timer_end ]%float.
Proof. vm_compute; reflexivity. Qed.

(** ** The further theorems on concrete inputs *)

Lemma gamma_law_R_energy_consistent (gamma : R) :
  (gamma ≠ 1)%R → eos_energy_consistent gamma_law_R gamma.
Proof.
  intros Hg dens eint _ _; cbn.
  field; lra.
Qed.

Lemma uniform_U_R_valid : valid_cons gamma_law_R 1.4%R uniform_U_R.
Proof.
  intros i j _ _.
  assert (He : @eint_cell R R_arith (adata uniform_U_R i j) = 2.5%R).
  { unfold uniform_U_R; cbn [adata]. arith_R.
    rewrite !(Rmax_floor_id 1) by lra. field. }
  rewrite He; unfold uniform_U_R; cbn [adata pres gamma_law_R]. lra.
Qed.

(** X2 on the names of a file in which a tracer comes first. *)
Lemma Variables_init_positions_witness :
  (name_at tracer_first (idens tracer_first_ivars) = Some "density"%string
   ∧ name_at tracer_first (ixmom tracer_first_ivars) = Some "x-momentum"%string
   ∧ name_at tracer_first (iymom tracer_first_ivars) = Some "y-momentum"%string
   ∧ name_at tracer_first (iener tracer_first_ivars) = Some "energy"%string
   ∧ name_at tracer_first (ixmag tracer_first_ivars) = Some "x-magnetic-field"%string
   ∧ name_at tracer_first (iymag tracer_first_ivars) = Some "y-magnetic-field"%string)
  ∧ Forall (λ k, (0 ≤ k < nvar tracer_first_ivars)%Z)
           [idens tracer_first_ivars; ixmom tracer_first_ivars;
            iymom tracer_first_ivars; iener tracer_first_ivars;
            ixmag tracer_first_ivars; iymag tracer_first_ivars]
  ∧ NoDup [idens tracer_first_ivars; ixmom tracer_first_ivars;
           iymom tracer_first_ivars; iener tracer_first_ivars;
           ixmag tracer_first_ivars; iymag tracer_first_ivars]
  ∧ (6 ≤ nvar tracer_first_ivars)%Z ∧ (0 ≤ naux tracer_first_ivars)%Z
  ∧ nq tracer_first_ivars = nvar tracer_first_ivars
  ∧ [irho tracer_first_ivars; iu tracer_first_ivars; iv tracer_first_ivars;
     ip tracer_first_ivars; ibx tracer_first_ivars; iby tracer_first_ivars]
    = [0; 1; 2; 3; 4; 5]%Z.
Proof.
  apply (Variables_init_positions tracer_first tracer_first_ivars).
  reflexivity.
Defined.

(** X3 on the uniform state. *)
Lemma cons_prim_cons_round_trip_witness :
  ∃ lq h1 lU' h2 U' U1,
    cons_to_prim (H0 := gamma_law_R) 1%positive 1.4%R (standard_ivars 0)
                 grid_1x1_R (store1 uniform_U_R) = Some (lq, h1)
    ∧ prim_to_cons (H0 := gamma_law_R) lq 1.4%R (standard_ivars 0) grid_1x1_R h1
      = Some (lU', h2)
    ∧ h2 !! lU' = Some U' ∧ array_eq U' uniform_U_R
    ∧ h2 !! 1%positive = Some U1 ∧ array_eq U1 uniform_U_R.
Proof.
  apply (cons_prim_cons_round_trip (E := gamma_law_R) [] (standard_ivars 0) 1.4%R
           grid_1x1_R (store1 uniform_U_R) 1%positive uniform_U_R).
  - reflexivity.
  - reflexivity.
  - reflexivity.
  - reflexivity.
  - reflexivity.
  - exact uniform_U_R_valid.
  - apply gamma_law_R_energy_consistent; lra.
Defined.

(** X4 on a cell of density [1e-15]. *)
Lemma cons_to_prim_frame_witness :
  ∃ q h',
    cons_to_prim (H0 := gamma_law_R) 1%positive 1.4%R (standard_ivars 0)
                 grid_1x1_R (store1 tiny_U_R) = Some (q, h')
    ∧ store1 tiny_U_R !! q = None ∧ q ≠ 1%positive ∧ is_Some (h' !! q)
    ∧ ∀ l, l ≠ 1%positive → l ≠ q → h' !! l = store1 tiny_U_R !! l.
Proof.
  destruct (cons_to_prim_cells (HE := gamma_law_R) 1%positive 1.4%R 0 grid_1x1_R
                               (store1 tiny_U_R) tiny_U_R)
    as (Aq & AU' & Hrun & _); try reflexivity.
  eexists _, _; split; [exact Hrun|].
  eapply (cons_to_prim_frame (HE := gamma_law_R) 1%positive 1.4%R
            (standard_ivars 0) grid_1x1_R (store1 tiny_U_R) _ tiny_U_R _).
  - reflexivity.
  - exact Hrun.
Defined.

(** X5 on a cell of density [1e-15]. *)
Lemma cons_to_prim_twice_witness :
  ∃ q1 h1 q2 h2 Q1 Q2 U1 U2,
    cons_to_prim (H0 := gamma_law_R) 1%positive 1.4%R (standard_ivars 0)
                 grid_1x1_R (store1 tiny_U_R) = Some (q1, h1)
    ∧ cons_to_prim (H0 := gamma_law_R) 1%positive 1.4%R (standard_ivars 0)
                   grid_1x1_R h1 = Some (q2, h2)
    ∧ h1 !! q1 = Some Q1 ∧ h2 !! q2 = Some Q2 ∧ array_eq Q2 Q1
    ∧ h1 !! 1%positive = Some U1 ∧ h2 !! 1%positive = Some U2 ∧ array_eq U2 U1
    ∧ h2 !! q1 = Some Q1.
Proof.
  apply (cons_to_prim_twice (E := gamma_law_R) [] (standard_ivars 0) 1.4%R
           grid_1x1_R (store1 tiny_U_R) 1%positive tiny_U_R); reflexivity.
Defined.

(** X6 on the same cell in two stores. *)
Lemma converters_act_cell_by_cell_witness :
  (∃ Qa Qb,
      returned (cons_to_prim (H0 := gamma_law_R) 1%positive 1.4%R (standard_ivars 0)
                             grid_1x1_R) (store1 tiny_U_R) = Some Qa
      ∧ returned (cons_to_prim (H0 := gamma_law_R) 2%positive 1.4%R (standard_ivars 0)
                               grid_1x1_R) (<[2%positive := tiny_U_R]> (store1 uniform_U_R))
        = Some Qb
      ∧ ∀ k, (k < anvar tiny_U_R)%nat → adata Qa 0 0 k = adata Qb 0 0 k)
  ∧ (∃ Ua Ub,
      returned (prim_to_cons (H0 := gamma_law_R) 1%positive 1.4%R (standard_ivars 0)
                             grid_1x1_R) (store1 tiny_U_R) = Some Ua
      ∧ returned (prim_to_cons (H0 := gamma_law_R) 2%positive 1.4%R (standard_ivars 0)
                               grid_1x1_R) (<[2%positive := tiny_U_R]> (store1 uniform_U_R))
        = Some Ub
      ∧ ∀ k, (k < anvar tiny_U_R)%nat → adata Ua 0 0 k = adata Ub 0 0 k).
Proof.
  apply (converters_act_cell_by_cell (HE := gamma_law_R) [] (standard_ivars 0) 1.4%R
           grid_1x1_R (store1 tiny_U_R) (<[2%positive := tiny_U_R]> (store1 uniform_U_R))
           1%positive 2%positive tiny_U_R tiny_U_R 0 0);
    try reflexivity.
Defined.

(** X7 on a cell of density [1e-15]. *)
Lemma cons_to_prim_divides_by_floored_density_witness :
  ∃ Q,
    returned (cons_to_prim (H0 := gamma_law_R) 1%positive 1.4%R (standard_ivars 0)
                           grid_1x1_R) (store1 tiny_U_R) = Some Q
    ∧ ∀ i j,
        (0 < entry Q i j (irho (standard_ivars 0))
         ∧ entry Q i j (iu (standard_ivars 0)) * entry Q i j (irho (standard_ivars 0))
           = entry tiny_U_R i j (ixmom (standard_ivars 0))
         ∧ entry Q i j (iv (standard_ivars 0)) * entry Q i j (irho (standard_ivars 0))
           = entry tiny_U_R i j (iymom (standard_ivars 0))
         ∧ ∀ k, (6 ≤ k < anvar tiny_U_R)%nat →
                adata Q i j k * entry Q i j (irho (standard_ivars 0))
                = adata tiny_U_R i j k)%R.
Proof.
  apply (cons_to_prim_divides_by_floored_density (E := gamma_law_R) []
           (standard_ivars 0) 1.4%R grid_1x1_R (store1 tiny_U_R) 1%positive tiny_U_R);
    reflexivity.
Defined.

(** X8 on a binary64 cell of density [1e-15]. *)
Lemma density_floor_binary64_witness :
  ∃ Q U,
    returned (cons_to_prim (H0 := gamma_law_F) 1%positive 1.4%float (standard_ivars 0)
                           grid_1x1_F) (store1 tiny_U_F) = Some Q
    ∧ returned (prim_to_cons (H0 := gamma_law_F) 1%positive 1.4%float (standard_ivars 0)
                             grid_1x1_F) (store1 tiny_U_F) = Some U
    ∧ ∀ i j,
        (PrimFloat.is_nan (adata tiny_U_F i j 0%nat) = false →
         PrimFloat.leb 1e-10 (entry Q i j (irho (standard_ivars 0))) = true
         ∧ PrimFloat.leb 1e-10 (entry U i j (idens (standard_ivars 0))) = true)
        ∧ (PrimFloat.is_nan (adata tiny_U_F i j 0%nat) = true →
           entry Q i j (irho (standard_ivars 0)) = adata tiny_U_F i j 0%nat
           ∧ entry U i j (idens (standard_ivars 0)) = adata tiny_U_F i j 0%nat).
Proof.
  apply (density_floor_binary64 (E := gamma_law_F) [] (standard_ivars 0) 1.4%float
           grid_1x1_F (store1 tiny_U_F) 1%positive tiny_U_F); reflexivity.
Defined.

(** X9: seven names, an array of six slots. *)
Lemma converters_raise_on_short_arrays_witness :
  cons_to_prim (H0 := gamma_law_R) 1%positive 1.4%R (standard_ivars 1)
               grid_1x1_R (store1 uniform_U_R) = None
  ∧ prim_to_cons (H0 := gamma_law_R) 1%positive 1.4%R (standard_ivars 1)
                 grid_1x1_R (store1 uniform_U_R) = None.
Proof.
  apply (converters_raise_on_short_arrays (HE := gamma_law_R)
           (mandatory ++ ["tracer"%string]) (standard_ivars 1) 1.4%R grid_1x1_R
           (store1 uniform_U_R) 1%positive uniform_U_R).
  - reflexivity.
  - reflexivity.
  - cbn; lia.
Defined.

(** X10 on the two cells of size 0.4. *)
Lemma timestep_satisfies_cfl_witness :
  ∃ sim',
    method_compute_timestep shear_R (fresh_sim 0.5%R 1%R 0%R) = Some (tt, sim')
    ∧ (∀ i j, (i < 2)%nat → (j < 1)%nat →
              (dt sim' * (Rabs (fdata shear_u_R i j) + 1) <= 0.5 * 0.4)%R)
    ∧ (∀ i j, (i < 2)%nat → (j < 1)%nat →
              (dt sim' * (Rabs 0 + 1) <= 0.5 * 0.4)%R).
Proof.
  refine (timestep_satisfies_cfl shear_R (fresh_sim 0.5%R 1%R 0%R)
            shear_u_R (const_field 2 1 0%R)
            (const_field 2 1 1%R) (const_field 2 1 1%R) _ _ _ _ _ _).
  - reflexivity.
  - reflexivity.
  - unfold fields_on_grid; cbn; repeat split; lia.
  - cbn; lra.
  - intros i j _ _; cbn; lra.
  - intros i j _ _; cbn; lra.
Defined.

(** X11 on the two cells of size 0.4, with [fix_dt = 0.1]. *)
Lemma timestep_scales_fix_dt_witness :
  ∃ sim',
    method_compute_timestep shear_R (fresh_sim 0.5%R 0.1%R 0%R) = Some (tt, sim')
    ∧ ((0 <= 0.5)%R → (dt sim' <= 0.5 * 0.1)%R)
    ∧ ((∀ i j, (i < 2)%nat → (j < 1)%nat →
               (0.1 <= 0.4 / (Rabs (fdata shear_u_R i j) + 1))%R) →
       (∀ i j, (i < 2)%nat → (j < 1)%nat → (0.1 <= 0.4 / (Rabs 0 + 1))%R) →
       dt sim' = (0.5 * 0.1)%R).
Proof.
  refine (timestep_scales_fix_dt shear_R (fresh_sim 0.5%R 0.1%R 0%R)
            shear_u_R (const_field 2 1 0%R)
            (const_field 2 1 1%R) (const_field 2 1 1%R) _ _ _ _).
  - reflexivity.
  - reflexivity.
  - unfold fields_on_grid; cbn; repeat split; lia.
  - exact shear_R_speeds_nonzero.
Defined.

(** X12 on a grid of no cells. *)
Lemma evolve_raises_without_cells_witness :
  evolve rest_empty_F sim_F = None.
Proof.
  apply (evolve_raises_without_cells rest_empty_F sim_F
           (const_field 0 0 0%float) (const_field 0 0 0%float)
           (const_field 0 0 1%float) (const_field 0 0 1%float)).
  - reflexivity.
  - reflexivity.
  - left; reflexivity.
Defined.

(** X13 on a step of a two-stage integrator. *)
Lemma evolve_call_counts_witness :
  ∃ x sim' new,
    evolve rest_F sim_F = Some (x, sim')
    ∧ calls sim' = calls sim_F ++ new
    ∧ count_calls is_flx_timestep new = Z.to_nat (stages_of rest_F sim_F)
    ∧ count_calls is_store_increment new = Z.to_nat (stages_of rest_F sim_F)
    ∧ count_calls is_fill_BC_all new = (3 * Z.to_nat (stages_of rest_F sim_F) + 3)%nat
    ∧ count_calls is_compute_final_update new = 1%nat.
Proof.
  destruct (evolve rest_F sim_F) as [[x sim']|] eqn:Hrun.
  - destruct (evolve_call_counts rest_F sim_F x sim' Hrun) as (new & Hnew).
    exists x, sim', new; split; [reflexivity | exact Hnew].
  - vm_compute in Hrun; discriminate.
Defined.

(** X14 on the two cells of size 0.4. *)
Lemma evolve_returns_witness :
  ∃ sim' xmin ymin,
    evolve shear_R (fresh_sim 0.5%R 1%R 0.1%R) = Some (tt, sim')
    ∧ min_over_cells 2 1 (λ i j, 0.4 / (Rabs (fdata shear_u_R i j) + 1))%R xmin
    ∧ min_over_cells 2 1 (λ _ _, 0.4 / (Rabs 0 + 1))%R ymin
    ∧ dt sim' = (0.5 * Rmin (Rmin xmin ymin) 1)%R
    ∧ t sim' = (0 + dt sim')%R
    ∧ n sim' = (0 + 1)%Z
    ∧ rp sim' = rp (fresh_sim 0.5%R 1%R 0.1%R)
    ∧ particles sim' = true
    ∧ world sim' = tt.
Proof.
  refine (evolve_returns shear_R (fresh_sim 0.5%R 1%R 0.1%R)
            shear_u_R (const_field 2 1 0%R)
            (const_field 2 1 1%R) (const_field 2 1 1%R) _ _ _ _).
  - reflexivity.
  - reflexivity.
  - unfold fields_on_grid; cbn; repeat split; lia.
  - exact shear_R_speeds_nonzero.
Defined.

(** X15 on a cell of density [1e-15]. *)
Lemma dovis_fields_and_side_effect_witness :
  ∃ rho magvel e magb h' U',
    dovis_fields (H0 := gamma_law_R) (mandatory ++ []) 1%positive 1.4%R grid_1x1_R
                 (store1 tiny_U_R)
    = Some ([rho; magvel; e; magb], h')
    ∧ Forall (λ F, fnx F = 1%nat ∧ fny F = 1%nat) [rho; magvel; e; magb]
    ∧ (∀ i j,
         1e-10 <= fdata rho i j
         ∧ 0 <= fdata magvel i j
         ∧ fdata magvel i j * fdata magvel i j * (fdata rho i j * fdata rho i j)
           = adata tiny_U_R i j 1%nat * adata tiny_U_R i j 1%nat
             + adata tiny_U_R i j 2%nat * adata tiny_U_R i j 2%nat
         ∧ 0 <= fdata magb i j
         ∧ fdata magb i j * fdata magb i j
           = adata tiny_U_R i j 4%nat * adata tiny_U_R i j 4%nat
             + adata tiny_U_R i j 5%nat * adata tiny_U_R i j 5%nat
         ∧ ∃ p, 1e-10 <= p
                ∧ fdata e i j * fdata rho i j = @rhoe R gamma_law_R 1.4 p)%R
    ∧ h' !! 1%positive = Some U'
    ∧ (∀ i j k, adata U' i j k = floored_cell (adata tiny_U_R i j) k)
    ∧ ∀ l, is_Some (store1 tiny_U_R !! l) → l ≠ 1%positive →
           h' !! l = store1 tiny_U_R !! l.
Proof.
  apply (dovis_fields_and_side_effect (E := gamma_law_R) [] 1.4%R grid_1x1_R
           (store1 tiny_U_R) 1%positive tiny_U_R); reflexivity.
Defined.

(** X16 on the uniform state. *)
Lemma dovis_internal_energy_witness :
  ∃ rho magvel e magb h',
    dovis_fields (H0 := gamma_law_R) (mandatory ++ []) 1%positive 1.4%R grid_1x1_R
                 (store1 uniform_U_R)
    = Some ([rho; magvel; e; magb], h')
    ∧ (∀ i j, (i < anx uniform_U_R)%nat → (j < any uniform_U_R)%nat →
         fdata rho i j = adata uniform_U_R i j 0%nat
         ∧ fdata e i j * fdata rho i j
           = adata uniform_U_R i j 3%nat
             - 0.5 * (adata uniform_U_R i j 1%nat * adata uniform_U_R i j 1%nat
                      + adata uniform_U_R i j 2%nat * adata uniform_U_R i j 2%nat)
               / adata uniform_U_R i j 0%nat
             - 0.5 * (adata uniform_U_R i j 4%nat * adata uniform_U_R i j 4%nat
                      + adata uniform_U_R i j 5%nat * adata uniform_U_R i j 5%nat))%R
    ∧ ∃ U', h' !! 1%positive = Some U' ∧ array_eq U' uniform_U_R.
Proof.
  apply (dovis_internal_energy (E := gamma_law_R) [] 1.4%R grid_1x1_R
           (store1 uniform_U_R) 1%positive uniform_U_R).
  - reflexivity.
  - reflexivity.
  - reflexivity.
  - reflexivity.
  - exact uniform_U_R_valid.
  - apply gamma_law_R_energy_consistent; lra.
Defined.

(** X17 on a cell of zero density with a passive scalar. *)
Lemma round_trip_below_the_floors_witness :
  ∃ lU h1 lq' h2 Q',
    prim_to_cons (H0 := gamma_law_R) 1%positive 1.4%R (standard_ivars 1)
                 grid_1x1_R (store1 vacuum_q_R) = Some (lU, h1)
    ∧ cons_to_prim (H0 := gamma_law_R) lU 1.4%R (standard_ivars 1) grid_1x1_R h1
      = Some (lq', h2)
    ∧ h2 !! lq' = Some Q'
    ∧ (anx Q' = anx vacuum_q_R ∧ any Q' = any vacuum_q_R
       ∧ anvar Q' = anvar vacuum_q_R)
    ∧ ∀ i j,
        (entry Q' i j (irho (standard_ivars 1))
         = Rmax (entry vacuum_q_R i j (irho (standard_ivars 1))) 1e-10
         ∧ entry Q' i j (iu (standard_ivars 1))
           = entry vacuum_q_R i j (iu (standard_ivars 1))
         ∧ entry Q' i j (iv (standard_ivars 1))
           = entry vacuum_q_R i j (iv (standard_ivars 1))
         ∧ 1e-10 <= entry Q' i j (ip (standard_ivars 1))
         ∧ entry Q' i j (ibx (standard_ivars 1))
           = entry vacuum_q_R i j (ibx (standard_ivars 1))
         ∧ entry Q' i j (iby (standard_ivars 1))
           = entry vacuum_q_R i j (iby (standard_ivars 1))
         ∧ ∀ k, (6 ≤ k < anvar vacuum_q_R)%nat →
                adata Q' i j k * entry Q' i j (irho (standard_ivars 1))
                = adata vacuum_q_R i j k
                  * entry vacuum_q_R i j (irho (standard_ivars 1)))%R.
Proof.
  apply (round_trip_below_the_floors (E := gamma_law_R) ["tracer"%string]
           (standard_ivars 1) 1.4%R grid_1x1_R (store1 vacuum_q_R) 1%positive
           vacuum_q_R); reflexivity.
Defined.
